(** * Rumble Live Ops: the playlist automation job runner

  A shallow embedding of the two cooperating pieces of the extension that
  apply or clear playlist membership over a batch of videos:

  - [Automator]: the page worker of [playlist-automator.js]
    ([resolveIdsFromNames], [ensurePlaylistsChecked],
    [ensureAllPlaylistsUnchecked], [confirmAndCloseOverlay] and the
    [videoWorkerRun] message handler);
  - [Background]: the service worker's [DirectVideoApplyJob]
    ([toAbs], [stripParams], [cleanup], [sendProgress], [next],
    [onUpdated], [start] and the worker-message handler) together with
    the [chrome.tabs.onRemoved] listener;
  - [Listing] and [SaveButton]: the page worker's [getVideoIdFromUrl],
    [resolveTargetTile] and [pickSaveButtonForList];
  - [Ownership], [Livestream], [Debounce] and [NewTabWorker]: the
    service worker's [isTabOwnedByUser] with the functions it calls,
    [deriveLivestreamLink], [__rloDebouncePerTab] and
    [runWorkerInNewTab].

  JavaScript strings are modelled as [string]; the embedding covers
  strings whose code units are ASCII (case folding and trimming leave
  any other code unit alone). *)

From stdpp Require Import base list strings gmap.
From Stdlib Require Import ZArith Lia Ascii.


(** ** String helpers of the JavaScript runtime *)

Module JsString.

(** [WhiteSpace] and [LineTerminator] code units below 128, the ones
    [String.prototype.trim] removes. *)
Definition is_ws (c : ascii) : bool :=
  let n := nat_of_ascii c in
  (Nat.leb 9 n && Nat.leb n 13) || Nat.eqb n 32.

Fixpoint trimStart (s : string) : string :=
  match s with
  | EmptyString => EmptyString
  | String c r => if is_ws c then trimStart r else s
  end.

Definition is_empty (s : string) : bool :=
  match s with EmptyString => true | String _ _ => false end.

Fixpoint trimEnd (s : string) : string :=
  match s with
  | EmptyString => EmptyString
  | String c r =>
      let r' := trimEnd r in
      if is_ws c && is_empty r' then EmptyString else String c r'
  end.

(** [s.trim()] *)
Definition trim (s : string) : string := trimEnd (trimStart s).

Definition lower_char (c : ascii) : ascii :=
  let n := nat_of_ascii c in
  if Nat.leb 65 n && Nat.leb n 90 then ascii_of_nat (n + 32) else c.

(** [s.toLowerCase()] *)
Fixpoint toLowerCase (s : string) : string :=
  match s with
  | EmptyString => EmptyString
  | String c r => String (lower_char c) (toLowerCase r)
  end.

(** [s.replace(/\/+$/, '')]: drop every trailing slash. *)
Fixpoint stripTrailingSlashes (s : string) : string :=
  match s with
  | EmptyString => EmptyString
  | String c r =>
      let r' := stripTrailingSlashes r in
      if Ascii.eqb c "/" && is_empty r' then EmptyString else String c r'
  end.

(** JavaScript truthiness of a string, as used by [.filter(Boolean)]. *)
Definition truthy (s : string) : bool := negb (is_empty s).

(** [x || d] on a possibly absent string. *)
Definition or_default (x : option string) (d : string) : string :=
  match x with
  | Some s => if is_empty s then d else s
  | None => d
  end.

End JsString.

(** ** Insertion-ordered sets: [Array.from(new Set(arr))] *)

Section Uniq.
Context {A : Type} `{EqDecision A}.

(** [Set.prototype.add]: a value already present keeps its position. *)
Definition set_add (seen : list A) (x : A) : list A :=
  if decide (x ∈ seen) then seen else seen ++ [x].

(** [uniq = (arr) => Array.from(new Set(arr))] *)
Definition uniq (l : list A) : list A := foldl set_add [] l.
End Uniq.

(** ** The page worker ([playlist-automator.js]) *)

Module Automator.
Import JsString.

(** An entry of [userPlaylists] in [chrome.storage.local]. *)
Record Playlist := {
  title : option string;
  id : option string;
  playlist_id : option string;
  slug : option string
}.

(** [String(p.id ?? p.playlist_id ?? p.slug ?? '').trim()] *)
Definition playlist_key (p : Playlist) : string :=
  trim (match id p with
        | Some i => i
        | None => match playlist_id p with
                  | Some i => i
                  | None => match slug p with Some i => i | None => "" end
                  end
        end).

(** [String((p.title || '').trim().toLowerCase())] *)
Definition playlist_title_key (p : Playlist) : string :=
  toLowerCase (trim (or_default (title p) "")).

(** [new Map(pairs)]: later pairs overwrite earlier ones. *)
Definition js_map (pairs : list (string * string)) : gmap string string :=
  foldl (fun m kv => <[kv.1 := kv.2]> m) ∅ pairs.

(** [(list || []).map(s => (s || '').trim().toLowerCase()).filter(Boolean)],
    then [uniq]. *)
Definition name_keys (nameList : list string) : list string :=
  uniq (filter (fun s => Is_true (truthy s))
               ((fun s => toLowerCase (trim s)) <$> nameList)).

(** [resolveIdsFromNames(nameList)]; [stored] is what
    [chrome.storage.local.get('userPlaylists')] yields, [None] when the
    key is absent or the read is rejected. *)
Definition resolveIdsFromNames
    (stored : option (list Playlist)) (nameList : list string) : list string :=
  let names := name_keys nameList in
  match names with
  | [] => []
  | _ =>
      let userPlaylists := default [] stored in
      let m := js_map ((fun p => (playlist_title_key p, playlist_key p))
                       <$> userPlaylists) in
      let resolved :=
        filter (fun s => Is_true (truthy s)) (omap (fun n => m !! n) names) in
      uniq resolved
  end.

(** *** The save-to-playlist overlay

    The DOM is the worker's environment.  A playlist row is what
    [extractPlaylistMeta] reads from it: the extracted id (empty when
    none is found), the visible name with its white space collapsed,
    and the check box, given by the value [isChecked] reports after
    [k] clicks on it. *)
Definition Checkbox := nat -> bool.

Record Item := {
  item_id : string;
  nameRaw : string;
  cb : Checkbox
}.

(** [meta.nameKey = nameRaw.toLowerCase()] *)
Definition nameKey (it : Item) : string := toLowerCase (nameRaw it).

(** [isChecked(el)] on an untouched check box. *)
Definition isChecked (c : Checkbox) : bool := c 0.

(** The list container of the overlay ([findListContainer]): the rows
    that the item selector returns, in document order, and the check
    boxes that the check-box selector returns. *)
Record Container := {
  items : list Item;
  checks : list Checkbox
}.

(** An open overlay: its list container, when it has one, and whether
    [input[type=checkbox]:checked, [aria-checked=true]] matches
    anywhere inside it. *)
Record Overlay := {
  container : option Container;
  anyOn : bool
}.

(** The loop of [ensureChecked(targetEl, should, {attempts})]; [clicks]
    counts the clicks made so far. *)
Fixpoint ensureChecked_from (c : Checkbox) (should : bool)
    (attempts clicks : nat) : bool :=
  match attempts with
  | 0 => false
  | S a =>
      if Bool.eqb (c clicks) should then true
      else if Bool.eqb (c (S clicks)) should then true
      else ensureChecked_from c should a (S clicks)
  end.

Definition ensureChecked (c : Checkbox) (should : bool) (attempts : nat) : bool :=
  ensureChecked_from c should attempts 0.

(** [byId] of [snapshotOverlayPlaylists]: [byId.set(meta.id, meta)] for
    every row with an id, so the last row with an id wins. *)
Definition snapshot_byId (its : list Item) : gmap string Item :=
  foldl (fun m it => if truthy (item_id it) then <[item_id it := it]> m else m)
        ∅ its.

(** [byName]: the first row with a name wins ([!byName.has(nameKey)]). *)
Definition snapshot_byName (its : list Item) : gmap string Item :=
  foldl (fun m it =>
           if truthy (nameKey it) then
             match m !! nameKey it with
             | Some _ => m
             | None => <[nameKey it := it]> m
             end
           else m)
        ∅ its.

(** An entry [{id, name}] of the [checked], [skipped] and [missing]
    lists; [None] is JavaScript's [null]. *)
Record Entry := {
  e_id : option string;
  e_name : option string
}.

Record Ensured := {
  checked : list Entry;
  skipped : list Entry;
  missing : list Entry
}.

Definition no_entries : Ensured :=
  {| checked := []; skipped := []; missing := [] |}.

(** [meta.id || null] *)
Definition id_or_null (s : string) : option string :=
  if truthy s then Some s else None.

(** [uniq((list || []).map(String).map(s => s.trim()).filter(Boolean))] *)
Definition id_keys (idList : list string) : list string :=
  uniq (filter (fun s => Is_true (truthy s)) (trim <$> idList)).

(** One iteration of [for (const id of ids)] in [ensurePlaylistsChecked]. *)
Definition check_by_id (byId : gmap string Item) (acc : Ensured) (i : string)
    : Ensured :=
  match byId !! i with
  | None =>
      {| checked := checked acc; skipped := skipped acc;
         missing := missing acc ++ [ {| e_id := Some i; e_name := None |} ] |}
  | Some meta =>
      let e := {| e_id := Some i; e_name := Some (nameRaw meta) |} in
      if isChecked (cb meta) then
        {| checked := checked acc; skipped := skipped acc ++ [e];
           missing := missing acc |}
      else if ensureChecked (cb meta) true 20 then
        {| checked := checked acc ++ [e]; skipped := skipped acc;
           missing := missing acc |}
      else acc
  end.

(** One iteration of [for (const nameKey of names)]. *)
Definition check_by_name (byName : gmap string Item) (acc : Ensured)
    (n : string) : Ensured :=
  match byName !! n with
  | None =>
      {| checked := checked acc; skipped := skipped acc;
         missing := missing acc ++ [ {| e_id := None; e_name := Some n |} ] |}
  | Some meta =>
      let e := {| e_id := id_or_null (item_id meta);
                  e_name := Some (nameRaw meta) |} in
      if isChecked (cb meta) then
        {| checked := checked acc; skipped := skipped acc ++ [e];
           missing := missing acc |}
      else if ensureChecked (cb meta) true 20 then
        {| checked := checked acc ++ [e]; skipped := skipped acc;
           missing := missing acc |}
      else acc
  end.

Definition is_nil {A} (l : list A) : bool :=
  match l with [] => true | _ => false end.

(** The local variables [ids] and [names] of [ensurePlaylistsChecked]
    when its loops begin: the normalized ids, replaced by the ids that
    the stored playlists give for the names when there is no id, and
    the normalized names. *)
Definition sought (stored : option (list Playlist))
    (playlistIds playlistNames : list string) : list string * list string :=
  let ids0 := id_keys playlistIds in
  let names := name_keys playlistNames in
  (if is_nil ids0 && negb (is_nil names)
   then resolveIdsFromNames stored names else ids0,
   names).

(** A request matches none of the rows of the overlay: no row has an
    id or a name that the loops of [ensurePlaylistsChecked] look for. *)
Definition matches_none (stored : option (list Playlist)) (ov : Overlay)
    (playlistIds playlistNames : list string) : Prop :=
  match container ov with
  | None => True
  | Some c =>
      (∀ it, it ∈ items c →
         (item_id it ∉ fst (sought stored playlistIds playlistNames))
         ∧ (nameKey it ∉ snd (sought stored playlistIds playlistNames)))
  end.

(** [ensurePlaylistsChecked(overlay, {playlistIds, playlistNames})] *)
Definition ensurePlaylistsChecked (stored : option (list Playlist))
    (ov : Overlay) (playlistIds playlistNames : list string) : Ensured :=
  match container ov with
  | None => no_entries
  | Some c =>
      let '(ids, names) := sought stored playlistIds playlistNames in
      let byId := snapshot_byId (items c) in
      let byName := snapshot_byName (items c) in
      if negb (is_nil ids)
      then foldl (check_by_id byId) no_entries ids
      else foldl (check_by_name byName) no_entries names
  end.

Record Cleared := {
  unchecked : nat;
  hadNone : nat
}.

(** [ensureAllPlaylistsUnchecked(overlay)] *)
Definition ensureAllPlaylistsUnchecked (ov : Overlay) : Cleared :=
  match container ov with
  | None => {| unchecked := 0; hadNone := 0 |}
  | Some c =>
      foldl (fun acc c =>
               if isChecked c then
                 if ensureChecked c false 20
                 then {| unchecked := S (unchecked acc); hadNone := hadNone acc |}
                 else acc
               else {| unchecked := unchecked acc; hadNone := S (hadNone acc) |})
            {| unchecked := 0; hadNone := 0 |} (checks c)
  end.

(** [countWantedCheckedInOverlay(overlay, {playlistIds, playlistNames})],
    as the pair [(on, expected)]. *)
Definition countWantedCheckedInOverlay (ov : Overlay)
    (playlistIds playlistNames : list string) : nat * nat :=
  match container ov with
  | None => (0, 0)
  | Some c =>
      let ids := id_keys playlistIds in
      let names := name_keys playlistNames in
      if negb (is_nil ids) then
        (length (filter (fun it => Is_true (truthy (item_id it)
                                    && bool_decide (item_id it ∈ ids)
                                    && isChecked (cb it))) (items c)),
         length ids)
      else
        (length (filter (fun it => Is_true (truthy (nameKey it)
                                    && bool_decide (nameKey it ∈ names)
                                    && isChecked (cb it))) (items c)),
         length names)
  end.

Inductive Mode := ModeSet | ModeClear.

(** What the page does around one run of the worker: the outcome of
    the first [openSaveOverlayFromVideoPage()] (a failure reason or the
    overlay), whether [waitForOverlayCloseOrToast] saw the overlay close
    or a toast in time, and the outcome of opening the overlay again for
    verification ([None] when that throws). *)
Record Page := {
  stored : option (list Playlist);
  opened : string + Overlay;
  closed : bool;
  reopened : option (string + Overlay)
}.

(** [verifyVideoOverlayState(mode, playlists)]; [None] when it throws. *)
Definition verifyVideoOverlayState (pg : Page) (mode : Mode)
    (playlistIds playlistNames : list string) : option bool :=
  match reopened pg with
  | None => None
  | Some (inl _) => Some false
  | Some (inr ov2) =>
      Some match mode with
           | ModeSet =>
               let '(on, expected) :=
                 countWantedCheckedInOverlay ov2 playlistIds playlistNames in
               Nat.leb expected on && Nat.ltb 0 expected
           | ModeClear => negb (anyOn ov2)
           end
  end.

(** [confirmAndCloseOverlay(overlay, context)] *)
Definition confirmAndCloseOverlay (pg : Page) (context : option Mode)
    (playlistIds playlistNames : list string) : bool :=
  match context with
  | Some mode =>
      match verifyVideoOverlayState pg mode playlistIds playlistNames with
      | Some verified => closed pg && verified
      | None => closed pg
      end
  | None => closed pg
  end.

(** The [payload] of a [videoWorkerRun] message, defaults applied. *)
Record RunPayload := {
  playlistIds : list string;
  playlistNames : list string;
  clearAll : bool
}.

Inductive Details :=
| DetailsCleared (r : Cleared) (overlayConfirmed : bool)
| DetailsEnsured (r : Ensured) (overlayConfirmed : bool).

(** The local variable [namesRaw] of the [videoWorkerRun] handler:
    [uniq((playlistNames || []).map(s => (s || '').trim()).filter(Boolean))] *)
Definition run_namesRaw (payload : RunPayload) : list string :=
  uniq (filter (fun s => Is_true (truthy s)) (trim <$> playlistNames payload)).

(** Its local variable [ids] when the overlay is opened: the
    normalized ids of the request or, when it has none, the ids that the
    stored playlists give for its names. *)
Definition run_ids (stored : option (list Playlist)) (payload : RunPayload)
    : list string :=
  let ids0 := id_keys (playlistIds payload) in
  if is_nil ids0 && negb (is_nil (run_namesRaw payload))
  then resolveIdsFromNames stored (run_namesRaw payload) else ids0.

(** The [videoWorkerResult] message. *)
Record WorkerResult := {
  ok : bool;
  reason : option string;
  details : option Details
}.

(** The [videoWorkerRun] branch of the worker's message listener: the
    one [videoWorkerResult] it sends back. *)
Definition videoWorkerRun (pg : Page) (payload : RunPayload) : WorkerResult :=
  let namesRaw := run_namesRaw payload in
  let ids := run_ids (stored pg) payload in
  match opened pg with
  | inl why => {| ok := false; reason := Some why; details := None |}
  | inr ov =>
      let names := if negb (is_nil ids) then [] else namesRaw in
      let '(result, ok0) :=
        if clearAll payload then
          (DetailsCleared (ensureAllPlaylistsUnchecked ov), true)
        else
          let ensured := ensurePlaylistsChecked (stored pg) ov ids names in
          (DetailsEnsured ensured,
           Nat.ltb 0 (length (checked ensured) + length (skipped ensured))
           || (is_nil ids && is_nil namesRaw)) in
      let confirmed :=
        confirmAndCloseOverlay pg
          (Some (if clearAll payload then ModeClear else ModeSet)) ids names in
      {| ok := ok0 && confirmed;
         reason :=
           if ok0 then
             if confirmed then None
             else Some "overlay did not confirm/close in time or post-verify failed"
           else Some "no matching playlists found";
         details := Some (result confirmed) |}
  end.

End Automator.

(** ** The service worker: [DirectVideoApplyJob] and [tabs.onRemoved] *)

Module Background.
Import JsString.

(** *** URLs

    A parsed [URL] object, cut where its serializer cuts it: everything
    up to the path (scheme, credentials, host and port), the path, the
    query and the fragment ([None] is the [null] query or fragment, for
    which the serializer prints no [?] or [#]). *)
Record URL := {
  site : string;
  pathname : string;
  search : option string;
  hash : option string
}.

(** [x.toString()] *)
Definition toString (x : URL) : string :=
  site x +:+ pathname x
    +:+ match search x with Some q => "?" +:+ q | None => "" end
    +:+ match hash x with Some f => "#" +:+ f | None => "" end.

(** The platform's URL parser: [parseURL u base] is [new URL(u, base)],
    [None] when the constructor throws. *)
Class UrlApi := parseURL : string -> option string -> option URL.

Section Job.
Context `{UrlApi}.

(** [toAbs(u)] *)
Definition toAbs (u : string) : string :=
  match parseURL u (Some "https://rumble.com") with
  | Some x => toString x
  | None => u
  end.

(** [stripParams(u)] *)
Definition stripParams (u : string) : string :=
  match parseURL u None with
  | Some x =>
      stripTrailingSlashes
        (toString {| site := site x; pathname := pathname x;
                     search := None; hash := None |})
  | None => stripTrailingSlashes u
  end.

(** *** Data *)

(** The [job] object of [DirectVideoApplyJob]; [onWorkerMsg] records
    whether the field holds a handler. *)
Record Job := {
  playlistIds : list string;
  playlistNames : list string;
  clearAll : bool;
  perVideoTimeoutMs : Z;
  queue : list string;
  total : nat;
  done : nat;
  currentUrl : option string;
  tabId : option nat;
  debugKeepTab : bool;
  videoTimer : option positive;
  onWorkerMsg : bool
}.

(** The argument of [start]; an absent field takes its default. *)
Record Payload := {
  p_playlistIds : option (list string);
  p_playlistNames : option (list string);
  p_videoUrls : option (list string);
  p_debugKeepTab : option bool;
  p_clearAll : option bool;
  p_perVideoTimeoutMs : option Z
}.

Definition empty_payload : Payload :=
  {| p_playlistIds := None; p_playlistNames := None; p_videoUrls := None;
     p_debugKeepTab := None; p_clearAll := None; p_perVideoTimeoutMs := None |}.

(** The progress events, sent with [chrome.runtime.sendMessage]:
    [playlist-apply-started], [-progress], [-complete] and [-error]. *)
Inductive Message :=
| Started (total : nat) (mode : string)
| Progress (done total : nat) (currentVideoUrl : option string) (note : string)
| Complete (successCount total : nat) (note : string)
| Error (message : string).

(** What the service worker asks of the browser. *)
Inductive Effect :=
| SendMessage (m : Message)
| TabsCreate (url : string)
| TabsUpdate (tabId : option nat) (url : string)
| TabsRemove (tabId : nat)
| ExecuteScript (tabId : nat)
| TabsSendMessage (tabId : nat) (payload : Automator.RunPayload)
| ResolvePlaylistScrape (tabId : nat)
| ResolveRaidTargets (tabId : nat).

(** A message arriving on [chrome.runtime.onMessage]. *)
Inductive RuntimeMsg :=
| VideoWorkerResult (ok : bool) (reason : option string)
| OtherMessage.

(** What the browser does to the service worker. *)
Inductive Event :=
| ApplyPlaylistsToVideos (payload : option Payload)
| ClearPlaylistsFromVideos (videoUrls : option (list string))
| TabCreated (tab : option nat)
| TabUpdated (tabId : nat) (complete : bool)
| ScriptInjected (tabId : nat) (lastError : bool)
| TimerFired (t : positive)
| WorkerMessage (senderTab : option nat) (msg : RuntimeMsg)
| TabRemoved (tabId : nat)
| Tick (ms : Z).

Inductive TabStatus := TabOpen | TabClosing | TabGone.

(** The registries that the [tabs.onRemoved] listener cleans: pending
    tasks keyed by an id and holding a tab id, resolvers keyed by tab
    id, the legacy bulk tab, and the last-applied trackers. *)
Record Registries := {
  pendingScrapes : list (string * option nat);
  pendingRaidCommands : list (string * option nat);
  pendingPlaylistUpdates : list (string * option nat);
  playlistScrapeResolvers : list nat;
  raidTargetResolvers : list nat;
  currentBulkTabId : option nat;
  pendingBulkJobs : list string;
  bulkScriptInjected : bool;
  lastAppliedStreamer : list nat;
  lastAppliedGamify : list nat
}.

(** The service worker together with the part of the browser it talks
    to: the module variable [job], its listeners, the armed timers with
    their deadlines, the callbacks the browser still owes, the tabs, the
    clock (in milliseconds) and the log of effects, oldest first. *)
Record State := {
  job : option Job;
  onUpdatedAdded : bool;
  workerListeners : nat;
  timers : list (positive * Z);
  timerSeq : positive;
  creating : nat;
  injecting : list nat;
  tabs : gmap nat TabStatus;
  now : Z;
  log : list (Z * Effect);
  registries : Registries
}.

Definition no_registries : Registries :=
  {| pendingScrapes := []; pendingRaidCommands := [];
     pendingPlaylistUpdates := []; playlistScrapeResolvers := [];
     raidTargetResolvers := []; currentBulkTabId := None;
     pendingBulkJobs := []; bulkScriptInjected := false;
     lastAppliedStreamer := []; lastAppliedGamify := [] |}.

(** A freshly loaded service worker. *)
Definition init : State :=
  {| job := None; onUpdatedAdded := false; workerListeners := 0;
     timers := []; timerSeq := 1%positive; creating := 0; injecting := [];
     tabs := ∅; now := 0%Z; log := []; registries := no_registries |}.

(** *** Field updates *)

Definition set_job (j : option Job) (s : State) : State :=
  {| job := j; onUpdatedAdded := onUpdatedAdded s;
     workerListeners := workerListeners s; timers := timers s;
     timerSeq := timerSeq s; creating := creating s;
     injecting := injecting s; tabs := tabs s; now := now s;
     log := log s; registries := registries s |}.

Definition set_listeners (u : bool) (w : nat) (s : State) : State :=
  {| job := job s; onUpdatedAdded := u; workerListeners := w;
     timers := timers s; timerSeq := timerSeq s; creating := creating s;
     injecting := injecting s; tabs := tabs s; now := now s;
     log := log s; registries := registries s |}.

Definition set_timers (ts : list (positive * Z)) (n : positive) (s : State)
    : State :=
  {| job := job s; onUpdatedAdded := onUpdatedAdded s;
     workerListeners := workerListeners s; timers := ts; timerSeq := n;
     creating := creating s; injecting := injecting s; tabs := tabs s;
     now := now s; log := log s; registries := registries s |}.

Definition set_pending (c : nat) (i : list nat) (s : State) : State :=
  {| job := job s; onUpdatedAdded := onUpdatedAdded s;
     workerListeners := workerListeners s; timers := timers s;
     timerSeq := timerSeq s; creating := c; injecting := i; tabs := tabs s;
     now := now s; log := log s; registries := registries s |}.

Definition set_tabs (t : gmap nat TabStatus) (s : State) : State :=
  {| job := job s; onUpdatedAdded := onUpdatedAdded s;
     workerListeners := workerListeners s; timers := timers s;
     timerSeq := timerSeq s; creating := creating s;
     injecting := injecting s; tabs := t; now := now s;
     log := log s; registries := registries s |}.

Definition set_now (t : Z) (s : State) : State :=
  {| job := job s; onUpdatedAdded := onUpdatedAdded s;
     workerListeners := workerListeners s; timers := timers s;
     timerSeq := timerSeq s; creating := creating s;
     injecting := injecting s; tabs := tabs s; now := t;
     log := log s; registries := registries s |}.

Definition set_registries (r : Registries) (s : State) : State :=
  {| job := job s; onUpdatedAdded := onUpdatedAdded s;
     workerListeners := workerListeners s; timers := timers s;
     timerSeq := timerSeq s; creating := creating s;
     injecting := injecting s; tabs := tabs s; now := now s;
     log := log s; registries := r |}.

(** Append an effect to the log, stamped with the current time. *)
Definition emit (e : Effect) (s : State) : State :=
  {| job := job s; onUpdatedAdded := onUpdatedAdded s;
     workerListeners := workerListeners s; timers := timers s;
     timerSeq := timerSeq s; creating := creating s;
     injecting := injecting s; tabs := tabs s; now := now s;
     log := log s ++ [(now s, e)]; registries := registries s |}.

Definition with_progress (d : nat) (t : option positive) (j : Job) : Job :=
  {| playlistIds := playlistIds j; playlistNames := playlistNames j;
     clearAll := clearAll j; perVideoTimeoutMs := perVideoTimeoutMs j;
     queue := queue j; total := total j; done := d;
     currentUrl := currentUrl j; tabId := tabId j;
     debugKeepTab := debugKeepTab j; videoTimer := t;
     onWorkerMsg := onWorkerMsg j |}.

Definition with_target (q : list string) (u : option string) (j : Job) : Job :=
  {| playlistIds := playlistIds j; playlistNames := playlistNames j;
     clearAll := clearAll j; perVideoTimeoutMs := perVideoTimeoutMs j;
     queue := q; total := total j; done := done j;
     currentUrl := u; tabId := tabId j;
     debugKeepTab := debugKeepTab j; videoTimer := videoTimer j;
     onWorkerMsg := onWorkerMsg j |}.

Definition with_tab (t : option nat) (h : bool) (j : Job) : Job :=
  {| playlistIds := playlistIds j; playlistNames := playlistNames j;
     clearAll := clearAll j; perVideoTimeoutMs := perVideoTimeoutMs j;
     queue := queue j; total := total j; done := done j;
     currentUrl := currentUrl j; tabId := t;
     debugKeepTab := debugKeepTab j; videoTimer := videoTimer j;
     onWorkerMsg := h |}.

(** *** Timers and tabs *)

(** The delay [setTimeout] uses: its argument as a 32-bit signed
    integer, and never less than zero. *)
Definition to_int32 (d : Z) : Z := ((d + 2147483648) mod 4294967296 - 2147483648)%Z.

Definition timer_delay (d : Z) : Z := Z.max 0 (to_int32 d).

(** [clearTimeout(t)] *)
Definition clearTimeout (t : positive) (s : State) : State :=
  set_timers (filter (fun e => e.1 ≠ t) (timers s)) (timerSeq s) s.

(** [if (timer) clearTimeout(timer)] *)
Definition clearTimer (timer : option positive) (s : State) : State :=
  set_timers (match timer with
              | Some t => filter (fun e => e.1 ≠ t) (timers s)
              | None => timers s
              end) (timerSeq s) s.

(** [setTimeout(cb, d)]: the new timer's id and the state in which it
    is armed. *)
Definition setTimeout (d : Z) (s : State) : positive * State :=
  (timerSeq s,
   set_timers (timers s ++ [(timerSeq s, (now s + timer_delay d)%Z)])
              (Pos.succ (timerSeq s)) s).

(** [chrome.tabs.remove(t)]: an open tab starts closing. *)
Definition tabs_remove (t : nat) (s : State) : State :=
  emit (TabsRemove t)
       (set_tabs (match tabs s !! t with
                  | Some TabOpen => <[t := TabClosing]> (tabs s)
                  | _ => tabs s
                  end) s).

(** The browser takes note of a tab the first time it shows up. *)
Definition see_tab (tab : option nat) (s : State) : State :=
  set_tabs (match tab with
            | Some t =>
                match tabs s !! t with
                | None => <[t := TabOpen]> (tabs s)
                | Some _ => tabs s
                end
            | None => tabs s
            end) s.

(** *** The job runner *)

(** [cleanup()] *)
Definition cleanup (s : State) : State :=
  match job s with
  | None => s
  | Some j =>
      let s1 :=
        match tabId j with
        | Some (S _ as t) => if debugKeepTab j then s else tabs_remove t s
        | _ => s
        end in
      let s2 :=
        set_listeners false
          (if onWorkerMsg j then pred (workerListeners s1) else workerListeners s1)
          s1 in
      set_job None (clearTimer (videoTimer j) s2)
  end.

(** What [cleanup] leaves in the log: the removal of the job's tab. *)
Definition removal (s : State) : list Effect :=
  match job s with
  | Some j =>
      match tabId j with
      | Some (S _ as t) => if debugKeepTab j then [] else [TabsRemove t]
      | _ => []
      end
  | None => []
  end.

(** [job.currentUrl || null] *)
Definition url_or_null (u : option string) : option string :=
  match u with
  | Some x => if is_empty x then None else Some x
  | None => None
  end.

(** [sendProgress(note)], for the job [j] that [job] holds. *)
Definition sendProgress (note : string) (j : Job) (s : State) : State :=
  emit (SendMessage (Progress (done j) (total j) (url_or_null (currentUrl j)) note)) s.

(** [next()] *)
Definition next (s : State) : State :=
  match job s with
  | None => s
  | Some j =>
      let s1 := clearTimer (videoTimer j) s in
      let j1 := with_progress (done j) None j in
      match queue j1 with
      | [] =>
          cleanup
            (emit (SendMessage (Complete (done j1) (total j1) "All videos processed."))
                  (set_job (Some j1) s1))
      | u :: rest =>
          let j2 := with_target rest (Some u) j1 in
          emit (TabsUpdate (tabId j2) u) (set_job (Some j2) s1)
      end
  end.

(** [job.done += 1; sendProgress(note); next();], the tail shared by
    every way a target ends.  With no job the first statement throws
    and nothing happens. *)
Definition finish_target (note : string) (s : State) : State :=
  match job s with
  | None => s
  | Some j =>
      let j1 := with_progress (S (done j)) (videoTimer j) j in
      next (sendProgress note j1 (set_job (Some j1) s))
  end.

(** [onUpdated(tabId, changeInfo, tab)], up to the call of
    [chrome.scripting.executeScript], whose callback the browser owes
    from then on. *)
Definition onUpdated (t : nat) (complete : bool) (s : State) : State :=
  match job s with
  | None => s
  | Some j =>
      if bool_decide (tabId j = Some t) && complete
      then emit (ExecuteScript t)
                (set_pending (creating s) (injecting s ++ [t]) s)
      else s
  end.

(** The payload of the [videoWorkerRun] message. *)
Definition run_payload (j : Job) : Automator.RunPayload :=
  {| Automator.playlistIds := playlistIds j;
     Automator.playlistNames := playlistNames j;
     Automator.clearAll := clearAll j |}.

(** The callback of [executeScript] inside [onUpdated]. *)
Definition onInjected (t : nat) (lastError : bool) (s : State) : State :=
  if lastError then finish_target "Inject failed; skipping." s
  else
    match job s with
    | None => s
    | Some j =>
        let '(timer, s1) := setTimeout (perVideoTimeoutMs j) s in
        let j1 := with_progress (done j) (Some timer) j in
        emit (TabsSendMessage t (run_payload j1)) (set_job (Some j1) s1)
    end.

(** The callback of the timer armed in [onInjected]. *)
Definition onTimeout (s : State) : State :=
  finish_target "Timeout; skipping." s.

(** The note of a worker result:
    [msg.ok ? (job.clearAll ? 'Cleared' : 'Updated')
            : ('Skipped: ' + (msg.reason || 'unknown'))] *)
Definition result_note (j : Job) (ok : bool) (reason : option string) : string :=
  if ok then (if clearAll j then "Cleared" else "Updated")
  else "Skipped: " +:+ or_default reason "unknown".

(** [job.onWorkerMsg], the handler [start] registers on
    [chrome.runtime.onMessage]. *)
Definition workerHandler (sender : option nat) (msg : RuntimeMsg) (s : State)
    : State :=
  match job s with
  | None => s
  | Some j =>
      match sender with
      | Some t =>
          if bool_decide (tabId j = Some t) then
            match msg with
            | VideoWorkerResult ok reason =>
                let s1 := clearTimer (videoTimer j) s in
                let j1 := with_progress (done j) None j in
                finish_target (result_note j1 ok reason) (set_job (Some j1) s1)
            | OtherMessage => s
            end
          else s
      | None => s
      end
  end.

(** The callback of [chrome.tabs.create] inside [start]. *)
Definition onCreated (tab : option nat) (s : State) : State :=
  match tab with
  | Some (S _ as t) =>
      match job s with
      | None => s
      | Some j =>
          let j1 := with_tab (Some t) true j in
          let j2 := with_target (tail (queue j1)) (head (queue j1)) j1 in
          set_job (Some j2) (set_listeners true (S (workerListeners s)) s)
      end
  | _ =>
      match job s with
      | None => s
      | Some j =>
          cleanup
            (emit (SendMessage (Complete 0 (total j) "Failed to create hidden tab.")) s)
      end
  end.

(** [start(payload)] *)
Definition start (payload : Payload) (s : State) : State :=
  let s0 := cleanup s in
  let playlistIds := default [] (p_playlistIds payload) in
  let playlistNames := default [] (p_playlistNames payload) in
  let videoUrls := default [] (p_videoUrls payload) in
  let debugKeepTab := default false (p_debugKeepTab payload) in
  let clearAll := default false (p_clearAll payload) in
  let perVideoTimeoutMs := default 30000%Z (p_perVideoTimeoutMs payload) in
  let abs := stripParams <$> (toAbs <$> videoUrls) in
  let unique := uniq abs in
  match unique with
  | [] => emit (SendMessage (Error "Missing videos or playlists.")) s0
  | first :: _ =>
      if negb clearAll && Automator.is_nil playlistIds
         && Automator.is_nil playlistNames
      then emit (SendMessage (Error "Missing videos or playlists.")) s0
      else
        let j :=
          {| playlistIds := playlistIds; playlistNames := playlistNames;
             clearAll := clearAll; perVideoTimeoutMs := perVideoTimeoutMs;
             queue := unique; total := length unique; done := 0;
             currentUrl := None; tabId := None; debugKeepTab := debugKeepTab;
             videoTimer := None; onWorkerMsg := false |} in
        let s1 :=
          emit (SendMessage (Started (total j) (if clearAll then "clear" else "set")))
               (set_job (Some j) s0) in
        emit (TabsCreate first) (set_pending (S (creating s1)) (injecting s1) s1)
  end.

(** *** The [tabs.onRemoved] listener *)

(** [const key = Object.keys(obj).find(k => obj[k].tabId === tabId);
    if (key) delete obj[key];] *)
Definition registry_cleanup (t : nat) (obj : list (string * option nat))
    : list (string * option nat) :=
  match list_find (fun kv => kv.2 = Some t) obj with
  | Some (i, (k, _)) => if truthy k then delete i obj else obj
  | None => obj
  end.

(** The listener never mentions [DirectVideoApplyJob]: it cleans the
    registries and answers the waiting resolvers. *)
Definition onRemoved (t : nat) (s : State) : State :=
  let r := registries s in
  let s1 := if bool_decide (t ∈ playlistScrapeResolvers r)
            then emit (ResolvePlaylistScrape t) s else s in
  let s2 := if bool_decide (t ∈ raidTargetResolvers r)
            then emit (ResolveRaidTargets t) s1 else s1 in
  let bulk := bool_decide (currentBulkTabId r = Some t) in
  set_registries
    {| pendingScrapes := registry_cleanup t (pendingScrapes r);
       pendingRaidCommands := registry_cleanup t (pendingRaidCommands r);
       pendingPlaylistUpdates := registry_cleanup t (pendingPlaylistUpdates r);
       playlistScrapeResolvers := filter (fun x => x ≠ t) (playlistScrapeResolvers r);
       raidTargetResolvers := filter (fun x => x ≠ t) (raidTargetResolvers r);
       currentBulkTabId := if bulk then None else currentBulkTabId r;
       pendingBulkJobs := if bulk then [] else pendingBulkJobs r;
       bulkScriptInjected := if bulk then false else bulkScriptInjected r;
       lastAppliedStreamer := filter (fun x => x ≠ t) (lastAppliedStreamer r);
       lastAppliedGamify := filter (fun x => x ≠ t) (lastAppliedGamify r) |}
    s2.

(** *** The event loop *)

(** A tab can act (finish loading, run a content script that sends a
    message) unless it is closing or gone. *)
Definition tab_alive (t : nat) (s : State) : bool :=
  match tabs s !! t with
  | Some TabClosing | Some TabGone => false
  | _ => true
  end.

(** Whether the browser can deliver the event in this state. *)
Definition enabled (e : Event) (s : State) : bool :=
  match e with
  | ApplyPlaylistsToVideos _ | ClearPlaylistsFromVideos _ => true
  | TabCreated (Some t) =>
      Nat.ltb 0 (creating s)
      && match tabs s !! t with None => true | Some _ => false end
  | TabCreated None => Nat.ltb 0 (creating s)
  | TabUpdated t _ => tab_alive t s
  | ScriptInjected t _ => bool_decide (t ∈ injecting s)
  | TimerFired t =>
      existsb (fun e => Pos.eqb e.1 t && Z.leb e.2 (now s)) (timers s)
  | WorkerMessage (Some t) _ => tab_alive t s
  | WorkerMessage None _ => true
  | TabRemoved t =>
      match tabs s !! t with Some TabGone => false | _ => true end
  | Tick ms => bool_decide (0 <= ms)%Z
  end.

(** Remove the first occurrence of [t]. *)
Fixpoint remove_first (t : nat) (l : list nat) : list nat :=
  match l with
  | [] => []
  | x :: r => if bool_decide (x = t) then r else x :: remove_first t r
  end.

(** One turn of the event loop: the browser's side of the event, then
    the listeners and callbacks it runs.  An event that cannot happen
    leaves the state as it is. *)
Definition handle (e : Event) (s : State) : State :=
  if negb (enabled e s) then s
  else
    match e with
    | ApplyPlaylistsToVideos payload =>
        start (default empty_payload payload) s
    | ClearPlaylistsFromVideos videoUrls =>
        start {| p_playlistIds := None; p_playlistNames := None;
                 p_videoUrls := Some (default [] videoUrls);
                 p_debugKeepTab := None; p_clearAll := Some true;
                 p_perVideoTimeoutMs := Some 30000%Z |} s
    | TabCreated tab =>
        onCreated tab
          (see_tab tab (set_pending (pred (creating s)) (injecting s) s))
    | TabUpdated t complete =>
        let s1 := see_tab (Some t) s in
        if onUpdatedAdded s1 then onUpdated t complete s1 else s1
    | ScriptInjected t lastError =>
        onInjected t lastError
          (set_pending (creating s) (remove_first t (injecting s)) s)
    | TimerFired t =>
        onTimeout (clearTimeout t s)
    | WorkerMessage sender msg =>
        let s1 := see_tab sender s in
        Nat.iter (workerListeners s1) (workerHandler sender msg) s1
    | TabRemoved t =>
        onRemoved t (set_tabs (<[t := TabGone]> (tabs s)) s)
    | Tick ms => set_now (now s + ms)%Z s
    end.

(** The state after a sequence of events. *)
Definition run (evs : list Event) (s : State) : State :=
  foldl (fun st e => handle e st) s evs.

(** *** Reading the log *)

Definition messages (s : State) : list Message :=
  omap (fun e => match e.2 with SendMessage m => Some m | _ => None end) (log s).

Definition progress_dones (ms : list Message) : list nat :=
  omap (fun m => match m with Progress d _ _ _ => Some d | _ => None end) ms.

Definition progress_urls (ms : list Message) : list (option string) :=
  omap (fun m => match m with Progress _ _ u _ => Some u | _ => None end) ms.

Definition is_complete (m : Message) : bool :=
  match m with Complete _ _ _ => true | _ => false end.

Definition is_started (m : Message) : bool :=
  match m with Started _ _ => true | _ => false end.

Definition is_error (m : Message) : bool :=
  match m with Error _ => true | _ => false end.

Definition is_progress (m : Message) : bool :=
  match m with Progress _ _ _ _ => true | _ => false end.

Definition count_msgs (f : Message -> bool) (s : State) : nat :=
  length (filter (fun m => Is_true (f m)) (messages s)).

(** *** Runs of one job *)

(** The messages that make the service worker call [start]. *)
Definition is_request (e : Event) : bool :=
  match e with
  | ApplyPlaylistsToVideos _ | ClearPlaylistsFromVideos _ => true
  | _ => false
  end.

Definition no_request (evs : list Event) : bool :=
  forallb (fun e => negb (is_request e)) evs.

(** [unique] in [start]: the normalized, deduplicated targets. *)
Definition targets (p : Payload) : list string :=
  uniq (stripParams <$> (toAbs <$> default [] (p_videoUrls p))).

(** [!clearAll && !playlistIds.length && !playlistNames.length] *)
Definition lacks_playlists (p : Payload) : bool :=
  negb (default false (p_clearAll p))
  && Automator.is_nil (default [] (p_playlistIds p))
  && Automator.is_nil (default [] (p_playlistNames p)).

(** The guard of [start]. *)
Definition rejected (p : Payload) : bool :=
  Automator.is_nil (targets p) || lacks_playlists p.

Definition mode_of (p : Payload) : string :=
  if default false (p_clearAll p) then "clear" else "set".

(** The job object that an accepted [start] builds. *)
Definition new_job (p : Payload) : Job :=
  {| playlistIds := default [] (p_playlistIds p);
     playlistNames := default [] (p_playlistNames p);
     clearAll := default false (p_clearAll p);
     perVideoTimeoutMs := default 30000%Z (p_perVideoTimeoutMs p);
     queue := targets p; total := length (targets p); done := 0;
     currentUrl := None; tabId := None;
     debugKeepTab := default false (p_debugKeepTab p);
     videoTimer := None; onWorkerMsg := false |}.

(** The effects that show a job's life: its progress events and what it
    does to tabs.  Script injections and messages to the worker are
    left out. *)
Definition is_lifecycle (e : Effect) : bool :=
  match e with
  | SendMessage _ | TabsCreate _ | TabsUpdate _ _ | TabsRemove _ => true
  | _ => false
  end.

Definition lifecycle (s : State) : list Effect :=
  filter (fun e => Is_true (is_lifecycle e)) (snd <$> log s).

(** What the end of the target at index [i] adds to the life of a job
    over the targets [U] in tab [t]: its progress event, then either the
    navigation of the same tab to the next target or, after the last
    one, the completion event and the removal of the tab (unless
    [keep], the job's [debugKeepTab]). *)
Definition round (U : list string) (t : nat) (keep : bool)
    (i : nat) (note : string) : list Effect :=
  SendMessage (Progress (S i) (length U) (url_or_null (U !! i)) note)
  :: match U !! S i with
     | Some u => [TabsUpdate (Some t) u]
     | None =>
         SendMessage (Complete (S i) (length U) "All videos processed.")
         :: (if keep then [] else [TabsRemove t])
     end.

Definition rounds (U : list string) (t : nat) (keep : bool)
    (notes : list string) : list Effect :=
  concat (imap (round U t keep) notes).

(** How every job begins. *)
Definition opening (p : Payload) : list Effect :=
  [SendMessage (Started (length (targets p)) (mode_of p));
   TabsCreate (default "" (head (targets p)))].

(** A service worker with no job, nothing armed and no callback owed:
    freshly loaded, or back to rest after a job. *)
Definition idle (s : State) : Prop :=
  job s = None ∧ creating s = 0 ∧ timers s = [] ∧ injecting s = []
  ∧ workerListeners s = 0.

(** What was sent, and what was done, since the state [s0]. *)
Definition messages_since (s0 s : State) : list Message :=
  drop (length (messages s0)) (messages s).

Definition lifecycle_since (s0 s : State) : list Effect :=
  drop (length (lifecycle s0)) (lifecycle s).

Definition count_since (f : Message -> bool) (s0 s : State) : nat :=
  length (filter (fun m => Is_true (f m)) (messages_since s0 s)).

(** The three phases of a job, read off the state: waiting for the
    hidden tab, working on the target at index [length notes] in tab
    [t], and over.  [pre] is the life of the service worker up to and
    including the opening of the job. *)
Definition awaiting (p : Payload) (pre : list Effect) (s : State) : Prop :=
  job s = Some (new_job p) ∧ creating s = 1 ∧ timers s = []
  ∧ injecting s = [] ∧ workerListeners s = 0
  ∧ lifecycle s = pre.

Definition running (p : Payload) (pre : list Effect) (s : State) : Prop :=
  ∃ (t : nat) (notes : list string) (j : Job),
    job s = Some j ∧ creating s = 0 ∧ t ≠ 0 ∧ tabId j = Some t
    ∧ debugKeepTab j = debugKeepTab (new_job p)
    ∧ total j = length (targets p) ∧ done j = length notes
    ∧ length notes < length (targets p)
    ∧ currentUrl j = targets p !! length notes
    ∧ queue j = drop (S (length notes)) (targets p)
    ∧ lifecycle s
      = pre ++ rounds (targets p) t (debugKeepTab (new_job p)) notes.

Definition finished (p : Payload) (pre : list Effect) (s : State) : Prop :=
  job s = None ∧ creating s = 0
  ∧ ((∃ (t : nat) (notes : list string),
        t ≠ 0 ∧ length notes = length (targets p)
        ∧ lifecycle s
          = pre ++ rounds (targets p) t (debugKeepTab (new_job p)) notes)
     ∨ lifecycle s
       = pre
         ++ [SendMessage (Complete 0 (length (targets p))
                                   "Failed to create hidden tab.")]).

Definition job_inv (p : Payload) (pre : list Effect) (s : State) : Prop :=
  awaiting p pre s ∨ running p pre s ∨ finished p pre s.

(** *** What the specification says, in terms of the log *)

Definition message_of (e : Effect) : option Message :=
  match e with SendMessage m => Some m | _ => None end.

(** The progress events of the first [length notes] targets of [U]. *)
Definition progress_events (U : list string) (notes : list string)
    : list Message :=
  imap (fun i note => Progress (S i) (length U) (url_or_null (U !! i)) note) notes.

(** The messages that a job started in the state [s0] has sent have one
    of three shapes. *)
Inductive Shape (p : Payload) (s0 s : State) : Prop :=
| ShapeAlive (notes : list string) (j : Job) :
    job s = Some j → done j = length notes → total j = length (targets p) →
    length notes < length (targets p) →
    (tabId j = None → notes = [] ∧ queue j = targets p) →
    (tabId j ≠ None →
     currentUrl j = targets p !! length notes
     ∧ queue j = drop (S (length notes)) (targets p)) →
    messages_since s0 s
    = Started (length (targets p)) (mode_of p)
      :: progress_events (targets p) notes →
    Shape p s0 s
| ShapeDone (notes : list string) :
    job s = None → length notes = length (targets p) →
    messages_since s0 s
    = Started (length (targets p)) (mode_of p)
      :: progress_events (targets p) notes
      ++ [Complete (length (targets p)) (length (targets p))
            "All videos processed."] →
    Shape p s0 s
| ShapeFailed :
    job s = None →
    messages_since s0 s
    = [Started (length (targets p)) (mode_of p);
       Complete 0 (length (targets p)) "Failed to create hidden tab."] →
    Shape p s0 s.



(** Whether the browser can deliver the events one after the other. *)
Fixpoint all_enabled (evs : list Event) (s : State) : bool :=
  match evs with
  | [] => true
  | e :: r => enabled e s && all_enabled r (handle e s)
  end.

(** The time at which the completion event was sent. *)
Definition complete_time (s : State) : option Z :=
  head (omap (fun e => match e.2 with
                       | SendMessage (Complete _ _ _) => Some e.1
                       | _ => None
                       end) (log s)).


(** A job that waits on a tab that is gone, with no timer armed and no
    callback owed. *)
Definition stalled (t : nat) (s : State) : Prop :=
  ∃ j, job s = Some j ∧ tabId j = Some t ∧ tabs s !! t = Some TabGone
    ∧ timers s = [] ∧ injecting s = [] ∧ creating s = 0.

(** One target of a job whose worker stays silent: the page takes
    [load] milliseconds to finish loading, the script is injected, and
    the timer armed then (the [i]-th of the service worker, counting
    from 0) fires [delay] milliseconds later. *)
Definition silent_round (delay : Z) (t i : nat) (load : Z) : list Event :=
  [Tick load; TabUpdated t true; ScriptInjected t false;
   Tick delay; TimerFired (Pos.of_succ_nat i)].

Fixpoint silent_rounds (delay : Z) (t i : nat) (loads : list Z) : list Event :=
  match loads with
  | [] => []
  | load :: r => silent_round delay t i load ++ silent_rounds delay t (S i) r
  end.

(** What the browser does to a job in tab [t] whose workers never
    answer, with the loading times [loads] of its pages. *)
Definition silent_run (p : Payload) (t : nat) (loads : list Z) : list Event :=
  TabCreated (Some t)
  :: silent_rounds (timer_delay (perVideoTimeoutMs (new_job p))) t 0 loads.

(** A job between two targets of a silent run: [k] targets timed out,
    the tab is loading the next one, nothing is armed or owed. *)
Definition quiet (p : Payload) (t k : nat) (s : State) : Prop :=
  ∃ j, job s = Some j ∧ tabId j = Some t
    ∧ perVideoTimeoutMs j = perVideoTimeoutMs (new_job p)
    ∧ total j = length (targets p) ∧ done j = k
    ∧ currentUrl j = targets p !! k ∧ queue j = drop (S k) (targets p)
    ∧ videoTimer j = None
    ∧ onUpdatedAdded s = true ∧ timers s = [] ∧ injecting s = []
    ∧ timerSeq s = Pos.of_succ_nat k ∧ tab_alive t s = true
    ∧ complete_time s = None
    ∧ messages s
      = Started (length (targets p)) (mode_of p)
        :: progress_events (targets p) (replicate k "Timeout; skipping.").


Definition is_remove (e : Effect) : bool :=
  match e with TabsRemove _ => true | _ => false end.


(** "For every bulk job over N submitted targets, exactly N terminal
    Results are produced", read on a job that is over. *)
Definition one_result_per_submitted (p : Payload) (s : State) : bool :=
  match job s with
  | Some _ => true
  | None =>
      Nat.eqb (count_msgs is_progress s) (length (default [] (p_videoUrls p)))
  end.

(** "The job reaches Complete within total x perTargetTimeout", for a
    service worker loaded at time 0. *)
Definition completes_within_bound (p : Payload) (s : State) : bool :=
  match complete_time s with
  | Some tm =>
      Z.leb tm (Z.of_nat (length (targets p))
                * default 30000%Z (p_perVideoTimeoutMs p))
  | None => false
  end.

(** "The sequence of done values starts at 1 and ends at total", read
    on the events sent: whenever a completion event with the total [n]
    is among them, the [done] values of the progress events are
    [1, 2, ..., n]. *)
Definition progress_reaches_total (s : State) : bool :=
  forallb (fun m => match m with
                    | Complete _ n _ =>
                        bool_decide (progress_dones (messages s) = seq 1 n)
                    | _ => true
                    end) (messages s).

(** The worker-message listeners of a service worker that took its job
    at rest: one while the job has its tab, none before and after. *)
Definition listening (s : State) : Prop :=
  match job s with
  | Some j =>
      match tabId j with
      | Some _ => workerListeners s = 1 ∧ onWorkerMsg j = true
      | None => workerListeners s = 0 ∧ onWorkerMsg j = false
      end
  | None => workerListeners s = 0
  end.

(** A job that waits for the page in its tab [t] to finish loading:
    no timer is armed and no callback is owed. *)
Definition loading (t : nat) (s : State) : Prop :=
  ∃ j, job s = Some j ∧ tabId j = Some t
    ∧ timers s = [] ∧ injecting s = [] ∧ creating s = 0.

(** What can happen while the page in tab [t] does not finish loading:
    anything but a new request, the report that the page of [t] is
    complete, and a worker result from [t], where no worker runs. *)
Definition still_loading (t : nat) (e : Event) : bool :=
  match e with
  | ApplyPlaylistsToVideos _ | ClearPlaylistsFromVideos _ => false
  | TabUpdated t' complete => negb (Nat.eqb t' t && complete)
  | WorkerMessage (Some t') (VideoWorkerResult _ _) => negb (Nat.eqb t' t)
  | _ => true
  end.

End Job.

(** *** A parser to run the model with

    [plain_url] reads plain [http(s)] URLs (no credentials, port, dot
    segments, white space or characters to escape; the scheme and the
    host in any case, which it lowers as the platform does) and, given
    such a URL as a base, references that begin with one slash (a path)
    or with two (a host and a path, on the scheme of the base); it is
    the platform's parser cut down to these inputs.  The facts below
    hold for every parser; this one serves to run the model on concrete
    requests. *)

(** The part of [s] before the first character satisfying [stop], and
    the rest from that character on. *)
Fixpoint break_at (stop : ascii -> bool) (s : string) : string * string :=
  match s with
  | EmptyString => (EmptyString, EmptyString)
  | String c r =>
      if stop c then (EmptyString, s)
      else let '(a, b) := break_at stop r in (String c a, b)
  end.

Definition is_one_of (cs : list ascii) (c : ascii) : bool :=
  existsb (Ascii.eqb c) cs.

Definition parse_after_scheme (scheme rest : string) : option URL :=
  let '(host, r1) := break_at (is_one_of ["/"; "?"; "#"]%char) rest in
  if is_empty host then None
  else
    let '(path, r2) := break_at (is_one_of ["?"; "#"]%char) r1 in
    let '(query, r3) :=
      match r2 with
      | String "?" q => let '(a, b) := break_at (is_one_of ["#"%char]) q in (Some a, b)
      | _ => (None, r2)
      end in
    let fragment := match r3 with String "#" f => Some f | _ => None end in
    Some {| site := scheme +:+ toLowerCase host;
            pathname := if is_empty path then "/" else path;
            search := query; hash := fragment |}.

(** The scheme of an [http(s)] URL, as the serializer prints it. *)
Definition scheme_of (u : string) : option string :=
  if String.prefix "https://" (toLowerCase (String.substring 0 8 u))
  then Some "https://"
  else if String.prefix "http://" (toLowerCase (String.substring 0 7 u))
  then Some "http://"
  else None.

Definition parse_absolute (u : string) : option URL :=
  match scheme_of u with
  | Some scheme =>
      let n := String.length scheme in
      parse_after_scheme scheme (String.substring n (String.length u - n) u)
  | None => None
  end.

Definition plain_url : UrlApi :=
  fun u base =>
    match parse_absolute u with
    | Some x => Some x
    | None =>
        match base with
        | Some b =>
            match scheme_of b, parse_absolute b, u with
            | Some scheme, Some _, String "/" (String "/" r) =>
                parse_after_scheme scheme r
            | Some _, Some bx, String "/" _ => parse_absolute (site bx +:+ u)
            | _, _, _ => None
            end
        | None => None
        end
    end.

End Background.

(** * Concrete requests, pages and browser behaviours *)

Module WorkerInputs.
Import JsString Automator.

(** The playlist directory of the example: one playlist, titled
    "My Favorites", with id "pl_1". *)
Definition favorites : option (list Playlist) :=
  Some [ {| title := Some "My Favorites"; id := Some "pl_1";
            playlist_id := None; slug := None |} ].

(** An overlay with one playlist, which the video is not in. *)
Definition one_unchecked : Overlay :=
  {| container :=
       Some {| items := [ {| item_id := "pl_1"; nameRaw := "My Favorites";
                             cb := fun _ => false |} ];
               checks := [fun _ => false] |};
     anyOn := false |}.

(** A page whose overlay opens and closes in time. *)
Definition page_confirmed : Page :=
  {| stored := None; opened := inr one_unchecked; closed := true;
     reopened := Some (inr one_unchecked) |}.

(** A page whose overlay opens and does not close in time. *)
Definition page_unconfirmed : Page :=
  {| stored := None; opened := inr one_unchecked; closed := false;
     reopened := Some (inr one_unchecked) |}.

Definition clear_request : RunPayload :=
  {| playlistIds := []; playlistNames := []; clearAll := true |}.

Definition set_other : RunPayload :=
  {| playlistIds := []; playlistNames := ["Other"]; clearAll := false |}.

End WorkerInputs.

Module JobInputs.
Import JsString Background.

#[local] Existing Instance plain_url.

Definition v1 : string := "https://x/v1".
Definition v2 : string := "https://x/v2".
Definition v3 : string := "https://x/v3".

Definition request (names : list string) (urls : list string)
    (clear : bool) (timeout : Z) : Payload :=
  {| p_playlistIds := None; p_playlistNames := Some names;
     p_videoUrls := Some urls; p_debugKeepTab := None;
     p_clearAll := Some clear; p_perVideoTimeoutMs := Some timeout |}.

(** The worker in tab 7 answers [ok]. *)
Definition answer_ok : Event := WorkerMessage (Some 7) (VideoWorkerResult true None).

(** A page of tab 7 finishes loading and the script is injected. *)
Definition page_ready : list Event := [TabUpdated 7 true; ScriptInjected 7 false].

(** A Clear job over three targets whose second worker never answers
    within the timeout of 1000 ms. *)
Definition clear3 : Payload := request [] [v1; v2; v3] true 1000.


(** A Set job over two targets. *)
Definition set2 : Payload := request ["Faves"] [v1; v2] false 30000.

(** The same URL submitted twice. *)
Definition twice : Payload := request ["Faves"] [v1; v1] false 30000.

Definition both_answer : list Event :=
  [TabCreated (Some 7)] ++ page_ready ++ [answer_ok] ++ page_ready ++ [answer_ok].

(** A Clear job over one target with a timeout of 1000 ms, whose page
    takes 5000 ms to load and whose worker never answers. *)
Definition slow1 : Payload := request [] [v1] true 1000.

(** A Set request without playlists is rejected. *)
Definition no_playlists : Payload := request [] [v1] false 30000.

(** The same browser behaviours in a tab [t] of one's choice. *)
Definition answer_ok_in (t : nat) : Event :=
  WorkerMessage (Some t) (VideoWorkerResult true None).

Definition page_ready_in (t : nat) : list Event :=
  [TabUpdated t true; ScriptInjected t false].


(** Three targets in tab [t] that end in the three ways there are: the
    first worker answers, the second stays silent until the timer [tm]
    fires, and the script cannot be injected into the third page. *)
Definition three_endings (t : nat) (tm : positive) : list Event :=
  [TabCreated (Some t)]
  ++ page_ready_in t ++ [answer_ok_in t]
  ++ page_ready_in t ++ [Tick 1000; TimerFired tm]
  ++ [TabUpdated t true; ScriptInjected t true].

(** Five submitted URLs that are two videos: with a query string and a
    fragment, with a trailing slash, relative to the site, and plain. *)
Definition messy : Payload :=
  request ["Faves"]
    ["https://x/v1?utm=1#t"; "https://x/v1/"; "/v2"; "https://x/v1";
     "https://rumble.com/v2#top"]
    false 30000.

(** Two requests in a row, the second one before the browser has
    called back with the tab of the first; both tabs then arrive, the
    page in the second tab loads and its worker answers, once. *)
Definition restart_race : list Event :=
  [ApplyPlaylistsToVideos (Some set2);
   ClearPlaylistsFromVideos (Some [v1; v2; v3]);
   TabCreated (Some 7); TabCreated (Some 8)]
  ++ page_ready_in 8 ++ [answer_ok_in 8].

(** One hour, in milliseconds. *)
Definition one_hour : Z := 3600000.

End JobInputs.

(** ** Reading strings: the patterns of the service worker and the page worker *)

Module JsText.
Import JsString.

(** Whether the last character of [s] is a slash. *)
Fixpoint ends_with_slash (s : string) : bool :=
  match s with
  | EmptyString => false
  | String c r => if is_empty r then Ascii.eqb c "/" else ends_with_slash r
  end.

(** Whether every character of [s] is white space. *)
Fixpoint all_ws (s : string) : bool :=
  match s with
  | EmptyString => true
  | String c r => is_ws c && all_ws r
  end.

Definition in_range (lo hi : nat) (c : ascii) : bool :=
  Nat.leb lo (nat_of_ascii c) && Nat.leb (nat_of_ascii c) hi.

(** [[a-zA-Z0-9]] *)
Definition is_alnum (c : ascii) : bool :=
  in_range 97 122 c || in_range 65 90 c || in_range 48 57 c.

(** [\w]: [[A-Za-z0-9_]] *)
Definition is_word (c : ascii) : bool := is_alnum c || Ascii.eqb c "_".

(** The line terminators below 128, which [.] does not match. *)
Definition is_line_terminator (c : ascii) : bool :=
  Nat.eqb (nat_of_ascii c) 10 || Nat.eqb (nat_of_ascii c) 13.

Fixpoint all_chars (p : ascii -> bool) (s : string) : bool :=
  match s with
  | EmptyString => true
  | String c r => p c && all_chars p r
  end.

(** The longest prefix of [s] whose characters satisfy [p], and what
    follows it. *)
Fixpoint span (p : ascii -> bool) (s : string) : string * string :=
  match s with
  | EmptyString => (EmptyString, EmptyString)
  | String c r =>
      if p c then let '(a, b) := span p r in (String c a, b)
      else (EmptyString, s)
  end.

(** [s.slice(n)] *)
Fixpoint drop_chars (n : nat) (s : string) : string :=
  match n, s with
  | 0, _ => s
  | S k, String _ r => drop_chars k r
  | S _, EmptyString => EmptyString
  end.

(** [s.slice(0, n)] *)
Fixpoint take_chars (n : nat) (s : string) : string :=
  match n, s with
  | S k, String c r => String c (take_chars k r)
  | _, _ => EmptyString
  end.

(** [/pat/.test(s)] for a pattern of plain characters: [pat] occurs
    somewhere in [s]. *)
Fixpoint contains (pat s : string) : bool :=
  String.prefix pat s
  || match s with
     | EmptyString => false
     | String _ r => contains pat r
     end.

(** [s.replace(/^pat/, '')] for a pattern of plain characters. *)
Definition strip_prefix (pat s : string) : string :=
  if String.prefix pat s then drop_chars (String.length pat) s else s.

(** [s.replace(/pat$/, '')] for a pattern of plain characters. *)
Fixpoint strip_suffix (pat s : string) : string :=
  if String.eqb s pat then EmptyString
  else match s with
       | EmptyString => EmptyString
       | String c r => String c (strip_suffix pat r)
       end.

End JsText.

(** ** The vocabulary of the progress events *)

Module JobReading.
Import JsString Background.

(** The notes that a progress event of [DirectVideoApplyJob] can
    carry. *)
Definition known_note (note : string) : bool :=
  String.eqb note "Inject failed; skipping."
  || String.eqb note "Timeout; skipping."
  || String.eqb note "Cleared"
  || String.eqb note "Updated"
  || String.prefix "Skipped: " note.

Definition known_message (m : Message) : bool :=
  match m with
  | Started _ mode => String.eqb mode "clear" || String.eqb mode "set"
  | Progress _ _ _ note => known_note note
  | Complete _ _ note =>
      String.eqb note "All videos processed."
      || String.eqb note "Failed to create hidden tab."
  | Error message => String.eqb message "Missing videos or playlists."
  end.

(** A step that adds known messages, or none. *)
Definition adds_known (s s' : State) : Prop :=
  ∃ extra, messages s' = messages s ++ extra
    ∧ forallb known_message extra = true.

End JobReading.

(** ** The service worker: who owns the stream *)

Module Ownership.
Import JsString JsText.

(** [String(s || '').trim().replace(/^@/, '').toLowerCase()], for a
    string or a missing value. *)
Definition normalizeHandle (s : option string) : string :=
  toLowerCase (strip_prefix "@" (trim (or_default s ""))).

(** What [getOwnUsername] reads: the [rumbleUsername] of the local
    storage and, when the API is asked, the [username] of its answer
    ([api] is [None] when there is no API key, when the request or the
    reading of its answer fails, or when the derived name cannot be
    stored). *)
Record Account := {
  rumbleUsername : option string;
  api : option (option string)
}.

(** [getOwnUsername()]: its result and the [rumbleUsername] it leaves in
    the storage. *)
Definition getOwnUsername (a : Account) : option string * option string :=
  if truthy (or_default (rumbleUsername a) "")
  then (Some (normalizeHandle (rumbleUsername a)), rumbleUsername a)
  else
    match api a with
    | Some username =>
        let derived := trim (strip_prefix "@" (or_default username "")) in
        if truthy derived
        then (Some (normalizeHandle (Some derived)), Some derived)
        else (None, rumbleUsername a)
    | None => (None, rumbleUsername a)
    end.

(** The script that [detectStreamOwnerInTab] runs in the page: [found]
    holds, for each selector in turn, the text of the element it
    matches ([None] when it matches none); the result is the
    [normalized] field. *)
Fixpoint owner_text (found : list (option string)) : string :=
  match found with
  | [] => ""
  | None :: r => owner_text r
  | Some txt :: r => if truthy txt then txt else owner_text r
  end.

(** [norm] of that script:
    [(s || '').trim().replace(/^@/, '').toLowerCase()] *)
Definition norm (s : option string) : string :=
  toLowerCase (strip_prefix "@" (trim (or_default s ""))).

(** [detectStreamOwnerInTab(tabId)], its [normalized] field; the page
    is [None] when the script cannot be run. *)
Definition detectStreamOwnerInTab (page : option (list (option string)))
    : option string :=
  match page with
  | Some found =>
      let owner := owner_text found in
      if truthy owner then Some (norm (Some owner)) else None
  | None => None
  end.

(** [isTabOwnedByUser(tabId)] *)
Definition isTabOwnedByUser (a : Account) (page : option (list (option string)))
    : bool :=
  match fst (getOwnUsername a) with
  | Some me =>
      if truthy me then
        match detectStreamOwnerInTab page with
        | Some owner => truthy owner && String.eqb owner me
        | None => false
        end
      else false
  | None => false
  end.

(** A handle as a user would write it down: the plain handle [h] (not
    empty, no white space at either end, no leading [@]), with or
    without an [@] in front, and with white space around. *)
Definition plain (h : string) : Prop :=
  h ≠ "" ∧ trimStart h = h ∧ trimEnd h = h ∧ String.prefix "@" h = false.

Definition written (before : string) (at_sign : bool) (h after : string)
    : string :=
  before +:+ (if at_sign then "@" else "") +:+ h +:+ after.

End Ownership.

(** ** The service worker: the link of a livestream *)

Module Livestream.
Import JsString JsText.

(** A field of the livestream object of the API: a string, or any
    other value (a missing field included), of which only the
    truthiness matters. *)
Inductive Value :=
| Str (s : string)
| Other (truthy : bool).

Definition value_truthy (v : Value) : bool :=
  match v with
  | Str s => truthy s
  | Other b => b
  end.

(** [a || b] *)
Definition js_or (a b : Value) : Value := if value_truthy a then a else b.

Record Livestream := {
  url : Value;
  short_url : Value;
  share_url : Value;
  permalink : Value;
  shortcode : Value;
  hash : Value;
  slug : Value;
  id : Value;
  video_id : Value
}.

(** [/^https?:\/\//i.test(u)] *)
Definition is_http (u : string) : bool :=
  String.prefix "http://" (toLowerCase u)
  || String.prefix "https://" (toLowerCase u).

(** [u.match(/\/v([a-zA-Z0-9]+)(?:-|$)/)], its first group: at the
    leftmost place where [/v] is followed by letters and digits and
    then by a hyphen or the end of the string, those letters and
    digits.  (The group is greedy, and a shorter run of letters and
    digits is followed by a letter or a digit, so only the longest run
    can match.) *)
Fixpoint match_video_id (u : string) : option string :=
  match u with
  | EmptyString => None
  | String _ r =>
      let '(run, rest) := span is_alnum (drop_chars 2 u) in
      if String.prefix "/v" u && negb (is_empty run)
         && (is_empty rest || String.prefix "-" rest)
      then Some run
      else match_video_id r
  end.

(** [idish.match(/([a-zA-Z0-9]{5,12})/)], its first group: at the
    leftmost place where five letters or digits follow one another, the
    letters and digits from there, twelve at most. *)
Fixpoint match_code (s : string) : option string :=
  match s with
  | EmptyString => None
  | String _ r =>
      let '(run, _) := span is_alnum s in
      if Nat.leb 5 (String.length run) then Some (take_chars 12 run)
      else match_code r
  end.

(** The loop [for (const u of cands)]: the first candidate that is a
    string and an [http(s)] URL. *)
Fixpoint first_http (cands : list Value) : option string :=
  match cands with
  | [] => None
  | Str u :: r => if is_http u then Some u else first_http r
  | Other _ :: r => first_http r
  end.

(** [deriveLivestreamLink(ls)], as the pair [(streamUrl, streamId)]. *)
Definition deriveLivestreamLink (ls : Livestream)
    : option string * option string :=
  match first_http [url ls; short_url ls; share_url ls; permalink ls] with
  | Some u => (Some u, match_video_id u)
  | None =>
      let idish :=
        js_or (js_or (js_or (js_or (shortcode ls) (hash ls)) (slug ls)) (id ls))
              (video_id ls) in
      match idish with
      | Str s =>
          match match_code s with
          | Some code => (Some ("https://rumble.com/v" +:+ code), Some code)
          | None => (None, None)
          end
      | Other _ => (None, None)
      end
  end.

End Livestream.

(** ** The service worker: debouncing per tab *)

Module Debounce.
Import JsString.

Section Debounce.
(** The functions that are debounced. *)
Context {F : Type}.

(** A timer of [__rloDebouncePerTab]: its id, the key and the function
    its callback holds, and the time at which it is due. *)
Record Timer := {
  t_id : positive;
  t_key : string;
  t_fn : F;
  t_due : Z
}.

(** [__RLO_DEBOUNCE] ([table]) with the timers that are armed, the id
    of the next timer, the clock, and the functions that were run,
    oldest first. *)
Record State := {
  table : gmap string positive;
  armed : list Timer;
  next_id : positive;
  clock : Z;
  ran : list F
}.

Definition init : State :=
  {| table := ∅; armed := []; next_id := 1%positive; clock := 0%Z; ran := [] |}.

(** [__rloDebouncePerTab(key, fn, ms = __RLO_DEBOUNCE_MS)] *)
Definition debouncePerTab (key : string) (fn : F) (ms : option Z) (s : State)
    : State :=
  let live :=
    match table s !! key with
    | Some t => filter (fun tm => t_id tm ≠ t) (armed s)
    | None => armed s
    end in
  {| table := <[key := next_id s]> (table s);
     armed :=
       live ++ [ {| t_id := next_id s; t_key := key; t_fn := fn;
                    t_due := (clock s
                              + Background.timer_delay (default 450%Z ms))%Z |} ];
     next_id := Pos.succ (next_id s);
     clock := clock s;
     ran := ran s |}.

(** The callback of the timer [id], when the timer is armed and due:
    [__RLO_DEBOUNCE.delete(key); fn();] *)
Definition fire (id : positive) (s : State) : State :=
  match list_find (fun tm => t_id tm = id) (armed s) with
  | Some (_, tm) =>
      if Z.leb (t_due tm) (clock s) then
        {| table := delete (t_key tm) (table s);
           armed := filter (fun x => t_id x ≠ id) (armed s);
           next_id := next_id s;
           clock := clock s;
           ran := ran s ++ [t_fn tm] |}
      else s
  | None => s
  end.

Inductive Event :=
| Call (key : string) (fn : F) (ms : option Z)
| Fire (id : positive)
| Tick (ms : Z).

Definition handle (e : Event) (s : State) : State :=
  match e with
  | Call key fn ms => debouncePerTab key fn ms s
  | Fire id => fire id s
  | Tick ms =>
      if Z.leb 0 ms
      then {| table := table s; armed := armed s; next_id := next_id s;
              clock := (clock s + ms)%Z; ran := ran s |}
      else s
  end.

Definition run (evs : list Event) (s : State) : State :=
  foldl (fun st e => handle e st) s evs.

(** The functions passed to the calls, in order. *)
Definition called (evs : list Event) : list F :=
  omap (fun e => match e with Call _ fn _ => Some fn | _ => None end) evs.

(** What holds of the table and the timers at any time: a timer's id
    is older than the next id, no two armed timers share an id or a
    key, and the table holds exactly the armed timers. *)
Definition consistent (s : State) : Prop :=
  (∀ tm, tm ∈ armed s → (t_id tm < next_id s)%positive)
  ∧ NoDup (t_id <$> armed s)
  ∧ NoDup (t_key <$> armed s)
  ∧ ∀ k id, table s !! k = Some id
            ↔ ∃ tm, tm ∈ armed s ∧ t_id tm = id ∧ t_key tm = k.

End Debounce.

Arguments Timer : clear implicits.
Arguments State : clear implicits.
Arguments Event : clear implicits.

End Debounce.

(** ** The page worker: choosing the save button *)

Module SaveButton.
Import JsString JsText.

(** A button of the scope: what [pickSaveButtonForList] reads of it. *)
Record Button := {
  textContent : string;
  value : option string;
  data_js : option string;
  disabled : bool;
  aria_disabled : option string
}.

(** [(b.textContent || b.value || '').trim().toLowerCase()] *)
Definition button_text (b : Button) : string :=
  toLowerCase
    (trim (if truthy (textContent b) then textContent b
           else or_default (value b) "")).

(** [b.getAttribute?.('data-js') || ''] *)
Definition button_ds (b : Button) : string := or_default (data_js b) "".

(** [.*save] from the start of [s]: [save] occurs in [s] with no line
    terminator before it. *)
Fixpoint save_on_line (s : string) : bool :=
  String.prefix "save" s
  || match s with
     | EmptyString => false
     | String c r => negb (is_line_terminator c) && save_on_line r
     end.

(** [/playlist.*save/.test(s)] *)
Fixpoint playlist_then_save (s : string) : bool :=
  (String.prefix "playlist" s && save_on_line (drop_chars 8 s))
  || match s with
     | EmptyString => false
     | String _ r => playlist_then_save r
     end.

(** [/^(save|apply|done|ok)$/.test(s)] *)
Definition is_confirm_word (s : string) : bool :=
  String.eqb s "save" || String.eqb s "apply" || String.eqb s "done"
  || String.eqb s "ok".

(** Whether [s] is empty or begins with a character that is not a word
    character. *)
Definition at_word_end (s : string) : bool :=
  match s with
  | EmptyString => true
  | String c _ => negb (is_word c)
  end.

(** [/\bsave\b/] from the start of [s], where [prev] tells whether the
    character before [s] is a word character. *)
Fixpoint word_save_from (prev : bool) (s : string) : bool :=
  (negb prev && String.prefix "save" s && at_word_end (drop_chars 4 s))
  || match s with
     | EmptyString => false
     | String c r => word_save_from (is_word c) r
     end.

(** [/\bsave\b/.test(s)] *)
Definition has_word_save (s : string) : bool := word_save_from false s.

(** The score that [pickSaveButtonForList] gives a button. *)
Definition score (b : Button) : Z :=
  ((if contains "save_to_playlist" (button_ds b) then 10 else 0)
   + (if playlist_then_save (button_ds b) then 5 else 0)
   + (if is_confirm_word (button_text b) then 4 else 0)
   + (if has_word_save (button_text b) then 2 else 0)
   - (if contains "create" (button_text b) then 8 else 0)
   - (if disabled b
         || match aria_disabled b with
            | Some v => String.eqb v "true"
            | None => false
            end
      then 2 else 0))%Z.

(** [scored.sort((a, b) => b.score - a.score)]: the sort is stable, so
    its result is the one of any stable sort by decreasing score; this
    is insertion sort. *)
Fixpoint insert_desc (x : Button) (l : list Button) : list Button :=
  match l with
  | [] => [x]
  | y :: r => if Z.leb (score y) (score x) then x :: l else y :: insert_desc x r
  end.

Definition sort_desc (l : list Button) : list Button := foldr insert_desc [] l.

(** [pickSaveButtonForList(overlay)], from the buttons of the scope it
    settles on, in document order; [None] when the overlay has no list
    container. *)
Definition pickSaveButtonForList (scope : option (list Button)) : option Button :=
  match scope with
  | None => None
  | Some btns => head (sort_desc (filter (fun b => (0 < score b)%Z) btns))
  end.

End SaveButton.

(** ** The page worker on a listing page: finding the tile of a video *)

Module Listing.
Import JsString JsText.

Section Listing.
Context `{Background.UrlApi}.

(** [location.origin] *)
Variable origin : string.

(** [toAbs(u)] of the page worker *)
Definition toAbs (u : string) : string :=
  match Background.parseURL u (Some origin) with
  | Some x => Background.toString x
  | None => u
  end.

(** [getVideoIdFromUrl(u)] *)
Definition getVideoIdFromUrl (u : string) : option string :=
  match Background.parseURL u (Some origin) with
  | Some x =>
      let v := strip_suffix ".html" (strip_prefix "/v" (Background.pathname x)) in
      if truthy v then Some v else None
  | None => None
  end.

(** [new URL(abs).pathname], [None] when the constructor throws. *)
Definition path_of (u : string) : option string :=
  Background.pathname <$> Background.parseURL u None.

Inductive Strategy := ByAbs | ById | ByPath.

(** The result of [resolveTargetTile]: the anchor, by its position
    among the anchors of the page, the strategy and the match. *)
Record Found := {
  anchor : nat;
  strategy : Strategy;
  matched : string
}.

(** An index of the anchors: [index.set(key, a)] for every anchor that
    has a key, in document order, so the last anchor with a key wins.
    [hrefs] holds the [href] of every anchor of the page. *)
Definition index_anchors (key : string -> option string) (hrefs : list string)
    : gmap string nat :=
  foldl (fun m ih => match key ih.2 with
                     | Some k => <[k := ih.1]> m
                     | None => m
                     end)
        ∅ (imap pair hrefs).

(** [for (const u of wanted) if (index.has(u)) return ...] *)
Fixpoint first_indexed (index : gmap string nat) (wanted : list string)
    : option (string * nat) :=
  match wanted with
  | [] => None
  | u :: r =>
      match index !! u with
      | Some a => Some (u, a)
      | None => first_indexed index r
      end
  end.

Definition abs_key (h : string) : option string := Some (toAbs h).
Definition id_key (h : string) : option string := getVideoIdFromUrl (toAbs h).
Definition path_key (h : string) : option string := path_of (toAbs h).

(** [resolveTargetTile({wantedAbs, wantedIds, wantedPaths})] *)
Definition resolveTargetTile (hrefs wantedAbs wantedIds wantedPaths : list string)
    : option Found :=
  match first_indexed (index_anchors abs_key hrefs) wantedAbs with
  | Some (u, a) => Some {| anchor := a; strategy := ByAbs; matched := u |}
  | None =>
      match first_indexed (index_anchors id_key hrefs) wantedIds with
      | Some (i, a) => Some {| anchor := a; strategy := ById; matched := i |}
      | None =>
          match first_indexed (index_anchors path_key hrefs) wantedPaths with
          | Some (p, a) => Some {| anchor := a; strategy := ByPath; matched := p |}
          | None => None
          end
      end
  end.

End Listing.
End Listing.

(** ** The service worker: one worker in a tab of its own *)

Module NewTabWorker.
Import JsString.

(** What the promise of [runWorkerInNewTab] resolves to. *)
Inductive Resolution :=
| CreateFailed
| Answered (ok : bool) (reason : option string)
| TimedOut
| InjectFailed.

Inductive Effect :=
| TabsCreate (url : string)
| TabsRemove (tabId : nat)
| ExecuteScript (tabId : nat)
| TabsSendMessage (tabId : nat) (payload : Automator.RunPayload).

Inductive Event :=
| TabCreated (tab : option nat)
| TabUpdated (tabId : nat) (complete : bool)
| ScriptInjected (lastError : bool)
| TimerFired
| WorkerMessage (senderTab : option nat) (msg : Background.RuntimeMsg)
| Tick (ms : Z).

(** One call of [runWorkerInNewTab]: its arguments, the tab the browser
    gave it, its promise ([resolved]; the first resolution stays), its
    two listeners, its timer with the time at which it is due, the
    callbacks the browser still owes, the clock and the log of
    effects. *)
Record State := {
  payload : Automator.RunPayload;
  timeoutMs : Z;
  tab : option nat;
  resolved : option Resolution;
  onMessage : bool;
  onUpdated : bool;
  timer : option Z;
  creating : bool;
  injecting : nat;
  now : Z;
  log : list Effect
}.

Definition emit (e : Effect) (s : State) : State :=
  {| payload := payload s; timeoutMs := timeoutMs s; tab := tab s;
     resolved := resolved s; onMessage := onMessage s; onUpdated := onUpdated s;
     timer := timer s; creating := creating s; injecting := injecting s;
     now := now s; log := log s ++ [e] |}.

(** [resolve(r)]: a promise that is resolved stays as it is. *)
Definition resolve (r : Resolution) (s : State) : State :=
  {| payload := payload s; timeoutMs := timeoutMs s; tab := tab s;
     resolved := match resolved s with Some r0 => Some r0 | None => Some r end;
     onMessage := onMessage s; onUpdated := onUpdated s;
     timer := timer s; creating := creating s; injecting := injecting s;
     now := now s; log := log s |}.

(** [runWorkerInNewTab(videoUrl, {playlistIds, playlistNames, clearAll},
    timeoutMs = 30000)], up to the call of [chrome.tabs.create], at the
    time [t0]. *)
Definition runWorkerInNewTab (videoUrl : string) (p : Automator.RunPayload)
    (timeout : option Z) (t0 : Z) : State :=
  {| payload := p; timeoutMs := default 30000%Z timeout; tab := None;
     resolved := None; onMessage := false; onUpdated := false; timer := None;
     creating := true; injecting := 0; now := t0;
     log := [TabsCreate videoUrl] |}.

(** [cleanup()] of [runWorkerInNewTab] *)
Definition cleanup (s : State) : State :=
  match tab s with
  | Some t =>
      emit (TabsRemove t)
        {| payload := payload s; timeoutMs := timeoutMs s; tab := tab s;
           resolved := resolved s; onMessage := false; onUpdated := onUpdated s;
           timer := None; creating := creating s; injecting := injecting s;
           now := now s; log := log s |}
  | None => s
  end.

(** The callback of [chrome.tabs.create]. *)
Definition onCreated (created : option nat) (s : State) : State :=
  match created with
  | Some (S _ as t) =>
      {| payload := payload s; timeoutMs := timeoutMs s; tab := Some t;
         resolved := resolved s; onMessage := true; onUpdated := true;
         timer := Some (now s + Background.timer_delay (timeoutMs s))%Z;
         creating := false; injecting := injecting s;
         now := now s; log := log s |}
  | _ =>
      resolve CreateFailed
        {| payload := payload s; timeoutMs := timeoutMs s; tab := tab s;
           resolved := resolved s; onMessage := onMessage s;
           onUpdated := onUpdated s; timer := timer s; creating := false;
           injecting := injecting s; now := now s; log := log s |}
  end.

(** The listener [onMessage]. *)
Definition onWorkerMessage (sender : option nat) (msg : Background.RuntimeMsg)
    (s : State) : State :=
  match sender, tab s with
  | Some t', Some t =>
      if bool_decide (t' = t) then
        match msg with
        | Background.VideoWorkerResult ok reason =>
            resolve (Answered ok reason) (cleanup s)
        | Background.OtherMessage => s
        end
      else s
  | _, _ => s
  end.

(** The callback of the timer. *)
Definition onTimeout (s : State) : State := resolve TimedOut (cleanup s).

(** The listener [onUpdated], up to the call of [executeScript]. *)
Definition onTabUpdated (tabId : nat) (complete : bool) (s : State) : State :=
  match tab s with
  | Some t =>
      if bool_decide (tabId = t) && complete then
        emit (ExecuteScript t)
          {| payload := payload s; timeoutMs := timeoutMs s; tab := tab s;
             resolved := resolved s; onMessage := onMessage s; onUpdated := false;
             timer := timer s; creating := creating s;
             injecting := S (injecting s); now := now s; log := log s |}
      else s
  | None => s
  end.

(** The callback of [executeScript]. *)
Definition onInjected (lastError : bool) (s : State) : State :=
  let s1 :=
    {| payload := payload s; timeoutMs := timeoutMs s; tab := tab s;
       resolved := resolved s; onMessage := onMessage s; onUpdated := onUpdated s;
       timer := timer s; creating := creating s; injecting := pred (injecting s);
       now := now s; log := log s |} in
  if lastError then resolve InjectFailed (cleanup s1)
  else
    match tab s1 with
    | Some t => emit (TabsSendMessage t (payload s1)) s1
    | None => s1
    end.

(** Whether the browser can deliver the event in this state. *)
Definition enabled (e : Event) (s : State) : bool :=
  match e with
  | TabCreated _ => creating s
  | TabUpdated _ _ => true
  | ScriptInjected _ => Nat.ltb 0 (injecting s)
  | TimerFired =>
      match timer s with
      | Some due => Z.leb due (now s)
      | None => false
      end
  | WorkerMessage _ _ => true
  | Tick ms => Z.leb 0 ms
  end.

(** One turn of the event loop. *)
Definition handle (e : Event) (s : State) : State :=
  if negb (enabled e s) then s
  else
    match e with
    | TabCreated created => onCreated created s
    | TabUpdated tabId complete =>
        if onUpdated s then onTabUpdated tabId complete s else s
    | ScriptInjected lastError => onInjected lastError s
    | TimerFired => onTimeout s
    | WorkerMessage sender msg =>
        if onMessage s then onWorkerMessage sender msg s else s
    | Tick ms =>
        {| payload := payload s; timeoutMs := timeoutMs s; tab := tab s;
           resolved := resolved s; onMessage := onMessage s;
           onUpdated := onUpdated s; timer := timer s; creating := creating s;
           injecting := injecting s; now := (now s + ms)%Z; log := log s |}
    end.

Definition run (evs : list Event) (s : State) : State :=
  foldl (fun st e => handle e st) s evs.

Definition is_removal (e : Effect) : bool :=
  match e with TabsRemove _ => true | _ => false end.

(** The two states of a call that was given the tab [t] at the time
    [created]: waiting, with its timer armed and its listener on, and
    resolved, with the timer disarmed, the listener off and the tab
    removed. *)
Definition waiting (t : nat) (created : Z) (s : State) : Prop :=
  tab s = Some t ∧ creating s = false ∧ resolved s = None ∧ onMessage s = true
  ∧ timer s = Some (created + Background.timer_delay (timeoutMs s))%Z
  ∧ filter (fun e => Is_true (is_removal e)) (log s) = [].

Definition settled (t : nat) (s : State) : Prop :=
  tab s = Some t ∧ creating s = false ∧ onMessage s = false ∧ timer s = None
  ∧ (∃ r, resolved s = Some r ∧ r ≠ CreateFailed)
  ∧ TabsRemove t ∈ log s.

End NewTabWorker.

(** * Facts about insertion-ordered sets *)

Section UniqFacts.
Context {A : Type} `{EqDecision A}.

Lemma elem_of_set_add (seen : list A) x y :
  y ∈ set_add seen x ↔ y ∈ seen ∨ y = x.
Proof. unfold set_add. case_decide; set_solver. Qed.

Lemma NoDup_set_add (seen : list A) x : NoDup seen → NoDup (set_add seen x).
Proof.
  intros Hn. unfold set_add. case_decide; [done|].
  apply NoDup_app. split_and!; [done|set_solver|apply NoDup_singleton].
Qed.

Lemma foldl_set_add_spec (l seen : list A) :
  NoDup seen →
  NoDup (foldl set_add seen l)
  ∧ ∀ y, y ∈ foldl set_add seen l ↔ y ∈ seen ∨ y ∈ l.
Proof.
  revert seen. induction l as [|x l IH]; intros seen Hn; simpl.
  - split; [done|set_solver].
  - destruct (IH (set_add seen x) (NoDup_set_add _ _ Hn)) as [Hd He].
    split; [done|]. intros y. rewrite He, elem_of_set_add. set_solver.
Qed.

Lemma NoDup_uniq (l : list A) : NoDup (uniq l).
Proof. apply foldl_set_add_spec, NoDup_nil_2. Qed.

Lemma elem_of_uniq (l : list A) y : y ∈ uniq l ↔ y ∈ l.
Proof.
  unfold uniq. destruct (foldl_set_add_spec l [] (NoDup_nil_2)) as [_ He].
  rewrite He. set_solver.
Qed.

Lemma uniq_twice (x : A) : uniq [x; x] = [x].
Proof.
  unfold uniq. simpl. unfold set_add at 2.
  rewrite decide_False by apply not_elem_of_nil. simpl.
  unfold set_add. by rewrite decide_True by apply list_elem_of_here.
Qed.

End UniqFacts.

Section UniqSize.
Context `{Countable A}.

(** The length of [uniq l] is the number of distinct elements of [l]. *)
Lemma length_uniq (l : list A) :
  length (uniq l) = size (list_to_set (C := gset A) l).
Proof.
  rewrite <- (size_list_to_set (C := gset A) (uniq l)) by apply NoDup_uniq.
  f_equal. apply set_eq. intros y.
  by rewrite !elem_of_list_to_set, elem_of_uniq.
Qed.
End UniqSize.

(** * Facts about the page worker *)

Module AutomatorFacts.
Import JsString Automator WorkerInputs.

(** *** Trimming *)

Lemma trimEnd_empty s : is_empty (trimEnd s) = true → trimEnd (trimEnd s) = trimEnd s.
Proof. by destruct (trimEnd s). Qed.

Lemma trimEnd_idem s : trimEnd (trimEnd s) = trimEnd s.
Proof.
  induction s as [|c r IH]; [done|]. simpl.
  destruct (is_ws c && is_empty (trimEnd r)) eqn:E; [done|].
  simpl. by rewrite IH, E.
Qed.

(** A string without leading white space keeps none when its end is
    trimmed. *)
Lemma trimStart_trimEnd s : trimStart s = s → trimStart (trimEnd s) = trimEnd s.
Proof.
  destruct s as [|c r]; [done|]. simpl.
  destruct (is_ws c) eqn:Ec.
  - intros E. exfalso.
    assert (Hlen : ∀ x, String.length (trimStart x) ≤ String.length x).
    { induction x as [|d x IH]; simpl; [lia|]. destruct (is_ws d); simpl; lia. }
    pose proof (Hlen r) as Hl. rewrite E in Hl. simpl in Hl. lia.
  - intros _. simpl. by rewrite Ec.
Qed.

Lemma trimStart_idem s : trimStart (trimStart s) = trimStart s.
Proof.
  induction s as [|c r IH]; [done|]. simpl.
  destruct (is_ws c) eqn:Ec; [done|]. simpl. by rewrite Ec.
Qed.

(** [s.trim().trim() = s.trim()] *)
Lemma trim_idem s : trim (trim s) = trim s.
Proof.
  unfold trim.
  rewrite (trimStart_trimEnd (trimStart s)) by apply trimStart_idem.
  apply trimEnd_idem.
Qed.

Lemma toLowerCase_empty s : is_empty (toLowerCase s) = is_empty s.
Proof. by destruct s. Qed.

(** *** Name resolution *)

(** C8: with the stored playlists mapping "My Favorites" to "pl_1", any
    spelling of that name (case and surrounding white space apart)
    resolves to exactly the id "pl_1": [resolveIdsFromNames] returns
    the list with that one id, and so does the [videoWorkerRun] handler
    for a request with that name and no playlist ids. *)
Theorem names_resolve_ignoring_case (n : string) (c : bool) :
  toLowerCase (trim n) = "my favorites" →
  resolveIdsFromNames favorites [n] = ["pl_1"]
  ∧ run_ids favorites
      {| playlistIds := []; playlistNames := [n]; clearAll := c |}
    = ["pl_1"].
Proof.
  intros Hn.
  assert (Hres : ∀ x, toLowerCase (trim x) = "my favorites" →
                      resolveIdsFromNames favorites [x] = ["pl_1"]).
  { intros x Hx. unfold resolveIdsFromNames, name_keys. simpl.
    rewrite Hx. by vm_compute. }
  split; [by apply Hres|].
  unfold run_ids, run_namesRaw. simpl.
  assert (Ht : truthy (trim n) = true).
  { unfold truthy. rewrite <- toLowerCase_empty, Hn. done. }
  rewrite filter_cons, Ht. simpl.
  apply Hres. by rewrite trim_idem.
Qed.

(** *** The overlay *)

Lemma snapshot_byId_from (its : list Item) (acc : gmap string Item) i m :
  foldl (fun m it => if truthy (item_id it) then <[item_id it := it]> m else m)
        acc its !! i = Some m →
  acc !! i = Some m ∨ (m ∈ its ∧ item_id m = i).
Proof.
  revert acc. induction its as [|it its IH]; intros acc Hm; simpl in Hm; [by left|].
  apply IH in Hm as [Hm|[Hm <-]]; [|right; split; [by right|done]].
  destruct (truthy (item_id it)); [|by left].
  destruct (decide (item_id it = i)) as [<-|Hne].
  - rewrite lookup_insert_eq in Hm. injection Hm as <-.
    right. split; [by left|done].
  - rewrite lookup_insert_ne in Hm by done. by left.
Qed.

(** A row found by id is a row of the overlay with that id. *)
Lemma snapshot_byId_Some its i m :
  snapshot_byId its !! i = Some m → m ∈ its ∧ item_id m = i.
Proof.
  intros Hm. apply snapshot_byId_from in Hm as [Hm|Hm]; [|done].
  by rewrite lookup_empty in Hm.
Qed.

Lemma snapshot_byName_from (its : list Item) (acc : gmap string Item) n m :
  foldl (fun m it =>
           if truthy (nameKey it) then
             match m !! nameKey it with
             | Some _ => m
             | None => <[nameKey it := it]> m
             end
           else m)
        acc its !! n = Some m →
  acc !! n = Some m ∨ (m ∈ its ∧ nameKey m = n).
Proof.
  revert acc. induction its as [|it its IH]; intros acc Hm; simpl in Hm; [by left|].
  apply IH in Hm as [Hm|[Hm <-]]; [|right; split; [by right|done]].
  destruct (truthy (nameKey it)); [|by left].
  destruct (acc !! nameKey it) eqn:E; [by left|].
  destruct (decide (nameKey it = n)) as [<-|Hne].
  - rewrite lookup_insert_eq in Hm. injection Hm as <-.
    right. split; [by left|done].
  - rewrite lookup_insert_ne in Hm by done. by left.
Qed.

(** A row found by name is a row of the overlay with that name. *)
Lemma snapshot_byName_Some its n m :
  snapshot_byName its !! n = Some m → m ∈ its ∧ nameKey m = n.
Proof.
  intros Hm. apply snapshot_byName_from in Hm as [Hm|Hm]; [|done].
  by rewrite lookup_empty in Hm.
Qed.

(** Ids that no row has are all reported missing: nothing is checked
    and nothing is skipped. *)
Lemma check_by_id_missing byId ids acc :
  (∀ i, i ∈ ids → byId !! i = None) →
  checked (foldl (check_by_id byId) acc ids) = checked acc
  ∧ skipped (foldl (check_by_id byId) acc ids) = skipped acc.
Proof.
  revert acc. induction ids as [|i ids IH]; intros acc Hnone; [done|].
  simpl. destruct (IH (check_by_id byId acc i)) as [-> ->].
  { intros k Hk. apply Hnone. by right. }
  unfold check_by_id. by rewrite Hnone by left.
Qed.

Lemma check_by_name_missing byName names acc :
  (∀ n, n ∈ names → byName !! n = None) →
  checked (foldl (check_by_name byName) acc names) = checked acc
  ∧ skipped (foldl (check_by_name byName) acc names) = skipped acc.
Proof.
  revert acc. induction names as [|n names IH]; intros acc Hnone; [done|].
  simpl. destruct (IH (check_by_name byName acc n)) as [-> ->].
  { intros k Hk. apply Hnone. by right. }
  unfold check_by_name. by rewrite Hnone by left.
Qed.

(** When no row of the overlay has a sought id or a sought name,
    [ensurePlaylistsChecked] checks nothing and skips nothing. *)
Lemma ensure_matches_none stored ov ids names :
  matches_none stored ov ids names →
  checked (ensurePlaylistsChecked stored ov ids names) = []
  ∧ skipped (ensurePlaylistsChecked stored ov ids names) = [].
Proof.
  unfold matches_none, ensurePlaylistsChecked.
  destruct (container ov) as [c|]; [|done].
  destruct (sought stored ids names) as [I N]. intros Hnone.
  destruct (negb (is_nil I)).
  - apply (check_by_id_missing _ _ no_entries). intros i Hi.
    destruct (snapshot_byId (items c) !! i) as [m|] eqn:E; [|done].
    apply snapshot_byId_Some in E as [Hm <-].
    by destruct (Hnone m Hm) as [? _].
  - apply (check_by_name_missing _ _ no_entries). intros n Hn.
    destruct (snapshot_byName (items c) !! n) as [m|] eqn:E; [|done].
    apply snapshot_byName_Some in E as [Hm <-].
    by destruct (Hnone m Hm) as [_ ?].
Qed.

(** C10, as the code has it.  On a page where the overlay opens, the
    result of a Clear request reports [ok] exactly when the overlay was
    confirmed: it closed (or a toast showed) in time and, opened again,
    it had nothing checked (or the verification threw); the number of
    check boxes that were unchecked, zero included, plays no part, and
    a result that is not [ok] carries the failed confirmation as its
    reason.  The result of a Set request that names at least one
    playlist while no row of the overlay has a sought id or name
    reports [ok = false] with the reason "no matching playlists
    found". *)
Theorem worker_result_ok pg payload ov :
  opened pg = inr ov →
  let r := videoWorkerRun pg payload in
  let ids := run_ids (stored pg) payload in
  let names := if negb (is_nil ids) then [] else run_namesRaw payload in
  (clearAll payload = true →
   let confirmed :=
     closed pg
     && match reopened pg with
        | None => true
        | Some (inl _) => false
        | Some (inr ov2) => negb (anyOn ov2)
        end in
   ok r = confirmed
   ∧ reason r
     = (if confirmed then None
        else Some "overlay did not confirm/close in time or post-verify failed")
   ∧ details r
     = Some (DetailsCleared (ensureAllPlaylistsUnchecked ov) confirmed))
  ∧ (clearAll payload = false →
     ids ≠ [] ∨ run_namesRaw payload ≠ [] →
     matches_none (stored pg) ov ids names →
     ok r = false ∧ reason r = Some "no matching playlists found").
Proof.
  intros Hov r ids names. subst r. unfold videoWorkerRun. rewrite Hov.
  fold ids. fold names. split.
  - intros ->. simpl. unfold verifyVideoOverlayState.
    destruct (reopened pg) as [[why|ov2]|]; simpl;
      rewrite ?andb_true_r, ?andb_false_r; done.
  - intros -> Hnamed Hnone.
    destruct (ensure_matches_none _ _ _ _ Hnone) as [Hc Hs].
    simpl. rewrite Hc, Hs. simpl.
    assert (is_nil ids && is_nil (run_namesRaw payload) = false) as ->.
    { destruct Hnamed as [Hn|Hn].
      - by destruct ids.
      - destruct (run_namesRaw payload); [done|]. by rewrite andb_false_r. }
    done.
Qed.

(** *** The worker on concrete pages *)

Lemma names_resolve_ignoring_case_witness :
  toLowerCase (trim "  MY Favorites ") = "my favorites"
  ∧ resolveIdsFromNames favorites ["  MY Favorites "] = ["pl_1"].
Proof.
  assert (Hn : toLowerCase (trim "  MY Favorites ") = "my favorites")
    by reflexivity.
  split; [exact Hn|].
  exact (proj1 (names_resolve_ignoring_case "  MY Favorites " false Hn)).
Defined.

(** C10 does not hold as stated: the overlay opens, no check box is
    unchecked, and the Clear request still reports [ok = false],
    because the overlay did not close in time. *)
Lemma clear_unconfirmed_is_not_ok :
  opened page_unconfirmed = inr one_unchecked
  ∧ videoWorkerRun page_unconfirmed clear_request
    = {| ok := false;
         reason :=
           Some "overlay did not confirm/close in time or post-verify failed";
         details :=
           Some (DetailsCleared {| unchecked := 0; hadNone := 1 |} false) |}.
Proof. split; vm_compute; reflexivity. Qed.

Lemma worker_result_ok_witness :
  opened page_confirmed = inr one_unchecked
  ∧ ok (videoWorkerRun page_confirmed clear_request) = true
  ∧ details (videoWorkerRun page_confirmed clear_request)
    = Some (DetailsCleared {| unchecked := 0; hadNone := 1 |} true)
  ∧ ok (videoWorkerRun page_confirmed set_other) = false
  ∧ reason (videoWorkerRun page_confirmed set_other)
    = Some "no matching playlists found".
Proof.
  assert (Hov : opened page_confirmed = inr one_unchecked) by reflexivity.
  split; [exact Hov|].
  destruct (worker_result_ok page_confirmed clear_request one_unchecked Hov)
    as [Hclear _].
  destruct (Hclear eq_refl) as (Hok & _ & Hdet).
  split; [exact Hok|]. split; [exact Hdet|].
  destruct (worker_result_ok page_confirmed set_other one_unchecked Hov)
    as [_ Hset].
  apply Hset; [reflexivity|right; discriminate|].
  intros it Hin. apply list_elem_of_singleton in Hin as ->.
  split.
  - apply not_elem_of_nil.
  - apply not_elem_of_cons. split; [discriminate|apply not_elem_of_nil].
Defined.

End AutomatorFacts.

(** * Facts about the job runner *)

Module JobFacts.
Import JsString Background.

Section Steps.
Context `{UrlApi}.

Lemma lifecycle_emit e s :
  lifecycle (emit e s) = lifecycle s ++ (if is_lifecycle e then [e] else []).
Proof.
  unfold lifecycle, emit; simpl.
  rewrite fmap_app, filter_app; simpl.
  rewrite filter_cons, filter_nil.
  by destruct (is_lifecycle e).
Qed.

Lemma cleanup_spec s :
  job (cleanup s) = None ∧ creating (cleanup s) = creating s
  ∧ injecting (cleanup s) = injecting s ∧ now (cleanup s) = now s
  ∧ lifecycle (cleanup s) = lifecycle s ++ removal s.
Proof.
  unfold cleanup, removal.
  destruct (job s) as [j|] eqn:Ej; [|by rewrite app_nil_r].
  unfold tabs_remove, lifecycle.
  destruct (tabId j) as [[|t]|]; destruct (debugKeepTab j); simpl;
    rewrite ?app_nil_r, ?fmap_app, ?filter_app; done.
Qed.

Lemma next_spec s j :
  job s = Some j →
  creating (next s) = creating s
  ∧ match queue j with
    | [] =>
        job (next s) = None
        ∧ lifecycle (next s)
          = lifecycle s
            ++ SendMessage (Complete (done j) (total j) "All videos processed.")
            :: removal s
    | u :: r =>
        job (next s) = Some (with_target r (Some u) (with_progress (done j) None j))
        ∧ lifecycle (next s) = lifecycle s ++ [TabsUpdate (tabId j) u]
    end.
Proof.
  intros Ej. unfold next. rewrite Ej. simpl.
  destruct (queue j) as [|u r] eqn:Eq.
  - match goal with |- context [cleanup ?x] =>
      destruct (cleanup_spec x) as (-> & -> & _ & _ & ->) end.
    rewrite lifecycle_emit. simpl.
    unfold removal. simpl. rewrite Ej.
    rewrite <- app_assoc; done.
  - rewrite lifecycle_emit. done.
Qed.

Lemma finish_target_spec note s j :
  job s = Some j →
  creating (finish_target note s) = creating s
  ∧ match queue j with
    | [] =>
        job (finish_target note s) = None
        ∧ lifecycle (finish_target note s)
          = lifecycle s
            ++ SendMessage (Progress (S (done j)) (total j)
                              (url_or_null (currentUrl j)) note)
            :: SendMessage (Complete (S (done j)) (total j) "All videos processed.")
            :: removal s
    | u :: r =>
        job (finish_target note s)
        = Some (with_target r (Some u) (with_progress (S (done j)) None j))
        ∧ lifecycle (finish_target note s)
          = lifecycle s
            ++ [SendMessage (Progress (S (done j)) (total j)
                               (url_or_null (currentUrl j)) note);
                TabsUpdate (tabId j) u]
    end.
Proof.
  intros Ej. unfold finish_target. rewrite Ej.
  match goal with |- context [next ?x] =>
    pose proof (next_spec x (with_progress (S (done j)) (videoTimer j) j) eq_refl)
      as [Hc Hn] end.
  rewrite Hc. split; [done|]. simpl in Hn.
  destruct (queue j) as [|u r]; destruct Hn as [-> ->]; split; try done;
    unfold sendProgress; rewrite lifecycle_emit; simpl;
    rewrite <- app_assoc; simpl; try done.
  unfold removal. simpl. by rewrite Ej.
Qed.

Lemma rounds_snoc U t keep notes note :
  rounds U t keep (notes ++ [note])
  = rounds U t keep notes ++ round U t keep (length notes) note.
Proof.
  unfold rounds. rewrite imap_app, concat_app. simpl.
  by rewrite Nat.add_0_r, app_nil_r.
Qed.

(** The end of a target keeps a working job on its track: the next
    target, or the end of the job. *)
Lemma running_finish_target p pre note s :
  running p pre s →
  running p pre (finish_target note s) ∨ finished p pre (finish_target note s).
Proof.
  intros (t & notes & j & Ej & Hc & Ht & Etab & Ekeep & Etot & Edone & Hlt
          & Ecur & Eq & Elife).
  destruct (finish_target_spec note s j Ej) as [Hc' Hq].
  rewrite Edone, Etot, Ecur, Etab in Hq.
  assert (Hrem : removal s
                 = if debugKeepTab (new_job p) then [] else [TabsRemove t]).
  { unfold removal. rewrite Ej, Etab, Ekeep. by destruct t. }
  destruct (queue j) as [|u r] eqn:Equeue.
  - right. destruct Hq as [Ej' Hl]. split; [done|]. split; [congruence|].
    left. exists t, (notes ++ [note]). split; [done|].
    assert (Hlen : length (targets p) = S (length notes)).
    { apply (f_equal length) in Eq. rewrite length_drop in Eq. simpl in Eq. lia. }
    split; [rewrite length_app; simpl; lia|].
    rewrite Hl, Elife, rounds_snoc, <- app_assoc. f_equal. f_equal.
    unfold round. rewrite (lookup_ge_None_2 _ (S (length notes))) by lia.
    by rewrite Hrem.
  - left. destruct Hq as [Ej' Hl].
    assert (Hu : targets p !! S (length notes) = Some u).
    { rewrite <- (Nat.add_0_r (S (length notes))), <- lookup_drop, <- Eq. done. }
    eexists t, (notes ++ [note]), _. split; [exact Ej'|].
    rewrite length_app. simpl. rewrite Nat.add_1_r.
    repeat split; try done; try congruence.
    + apply lookup_lt_Some in Hu. lia.
    + replace (S (S (length notes))) with (S (length notes) + 1) by lia.
      by rewrite <- drop_drop, <- Eq.
    + rewrite Hl, Elife, rounds_snoc, <- app_assoc. f_equal. f_equal.
      unfold round. by rewrite Hu.
Qed.

(** The listener of [tabs.onRemoved] touches neither the job nor the
    life of the job. *)
Lemma onRemoved_frame t s :
  job (onRemoved t s) = job s ∧ creating (onRemoved t s) = creating s
  ∧ timers (onRemoved t s) = timers s ∧ injecting (onRemoved t s) = injecting s
  ∧ workerListeners (onRemoved t s) = workerListeners s
  ∧ lifecycle (onRemoved t s) = lifecycle s.
Proof.
  unfold onRemoved, lifecycle.
  repeat case_bool_decide; simpl;
    rewrite ?fmap_app, ?filter_app, ?app_nil_r; simpl;
    rewrite ?app_nil_r; done.
Qed.

Lemma iter_fixed {A} (f : A → A) (P : A → Prop) n x :
  (∀ y, P y → f y = y) → P x → Nat.iter n f x = x.
Proof.
  intros Hf Hx. induction n as [|n IH]; simpl; [done|].
  rewrite IH. by apply Hf.
Qed.

Lemma iter_preserves {A} (f : A → A) (P : A → Prop) n x :
  (∀ y, P y → P (f y)) → P x → P (Nat.iter n f x).
Proof. intros Hf Hx. induction n as [|n IH]; simpl; auto. Qed.

Lemma finish_target_idle note s : job s = None → finish_target note s = s.
Proof. intros E. unfold finish_target. by rewrite E. Qed.

Lemma workerHandler_idle sender msg s :
  job s = None → workerHandler sender msg s = s.
Proof. intros E. unfold workerHandler. by rewrite E. Qed.

(** Once the job is over, nothing but a new request changes its life. *)
Lemma finished_handle p pre e s :
  is_request e = false → finished p pre s → finished p pre (handle e s).
Proof.
  intros He (Ej & Hc & Hl). unfold handle.
  destruct (enabled e s) eqn:En; simpl; [|done].
  destruct e as [| |tab|t c|t err|t|sender msg|t|ms]; try discriminate He.
  - unfold enabled in En. rewrite Hc in En. by destruct tab.
  - destruct (onUpdatedAdded _); [|done].
    unfold onUpdated. simpl. by rewrite Ej.
  - unfold onInjected. rewrite finish_target_idle by done.
    simpl. rewrite Ej. by destruct err.
  - unfold onTimeout. by rewrite finish_target_idle.
  - rewrite (iter_fixed _ (fun y => job y = None));
      [done|apply workerHandler_idle|done].
  - match goal with |- context [onRemoved t ?x] =>
      destruct (onRemoved_frame t x) as (E1 & C1 & _ & _ & _ & L1) end.
    unfold finished. by rewrite E1, C1, L1.
  - done.
Qed.

Lemma targets_accepted p :
  rejected p = false → ∃ u U, targets p = u :: U.
Proof.
  unfold rejected. destruct (targets p) as [|u U]; [done|]. eauto.
Qed.

Lemma onCreated_failed tab s j :
  job s = Some j → tabId j = None →
  match tab with Some (S _) => False | _ => True end →
  job (onCreated tab s) = None ∧ creating (onCreated tab s) = creating s
  ∧ lifecycle (onCreated tab s)
    = lifecycle s
      ++ [SendMessage (Complete 0 (total j) "Failed to create hidden tab.")].
Proof.
  intros Ej Et Htab.
  assert (onCreated tab s
          = cleanup (emit (SendMessage (Complete 0 (total j)
                             "Failed to create hidden tab.")) s)) as ->
    by (unfold onCreated; rewrite Ej; by destruct tab as [[|?]|]).
  match goal with |- context [cleanup ?x] =>
    destruct (cleanup_spec x) as (-> & -> & _ & _ & ->) end.
  rewrite lifecycle_emit. unfold removal. simpl.
  by rewrite Ej, Et, app_nil_r.
Qed.

(** While the hidden tab is awaited, only the callback of
    [tabs.create] moves the job. *)
Lemma awaiting_handle p pre e s :
  rejected p = false → is_request e = false →
  awaiting p pre s → job_inv p pre (handle e s).
Proof.
  intros Hp He (Ej & Hc & Hti & Hin & Hw & Hl). unfold handle.
  destruct (enabled e s) eqn:En; simpl; [|by left].
  destruct (targets_accepted p Hp) as (u & U & HU).
  destruct e as [| |tab|t c|t err|t|sender msg|t|ms]; try discriminate He.
  - (* the tab is there, or it is not *)
    assert (match tab with Some (S _) => False | _ => True end
            ∨ ∃ t, tab = Some (S t)) as [Hbad|[t ->]]
      by (destruct tab as [[|t]|]; eauto).
    + right; right.
      match goal with |- context [onCreated tab ?x] =>
        destruct (onCreated_failed tab x (new_job p) Ej eq_refl Hbad)
          as (E1 & C1 & L1) end.
      split; [done|]. split; [by rewrite C1; simpl; rewrite Hc|]. right.
      rewrite L1. f_equal. by destruct tab.
    + right; left. unfold onCreated. simpl. rewrite Ej.
      eexists (S t), [], _.
      split; [reflexivity|]. split; [by simpl; rewrite Hc|].
      do 5 (split; [done|]).
      split; [rewrite HU; simpl; lia|].
      split; [by simpl; rewrite HU|]. split; [by simpl; rewrite HU|].
      change (rounds _ _ _ []) with (@nil Effect).
      rewrite app_nil_r. exact Hl.
  - left. destruct (onUpdatedAdded _); [|done].
    unfold onUpdated. simpl. by rewrite Ej.
  - unfold enabled in En. rewrite Hin in En. by case_bool_decide; set_solver.
  - unfold enabled in En. by rewrite Hti in En.
  - left. simpl. by rewrite Hw.
  - left.
    match goal with |- context [onRemoved t ?x] =>
      destruct (onRemoved_frame t x) as (E1 & C1 & T1 & I1 & W1 & L1) end.
    unfold awaiting. by rewrite E1, C1, T1, I1, W1, L1.
  - by left.
Qed.

Lemma running_frame p pre s s' :
  running p pre s → job s' = job s → creating s' = creating s →
  lifecycle s' = lifecycle s → running p pre s'.
Proof.
  intros (t & notes & j & Hr) Ej Hc Hl. exists t, notes, j.
  by rewrite Ej, Hc, Hl.
Qed.

(** Arming or clearing the timer does not move the job. *)
Lemma running_timer p pre s s' j tm :
  running p pre s → job s = Some j →
  job s' = Some (with_progress (done j) tm j) → creating s' = creating s →
  lifecycle s' = lifecycle s → running p pre s'.
Proof.
  intros (t & notes & j' & Ej' & Hr) Ej Ej1 Hc Hl.
  rewrite Ej in Ej'. injection Ej' as <-.
  exists t, notes, (with_progress (done j) tm j).
  by rewrite Ej1, Hc, Hl.
Qed.

Lemma workerHandler_inv p pre sender msg s :
  running p pre s ∨ finished p pre s →
  running p pre (workerHandler sender msg s)
  ∨ finished p pre (workerHandler sender msg s).
Proof.
  intros [Hr|Hf];
    [|right; by rewrite workerHandler_idle by apply Hf].
  unfold workerHandler.
  destruct (job s) as [j|] eqn:Ej; [|by left].
  destruct sender as [t|]; [|by left].
  case_bool_decide; [|by left].
  destruct msg as [ok reason|]; [|by left].
  apply running_finish_target.
  by apply (running_timer p pre s _ j None).
Qed.

(** While the job works on a target, every event leaves it on the same
    target or ends the target. *)
Lemma running_handle p pre e s :
  is_request e = false →
  running p pre s → running p pre (handle e s) ∨ finished p pre (handle e s).
Proof.
  intros He Hr. unfold handle.
  destruct (enabled e s) eqn:En; simpl; [|by left].
  destruct e as [| |tab|t c|t err|t|sender msg|t|ms]; try discriminate He.
  - destruct Hr as (? & ? & ? & _ & Hc & _).
    unfold enabled in En. rewrite Hc in En. by destruct tab.
  - left. destruct (onUpdatedAdded _);
      [|by apply (running_frame p pre s)].
    unfold onUpdated. simpl.
    destruct (job s) eqn:Ej; [|by apply (running_frame p pre s)].
    destruct (_ && _); apply (running_frame p pre s); try done.
    by rewrite lifecycle_emit, app_nil_r.
  - unfold onInjected. destruct err.
    + apply running_finish_target. by apply (running_frame p pre s).
    + left. simpl. destruct (job s) as [j|] eqn:Ej;
        [|by apply (running_frame p pre s)].
      apply (running_timer p pre s _ j (Some (timerSeq s))); try done.
      by rewrite lifecycle_emit, app_nil_r.
  - apply running_finish_target. by apply (running_frame p pre s).
  - apply (iter_preserves _ (fun y => running p pre y ∨ finished p pre y)).
    + intros y. apply workerHandler_inv.
    + left. by apply (running_frame p pre s).
  - left.
    match goal with |- context [onRemoved t ?x] =>
      destruct (onRemoved_frame t x) as (E1 & C1 & _ & _ & _ & L1) end.
    by apply (running_frame p pre s).
  - left. by apply (running_frame p pre s).
Qed.

(** The three phases are closed under every event that is not a new
    request. *)
Lemma job_inv_handle p pre e s :
  rejected p = false → is_request e = false →
  job_inv p pre s → job_inv p pre (handle e s).
Proof.
  intros Hp He [Ha|[Hr|Hf]].
  - by apply awaiting_handle.
  - right. by apply running_handle.
  - right; right. by apply finished_handle.
Qed.

Lemma job_inv_run p pre evs s :
  rejected p = false → no_request evs = true →
  job_inv p pre s → job_inv p pre (run evs s).
Proof.
  intros Hp. revert s. induction evs as [|e evs IH]; intros s Hn Hs; [done|].
  simpl in Hn. apply andb_true_iff in Hn as [He Hn].
  apply negb_true_iff in He.
  apply IH; [done|]. by apply job_inv_handle.
Qed.

(** *** [start] *)

Lemma start_rejected p s :
  rejected p = true →
  start p s = emit (SendMessage (Error "Missing videos or playlists.")) (cleanup s).
Proof.
  unfold rejected, lacks_playlists, start, targets.
  destruct (uniq _) as [|u U]; [done|]. simpl. by intros ->.
Qed.

Lemma start_accepted p s :
  rejected p = false →
  start p s
  = emit (TabsCreate (default "" (head (targets p))))
      (set_pending (S (creating (cleanup s))) (injecting (cleanup s))
         (emit (SendMessage (Started (length (targets p)) (mode_of p)))
            (set_job (Some (new_job p)) (cleanup s)))).
Proof.
  unfold rejected, lacks_playlists, start, targets, new_job, mode_of, targets.
  destruct (uniq _) as [|u U]; [done|]. simpl. by intros ->.
Qed.

Lemma messages_emit e s :
  messages (emit e s)
  = messages s ++ match e with SendMessage m => [m] | _ => [] end.
Proof.
  unfold messages, emit. simpl. rewrite omap_app. simpl. by destruct e.
Qed.

Lemma messages_cleanup s : messages (cleanup s) = messages s.
Proof.
  unfold cleanup. destruct (job s) as [j|]; [|done].
  unfold messages, tabs_remove.
  destruct (tabId j) as [[|t]|]; destruct (debugKeepTab j); simpl;
    rewrite ?omap_app; simpl; by rewrite ?app_nil_r.
Qed.

Lemma cleanup_idle s : job s = None → cleanup s = s.
Proof. intros E. unfold cleanup. by rewrite E. Qed.

Lemma idle_init : idle init.
Proof. by unfold idle. Qed.

(** An accepted request on an idle service worker starts the wait for
    the hidden tab. *)
Lemma start_awaiting p s0 :
  idle s0 → rejected p = false →
  awaiting p (lifecycle s0 ++ opening p) (start p s0).
Proof.
  intros (Ej & Hc & Hti & Hin & Hw) Hp.
  rewrite start_accepted, cleanup_idle by done.
  unfold awaiting. simpl. rewrite Hc.
  split_and!; try done.
  unfold opening. rewrite lifecycle_emit. simpl.
  change (lifecycle (set_pending _ _ ?x)) with (lifecycle x).
  rewrite lifecycle_emit. simpl. by rewrite <- app_assoc.
Qed.

(** Every run of one job, started on an idle service worker, stays
    within the three phases. *)
Lemma single_job_inv p s0 evs :
  idle s0 → rejected p = false → no_request evs = true →
  job_inv p (lifecycle s0 ++ opening p) (run evs (start p s0)).
Proof.
  intros Hi Hp Hn. apply job_inv_run; [done..|]. left. by apply start_awaiting.
Qed.

(** *** Reading the progress events off the life of a job *)

Lemma messages_lifecycle s : messages s = omap message_of (lifecycle s).
Proof.
  unfold messages, lifecycle.
  induction (log s) as [|[tm e] l IH]; [done|].
  rewrite fmap_cons, filter_cons.
  destruct e; cbn [snd is_lifecycle];
    (rewrite decide_True by done) || (rewrite decide_False by (intros []));
    cbn [omap list_omap message_of snd]; by rewrite <- IH.
Qed.

Lemma progress_events_snoc U notes note :
  progress_events U (notes ++ [note])
  = progress_events U notes
    ++ [Progress (S (length notes)) (length U)
          (url_or_null (U !! length notes)) note].
Proof.
  unfold progress_events. rewrite imap_app. simpl.
  by rewrite Nat.add_0_r.
Qed.

Lemma length_progress_events U notes :
  length (progress_events U notes) = length notes.
Proof. unfold progress_events. by rewrite length_imap. Qed.

(** Before the last target, the rounds hold progress events only. *)
Lemma messages_rounds_running U t keep notes :
  length notes < length U →
  omap message_of (rounds U t keep notes) = progress_events U notes.
Proof.
  induction notes as [|note notes IH] using rev_ind; intros Hlt; [done|].
  rewrite length_app in Hlt. simpl in Hlt.
  rewrite rounds_snoc, omap_app, IH, progress_events_snoc by lia.
  f_equal. unfold round.
  destruct (lookup_lt_is_Some_2 U (S (length notes))) as [u ->]; [lia|done].
Qed.

(** After the last target, they end with the completion event. *)
Lemma messages_rounds_finished U t keep notes :
  length notes = length U → notes ≠ [] →
  omap message_of (rounds U t keep notes)
  = progress_events U notes
    ++ [Complete (length U) (length U) "All videos processed."].
Proof.
  destruct notes as [|note notes _] using rev_ind; intros Hlen Hne; [done|].
  rewrite length_app in Hlen. simpl in Hlen.
  rewrite rounds_snoc, omap_app, messages_rounds_running,
    progress_events_snoc by lia.
  rewrite <- app_assoc. f_equal. unfold round.
  rewrite (lookup_ge_None_2 U (S (length notes))) by lia.
  simpl. replace (S (length notes)) with (length U) by lia.
  by destruct keep.
Qed.

Lemma progress_dones_events U notes :
  progress_dones (progress_events U notes) = seq 1 (length notes).
Proof.
  induction notes as [|note notes IH] using rev_ind; [done|].
  rewrite progress_events_snoc. unfold progress_dones in *.
  by rewrite omap_app, IH, length_app, seq_app.
Qed.

Lemma progress_urls_events U notes :
  length notes ≤ length U →
  progress_urls (progress_events U notes)
  = (fun u => url_or_null (Some u)) <$> take (length notes) U.
Proof.
  induction notes as [|note notes IH] using rev_ind; intros Hle; [done|].
  rewrite length_app in *. simpl in Hle.
  rewrite progress_events_snoc. unfold progress_urls in *.
  rewrite omap_app, IH by lia. simpl.
  destruct (lookup_lt_is_Some_2 U (length notes)) as [u Hu]; [lia|].
  rewrite Nat.add_1_r, (take_S_r _ _ u), fmap_app by done.
  by rewrite Hu.
Qed.

Lemma filter_progress_events (f : Message → bool) U notes :
  (∀ d n u note, f (Progress d n u note) = true) →
  filter (fun m => Is_true (f m)) (progress_events U notes)
  = progress_events U notes.
Proof.
  intros Hf. induction notes as [|note notes IH] using rev_ind; [done|].
  rewrite progress_events_snoc, filter_app, IH. f_equal.
  rewrite filter_cons, Hf. done.
Qed.


Lemma messages_since_app s0 s l :
  lifecycle s = lifecycle s0 ++ l → messages_since s0 s = omap message_of l.
Proof.
  intros Hl. unfold messages_since.
  by rewrite !messages_lifecycle, Hl, omap_app, drop_app_length.
Qed.

Lemma lifecycle_since_app s0 s l :
  lifecycle s = lifecycle s0 ++ l → lifecycle_since s0 s = l.
Proof. intros Hl. unfold lifecycle_since. by rewrite Hl, drop_app_length. Qed.

Lemma single_job_shape p s0 evs :
  idle s0 → rejected p = false → no_request evs = true →
  Shape p s0 (run evs (start p s0)).
Proof.
  intros Hi Hp Hn. destruct (targets_accepted p Hp) as (u & U & HU).
  destruct (single_job_inv p s0 evs Hi Hp Hn) as [Ha|[Hr|Hf]].
  - destruct Ha as (Ej & _ & _ & _ & _ & Hl).
    apply (ShapeAlive p _ _ [] (new_job p)); try done.
    + rewrite HU. simpl. lia.
    + by rewrite (messages_since_app _ _ _ Hl).
  - destruct Hr as (t & notes & j & Ej & _ & _ & Etab & _ & Etot & Edone
                    & Hlt & Ecur & Eq & Hl).
    apply (ShapeAlive p _ _ notes j); try done.
    + by rewrite Etab.
    + rewrite <- app_assoc in Hl. rewrite (messages_since_app _ _ _ Hl).
      rewrite omap_app, messages_rounds_running by done. done.
  - destruct Hf as (Ej & _ & [(t & notes & _ & Hlen & Hl)|Hl]).
    + apply (ShapeDone p _ _ notes); try done.
      rewrite <- app_assoc in Hl. rewrite (messages_since_app _ _ _ Hl).
      rewrite omap_app, messages_rounds_finished; try done.
      intros ->. rewrite HU in Hlen. done.
    + apply ShapeFailed; [done|].
      rewrite <- app_assoc in Hl. by rewrite (messages_since_app _ _ _ Hl).
Qed.

(** The same three shapes as one list: the start, the progress events
    of the targets that ended, and the way the job ended, if it did. *)
Lemma single_job_messages p s0 evs :
  idle s0 → rejected p = false → no_request evs = true →
  let s := run evs (start p s0) in
  let n := length (targets p) in
  ∃ (notes : list string) (ending : list Message),
    messages_since s0 s
    = Started n (mode_of p) :: progress_events (targets p) notes ++ ending
    ∧ ((ending = [] ∧ length notes < n ∧ is_Some (job s))
       ∨ (ending = [Complete n n "All videos processed."]
          ∧ length notes = n ∧ job s = None)
       ∨ (ending = [Complete 0 n "Failed to create hidden tab."]
          ∧ notes = [] ∧ job s = None)).
Proof.
  intros Hi Hp Hn s n.
  destruct (single_job_shape p s0 evs Hi Hp Hn)
    as [notes j Ej _ _ Hlt _ _ Hm|notes Ej Hlen Hm|Ej Hm].
  - exists notes, []. rewrite app_nil_r. split; [done|]. left.
    split_and!; [done..|]. by exists j.
  - exists notes, [Complete n n "All videos processed."]. split; [done|].
    right; left. done.
  - exists [], [Complete 0 n "Failed to create hidden tab."]. split; [done|].
    right; right. done.
Qed.

Lemma progress_event_inv U notes m :
  m ∈ progress_events U notes → is_progress m = true.
Proof.
  unfold progress_events. intros Hm.
  apply list_elem_of_lookup in Hm as [i Hi].
  rewrite list_lookup_imap in Hi.
  destruct (notes !! i); [|done]. by injection Hi as <-.
Qed.

Lemma messages_finish_target note s j :
  job s = Some j →
  messages (finish_target note s)
  = messages s
    ++ Progress (S (done j)) (total j) (url_or_null (currentUrl j)) note
       :: match queue j with
          | [] => [Complete (S (done j)) (total j) "All videos processed."]
          | _ :: _ => []
          end.
Proof.
  intros Ej. rewrite !messages_lifecycle.
  destruct (finish_target_spec note s j Ej) as [_ Hq].
  destruct (queue j); destruct Hq as [_ ->]; rewrite omap_app; simpl; [|done].
  do 3 f_equal. unfold removal. rewrite Ej.
  destruct (tabId j) as [[|t]|]; try done. by destruct (debugKeepTab j).
Qed.

Lemma messages_since_more s0 s s' extra :
  length (messages s0) ≤ length (messages s) →
  messages s' = messages s ++ extra →
  messages_since s0 s' = messages_since s0 s ++ extra.
Proof.
  intros Hle Hm. unfold messages_since. rewrite Hm, drop_app.
  f_equal. replace (_ - _) with 0 by lia. done.
Qed.

Lemma job_inv_since p s0 s :
  job_inv p (lifecycle s0 ++ opening p) s →
  length (messages s0) ≤ length (messages s).
Proof.
  intros Hinv.
  assert (∃ l, lifecycle s = lifecycle s0 ++ l) as [l Hl].
  { destruct Hinv as [Ha|[Hr|Hf]].
    - destruct Ha as (_ & _ & _ & _ & _ & ->). eauto.
    - destruct Hr as (t & notes & j & _ & _ & _ & _ & _ & _ & _ & _ & _ & _ & ->).
      rewrite <- app_assoc. eauto.
    - destruct Hf as (_ & _ & [(t & notes & _ & _ & ->)| ->]);
        rewrite <- app_assoc; eauto. }
  rewrite !messages_lifecycle, Hl, omap_app, length_app. lia.
Qed.

(** *** The listeners of a job *)

Lemma listening_frame s s' :
  job s' = job s → workerListeners s' = workerListeners s →
  listening s → listening s'.
Proof. intros Ej Hw. unfold listening. by rewrite Ej, Hw. Qed.

Lemma listening_finish_target note s :
  listening s → listening (finish_target note s).
Proof.
  unfold listening, finish_target, next, cleanup, sendProgress.
  destruct (job s) as [j|] eqn:Ej; [|by rewrite Ej].
  simpl. destruct (queue j) as [|u r]; simpl.
  - destruct (tabId j) as [[|t]|]; destruct (debugKeepTab j); simpl;
      intros [Hw Ho]; rewrite Ho; simpl; by rewrite ?Hw.
  - done.
Qed.

Lemma listening_workerHandler sender msg s :
  listening s → listening (workerHandler sender msg s).
Proof.
  intros Hl. unfold workerHandler.
  destruct (job s) as [j|] eqn:Ej; [|done].
  destruct sender as [t|]; [|done].
  case_bool_decide; [|done].
  destruct msg as [ok reason|]; [|done].
  apply listening_finish_target.
  unfold listening in *. simpl. by rewrite Ej in Hl.
Qed.

(** A job started at rest has one worker-message listener from the
    moment it has its tab until it is over. *)
Lemma listening_handle p pre e s :
  is_request e = false → job_inv p pre s → listening s →
  listening (handle e s).
Proof.
  intros He Hinv Hl. unfold handle.
  destruct (enabled e s) eqn:En; simpl; [|done].
  destruct e as [| |tab|t c|t err|t|sender msg|t|ms]; try discriminate He.
  - destruct Hinv as [Ha|[Hr|Hf]].
    + destruct Ha as (Ej & _ & _ & _ & Hw & _).
      unfold onCreated, listening, cleanup. simpl. rewrite Ej. simpl.
      destruct tab as [[|t]|]; simpl; by rewrite ?Hw.
    + destruct Hr as (? & ? & ? & _ & Hc & _).
      unfold enabled in En. rewrite Hc in En. by destruct tab.
    + destruct Hf as (_ & Hc & _).
      unfold enabled in En. rewrite Hc in En. by destruct tab.
  - destruct (onUpdatedAdded _); [|by apply (listening_frame s)].
    unfold onUpdated. simpl.
    destruct (job s) eqn:Ej; [|by apply (listening_frame s)].
    destruct (_ && _); by apply (listening_frame s).
  - unfold onInjected. destruct err.
    + apply listening_finish_target. by apply (listening_frame s).
    + simpl. destruct (job s) as [j|] eqn:Ej; [|by apply (listening_frame s)].
      unfold listening in *. simpl. by rewrite Ej in Hl.
  - apply listening_finish_target. by apply (listening_frame s).
  - apply (iter_preserves _ listening).
    + intros y. apply listening_workerHandler.
    + by apply (listening_frame s).
  - match goal with |- context [onRemoved t ?x] =>
      destruct (onRemoved_frame t x) as (E1 & _ & _ & _ & W1 & _) end.
    by apply (listening_frame s).
  - by apply (listening_frame s).
Qed.

Lemma listening_run p pre evs s :
  rejected p = false → no_request evs = true →
  job_inv p pre s → listening s → listening (run evs s).
Proof.
  intros Hp. revert s. induction evs as [|e evs IH]; intros s Hn Hs Hl; [done|].
  simpl in Hn. apply andb_true_iff in Hn as [He Hn].
  apply negb_true_iff in He.
  apply IH; [done| |].
  - by apply job_inv_handle.
  - by apply (listening_handle p pre).
Qed.

Lemma listening_start p s0 :
  idle s0 → rejected p = false → listening (start p s0).
Proof.
  intros (Ej & _ & _ & _ & Hw) Hp.
  rewrite start_accepted, cleanup_idle by done.
  unfold listening. simpl. by rewrite Hw.
Qed.

(** Every way a target ends sends one progress event, the next in the
    count, and after the last target the completion event. *)
Lemma target_ends p s0 s j note s1 :
  job_inv p (lifecycle s0 ++ opening p) s →
  job s = Some j → tabId j ≠ None →
  job s1 = Some j ∨ job s1 = Some (with_progress (done j) None j) →
  messages s1 = messages s →
  messages_since s0 (finish_target note s1)
  = messages_since s0 s
    ++ Progress (S (done j)) (length (targets p))
         (url_or_null (targets p !! done j)) note
       :: (if bool_decide (S (done j) = length (targets p))
           then [Complete (S (done j)) (S (done j)) "All videos processed."]
           else []).
Proof.
  intros Hinv Ej Htab Ej1 Hm1.
  assert (Hr : total j = length (targets p) ∧ done j < length (targets p)
               ∧ currentUrl j = targets p !! done j
               ∧ queue j = drop (S (done j)) (targets p)).
  { destruct Hinv as [Ha|[Hr|Hf]].
    - destruct Ha as (Ej' & _). rewrite Ej in Ej'. injection Ej' as ->. done.
    - destruct Hr as (t & notes & j' & Ej' & _ & _ & _ & _ & Etot & Edone
                      & Hlt & Ecur & Eq & _).
      rewrite Ej in Ej'. injection Ej' as <-. by rewrite Edone.
    - destruct Hf as (Ej' & _). congruence. }
  destruct Hr as (Etot & Hlt & Ecur & Eq).
  apply messages_since_more; [by apply (job_inv_since p)|].
  rewrite <- Hm1.
  assert (∃ j1, job s1 = Some j1 ∧ done j1 = done j ∧ total j1 = total j
                ∧ currentUrl j1 = currentUrl j ∧ queue j1 = queue j)
    as (j1 & Ej1' & Ed1 & Et1 & Ec1 & Eq1)
    by (destruct Ej1 as [->| ->]; eauto 10).
  rewrite (messages_finish_target note s1 j1 Ej1'),
    Ed1, Et1, Ec1, Eq1, Etot, Ecur, Eq.
  do 2 f_equal. case_bool_decide as Hd.
  - rewrite drop_ge by lia. by rewrite Hd.
  - destruct (drop _ _) eqn:Ed; [|done].
    apply (f_equal length) in Ed. rewrite length_drop in Ed. simpl in Ed. lia.
Qed.

(** *** A job that is over *)

Lemma over_handle e s :
  is_request e = false → job s = None → creating s = 0 →
  job (handle e s) = None ∧ creating (handle e s) = 0
  ∧ lifecycle (handle e s) = lifecycle s.
Proof.
  intros He Ej Hc. unfold handle.
  destruct (enabled e s) eqn:En; simpl; [|done].
  destruct e as [| |tab|t c|t err|t|sender msg|t|ms]; try discriminate He.
  - unfold enabled in En. rewrite Hc in En. by destruct tab.
  - destruct (onUpdatedAdded _); [|done].
    unfold onUpdated. simpl. by rewrite Ej.
  - unfold onInjected. rewrite finish_target_idle by done.
    simpl. rewrite Ej. by destruct err.
  - unfold onTimeout. by rewrite finish_target_idle.
  - rewrite (iter_fixed _ (fun y => job y = None));
      [done|apply workerHandler_idle|done].
  - match goal with |- context [onRemoved t ?x] =>
      destruct (onRemoved_frame t x) as (E1 & C1 & _ & _ & _ & L1) end.
    by rewrite E1, C1, L1.
  - done.
Qed.

Lemma over_run evs s :
  no_request evs = true → job s = None → creating s = 0 →
  job (run evs s) = None ∧ lifecycle (run evs s) = lifecycle s.
Proof.
  revert s. induction evs as [|e evs IH]; intros s Hn Ej Hc; [done|].
  simpl in Hn. apply andb_true_iff in Hn as [He Hn].
  apply negb_true_iff in He.
  destruct (over_handle e s He Ej Hc) as (Ej' & Hc' & <-).
  by apply IH.
Qed.

(** When the browser gives no tab, the job is over at once: its start
    and the completion event with no success are all it ever sends. *)
Lemma refused_tab_run p s0 evs :
  idle s0 → rejected p = false → no_request evs = true →
  let s := run (TabCreated None :: evs) (start p s0) in
  job s = None
  ∧ messages_since s0 s
    = [Started (length (targets p)) (mode_of p);
       Complete 0 (length (targets p)) "Failed to create hidden tab."].
Proof.
  intros Hi Hp Hn s. subst s. simpl.
  pose proof (start_awaiting p s0 Hi Hp) as (Ej & Hc & _ & _ & _ & Hl).
  set (s1 := handle (TabCreated None) (start p s0)).
  assert (H1 : job s1 = None ∧ creating s1 = 0
               ∧ lifecycle s1
                 = lifecycle s0
                   ++ opening p
                   ++ [SendMessage (Complete 0 (length (targets p))
                                      "Failed to create hidden tab.")]).
  { subst s1.
    replace (handle (TabCreated None) (start p s0))
      with (onCreated None
              (see_tab None
                 (set_pending 0 (injecting (start p s0)) (start p s0))))
      by (unfold handle, enabled; by rewrite Hc).
    match goal with |- context [onCreated None ?x] =>
      destruct (onCreated_failed None x (new_job p) Ej eq_refl I)
        as (E1 & C1 & L1) end.
    rewrite E1, C1, L1.
    split_and!; [done..|].
    change (lifecycle (see_tab _ (set_pending _ _ ?x))) with (lifecycle x).
    by rewrite Hl, <- app_assoc. }
  destruct H1 as (Ej1 & Hc1 & Hl1).
  destruct (over_run evs s1 Hn Ej1 Hc1) as (Ej2 & Hl2).
  split; [done|].
  rewrite Hl1 in Hl2. by rewrite (messages_since_app _ _ _ Hl2).
Qed.

(** C4, as the code has it: within one job the progress events count
    up one by one.  Take any job started on an idle service worker and
    any events that follow, short of a new request.  The [done] values
    of the progress events the job has sent so far are [1, 2, ..., k]
    and their targets are the first [k] targets of the queue: one event
    per target, in queue order, whatever the notes say (failures count
    like successes).  While the job works in its tab, [k] targets have
    ended and the next one of the queue is the current target; every
    way that target can end (the injection fails, the timer fires, the
    worker answers) sends exactly one more progress event, with [done]
    [k + 1] and the note of that ending, followed by the completion
    event when the target was the last.  Once the job has completed
    with [All videos processed.], [k] is [total]; a job that the
    browser refused the tab ends with no progress event at all. *)
Theorem progress_once_per_target p s0 evs :
  idle s0 → rejected p = false → no_request evs = true →
  let s := run evs (start p s0) in
  ∃ k, k ≤ length (targets p)
    ∧ progress_dones (messages_since s0 s) = seq 1 k
    ∧ progress_urls (messages_since s0 s)
      = (fun u => url_or_null (Some u)) <$> take k (targets p)
    ∧ count_since is_progress s0 s = k
    ∧ (∀ j, job s = Some j →
            done j = k
            ∧ (tabId j ≠ None →
               currentUrl j = targets p !! k
               ∧ queue j = drop (S k) (targets p)))
    ∧ (∀ c n, Complete c n "All videos processed." ∈ messages_since s0 s →
              k = length (targets p))
    ∧ (∀ c n, Complete c n "Failed to create hidden tab." ∈ messages_since s0 s →
              k = 0)
    ∧ (∀ j t e note, job s = Some j → tabId j = Some t →
         (∃ t', e = ScriptInjected t' true) ∧ note = "Inject failed; skipping."
         ∨ (∃ tm, e = TimerFired tm) ∧ note = "Timeout; skipping."
         ∨ (∃ ok reason,
              e = WorkerMessage (Some t) (VideoWorkerResult ok reason)
              ∧ note = result_note j ok reason) →
         enabled e s = true →
         messages_since s0 (handle e s)
         = messages_since s0 s
           ++ Progress (S k) (length (targets p))
                (url_or_null (targets p !! k)) note
              :: (if bool_decide (S k = length (targets p))
                  then [Complete (S k) (S k) "All videos processed."]
                  else [])).
Proof.
  intros Hi Hp Hn s. subst s.
  destruct (single_job_messages p s0 evs Hi Hp Hn)
    as (notes & ending & Hm & Hend).
  assert (Hstep : ∀ j t e note,
            job (run evs (start p s0)) = Some j → tabId j = Some t →
            (∃ t', e = ScriptInjected t' true) ∧ note = "Inject failed; skipping."
            ∨ (∃ tm, e = TimerFired tm) ∧ note = "Timeout; skipping."
            ∨ (∃ ok reason,
                 e = WorkerMessage (Some t) (VideoWorkerResult ok reason)
                 ∧ note = result_note j ok reason) →
            enabled e (run evs (start p s0)) = true →
            messages_since s0 (handle e (run evs (start p s0)))
            = messages_since s0 (run evs (start p s0))
              ++ Progress (S (length notes)) (length (targets p))
                   (url_or_null (targets p !! length notes)) note
                 :: (if bool_decide (S (length notes) = length (targets p))
                     then [Complete (S (length notes)) (S (length notes))
                             "All videos processed."]
                     else [])).
  { intros j t e note Ej Et He En.
  pose proof (single_job_inv p s0 evs Hi Hp Hn) as Hinv.
  pose proof (listening_run p _ evs _ Hp Hn
                (or_introl (start_awaiting p s0 Hi Hp))
                (listening_start p s0 Hi Hp)) as Hls.
  assert (Hk : done j = length notes).
  { destruct (single_job_shape p s0 evs Hi Hp Hn)
      as [notes' j' Ej' Edone _ _ _ _ Hm'|notes' Ej' _ _|Ej' _];
      try congruence.
    rewrite Ej in Ej'. injection Ej' as <-.
    rewrite Hm in Hm'. injection Hm' as Hm'.
    apply (f_equal length) in Hm'.
    rewrite length_app, !length_progress_events in Hm'.
    destruct Hend as [(-> & _)|[(_ & _ & E)|(_ & _ & E)]];
      [simpl in Hm'; lia|congruence..]. }
  rewrite <- Hk.
  assert (Ht : tabId j ≠ None) by congruence.
  unfold handle. rewrite En. cbn [negb].
  destruct He as [[[t' ->] ->]|[[[tm ->] ->]|(ok & reason & -> & ->)]].
  * unfold onInjected.
    apply (target_ends p s0 _ j); [done..|by left|done].
  * unfold onTimeout.
    apply (target_ends p s0 _ j); [done..|by left|done].
  * unfold listening in Hls. rewrite Ej, Et in Hls.
    destruct Hls as [Hw _].
    change (workerListeners (see_tab (Some t) ?x))
      with (workerListeners x).
    rewrite Hw. change (Nat.iter 1 ?f ?x) with (f x).
    unfold workerHandler.
    change (job (see_tab (Some t) ?x)) with (job x).
    rewrite Ej, Et, bool_decide_eq_true_2 by done.
    apply (target_ends p s0 _ j); [done..|by right|done]. }
  assert (Hk : length notes ≤ length (targets p)
               ∧ progress_dones ending = [] ∧ progress_urls ending = []
               ∧ filter (fun m => Is_true (is_progress m)) ending = []).
  { destruct Hend as [(-> & ? & _)|[(-> & ? & _)|(-> & -> & _)]];
      split_and!; try done; simpl; lia. }
  destruct Hk as (Hle & Hd & Hu & Hf).
  exists (length notes). split; [done|].
  unfold count_since. rewrite Hm. unfold progress_dones, progress_urls in *.
  simpl. rewrite !omap_app, Hd, Hu, !app_nil_r.
  split; [apply progress_dones_events|].
  split; [by apply progress_urls_events|].
  split.
  { rewrite filter_cons. simpl. rewrite filter_app, Hf, app_nil_r.
    rewrite filter_progress_events by done. apply length_progress_events. }
  split.
  - intros j Ej.
    destruct (single_job_shape p s0 evs Hi Hp Hn)
      as [notes' j' Ej' Edone _ _ _ Hrun Hm'|notes' Ej' _ _|Ej' _];
      try congruence.
    rewrite Ej in Ej'. injection Ej' as <-.
    assert (length notes' = length notes) as Hl.
    { rewrite Hm in Hm'. injection Hm' as Hm'.
      apply (f_equal length) in Hm'.
      rewrite length_app, !length_progress_events in Hm'.
      destruct Hend as [(-> & _)|[(_ & _ & E)|(_ & _ & E)]];
        [simpl in Hm'; lia|congruence..]. }
    rewrite <- Hl. split; [done|]. exact Hrun.
  - split; [|split].
    + intros c n Hc.
      apply elem_of_cons in Hc as [?|Hc]; [done|].
      apply elem_of_app in Hc as [Hc|Hc];
        [by apply progress_event_inv in Hc|].
      destruct Hend as [(-> & _)|[(_ & ? & _)|(-> & _)]]; [|done|].
      * by apply not_elem_of_nil in Hc.
      * apply list_elem_of_singleton in Hc. discriminate Hc.
    + intros c n Hc.
      apply elem_of_cons in Hc as [?|Hc]; [done|].
      apply elem_of_app in Hc as [Hc|Hc];
        [by apply progress_event_inv in Hc|].
      destruct Hend as [(-> & _)|[(-> & _)|(_ & -> & _)]]; [| |done].
      * by apply not_elem_of_nil in Hc.
      * apply list_elem_of_singleton in Hc. discriminate Hc.
    + intros j t e note Ej Et He En.
      by rewrite (Hstep j t e note Ej Et He En), Hm.
Qed.


(** C2, as the code has it: a job started on an idle service worker
    never produces more results (progress events) than it has targets,
    and once its queue has emptied it has produced exactly [total] of
    them, one for each target of the queue and in queue order, where
    [total] is the number of distinct normalized targets; this holds
    whatever ended each target (failed injection, timeout, or the
    worker's answer).  When the browser gives the job no tab, the job
    is over at once, with its start and a completion event that
    reports no success, and it never produces a result. *)
Theorem one_result_per_target p s0 evs :
  idle s0 → rejected p = false → no_request evs = true →
  let s := run evs (start p s0) in
  count_since is_progress s0 s ≤ length (targets p)
  ∧ length (targets p)
    = size (list_to_set (C := gset string)
              (stripParams <$> (toAbs <$> default [] (p_videoUrls p))))
  ∧ ((∃ c n, Complete c n "All videos processed." ∈ messages_since s0 s) →
     count_since is_progress s0 s = length (targets p)
     ∧ progress_urls (messages_since s0 s)
       = (fun u => url_or_null (Some u)) <$> targets p
     ∧ progress_dones (messages_since s0 s) = seq 1 (length (targets p)))
  ∧ (∀ evs', evs = TabCreated None :: evs' →
       job s = None
       ∧ messages_since s0 s
         = [Started (length (targets p)) (mode_of p);
            Complete 0 (length (targets p)) "Failed to create hidden tab."])
  ∧ (∀ c n, Complete c n "Failed to create hidden tab." ∈ messages_since s0 s →
       c = 0 ∧ count_since is_progress s0 s = 0).
Proof.
  intros Hi Hp Hn s. subst s.
  destruct (single_job_messages p s0 evs Hi Hp Hn)
    as (notes & ending & Hm & Hend).
  assert (Hrefused : ∀ evs', evs = TabCreated None :: evs' →
            job (run evs (start p s0)) = None
            ∧ messages_since s0 (run evs (start p s0))
              = [Started (length (targets p)) (mode_of p);
                 Complete 0 (length (targets p))
                   "Failed to create hidden tab."]).
  { intros evs' ->. apply refused_tab_run; [done..|].
    simpl in Hn. exact Hn. }
  assert (Hfailed : ∀ c n,
            Complete c n "Failed to create hidden tab."
              ∈ messages_since s0 (run evs (start p s0)) →
            c = 0 ∧ count_since is_progress s0 (run evs (start p s0)) = 0).
  { intros c n Hc. unfold count_since. rewrite Hm in *.
    apply elem_of_cons in Hc as [?|Hc]; [done|].
    apply elem_of_app in Hc as [Hc|Hc];
      [by apply progress_event_inv in Hc|].
    destruct Hend as [(-> & _)|[(-> & _)|(-> & -> & _)]].
    - by apply not_elem_of_nil in Hc.
    - apply list_elem_of_singleton in Hc. discriminate Hc.
    - apply list_elem_of_singleton in Hc. by injection Hc as -> _. }
  split_and!; [| | |exact Hrefused|exact Hfailed];
    clear Hrefused Hfailed; [|apply length_uniq|].
  all: unfold count_since; rewrite Hm.
  all: rewrite !filter_cons, !filter_app; simpl.
  all: rewrite (filter_progress_events is_progress) by done.
  all: rewrite length_app, length_progress_events.
  { destruct Hend as [(-> & ? & _)|[(-> & ? & _)|(-> & -> & _)]]; simpl; lia. }
  intros (c & n & Hc).
  apply elem_of_cons in Hc as [?|Hc]; [done|].
  apply elem_of_app in Hc as [Hc|Hc];
    [by apply progress_event_inv in Hc|].
  destruct Hend as [(-> & _)|[(-> & Hlen & _)|(-> & _)]].
  - by apply not_elem_of_nil in Hc.
  - rewrite filter_cons, filter_nil. simpl.
    split; [lia|]. split.
    + unfold progress_urls. simpl. rewrite omap_app. simpl.
      rewrite app_nil_r.
      fold (progress_urls (progress_events (targets p) notes)).
      rewrite progress_urls_events by lia.
      by rewrite Hlen, firstn_all.
    + unfold progress_dones. simpl. rewrite omap_app. simpl.
      rewrite app_nil_r.
      fold (progress_dones (progress_events (targets p) notes)).
      by rewrite progress_dones_events, Hlen.
  - apply list_elem_of_singleton in Hc. discriminate Hc.
Qed.


Lemma filter_rounds_remove U t keep notes :
  length notes < length U →
  filter (fun e => Is_true (is_remove e)) (rounds U t keep notes) = [].
Proof.
  induction notes as [|note notes IH] using rev_ind; intros Hlt; [done|].
  rewrite length_app in Hlt. simpl in Hlt.
  rewrite rounds_snoc, filter_app, IH by lia. unfold round.
  destruct (lookup_lt_is_Some_2 U (S (length notes))) as [u ->]; [lia|done].
Qed.


(** *** Closing the hidden tab from outside *)


Lemma tabs_onRemoved t s : tabs (onRemoved t s) = tabs s.
Proof. unfold onRemoved. by repeat case_bool_decide. Qed.

Lemma messages_onRemoved t s : messages (onRemoved t s) = messages s.
Proof.
  rewrite !messages_lifecycle.
  by destruct (onRemoved_frame t s) as (_ & _ & _ & _ & _ & ->).
Qed.

(** The listener of [tabs.onRemoved] leaves the job as it is, even when
    the tab that went away is the job's own. *)
Lemma removal_goes_unnoticed t s :
  job (handle (TabRemoved t) s) = job s
  ∧ messages (handle (TabRemoved t) s) = messages s
  ∧ timers (handle (TabRemoved t) s) = timers s
  ∧ injecting (handle (TabRemoved t) s) = injecting s
  ∧ creating (handle (TabRemoved t) s) = creating s.
Proof.
  unfold handle. destruct (enabled _ s); cbn [negb]; [|done].
  match goal with |- context [onRemoved t ?x] =>
    destruct (onRemoved_frame t x) as (E1 & C1 & T1 & I1 & _ & _);
    rewrite (messages_onRemoved t x) end.
  by rewrite E1, C1, T1, I1.
Qed.

(** The same listener does tear down the legacy bulk job when its tab
    goes away. *)
Lemma legacy_bulk_teardown t s :
  currentBulkTabId (registries s) = Some t →
  let r := registries (onRemoved t s) in
  currentBulkTabId r = None ∧ pendingBulkJobs r = []
  ∧ bulkScriptInjected r = false.
Proof.
  intros E. unfold onRemoved. simpl. rewrite E.
  by rewrite bool_decide_eq_true_2.
Qed.

(** A stalled job stays stalled: no event but a new request moves it
    or makes it send anything. *)
Lemma stalled_handle t e s :
  is_request e = false → stalled t s →
  stalled t (handle e s)
  ∧ job (handle e s) = job s ∧ messages (handle e s) = messages s.
Proof.
  intros He Hst. pose proof Hst as (j & Ej & Etab & Egone & Hti & Hin & Hc).
  unfold handle. destruct (enabled e s) eqn:En; simpl; [|done].
  destruct e as [| |tab|t' c|t' err|tm|sender msg|t'|ms]; try discriminate He.
  - unfold enabled in En. rewrite Hc in En. by destruct tab.
  - assert (t' ≠ t) as Hne.
    { intros ->. unfold enabled, tab_alive in En. by rewrite Egone in En. }
    assert (stalled t (see_tab (Some t') s)) as Hst'.
    { exists j. split_and!; try done. simpl.
      destruct (tabs s !! t'); [done|]. by rewrite lookup_insert_ne. }
    destruct (onUpdatedAdded _); [|done].
    unfold onUpdated. simpl. rewrite Ej, Etab.
    rewrite bool_decide_eq_false_2 by congruence. done.
  - unfold enabled in En. rewrite Hin in En.
    by rewrite bool_decide_eq_false_2 in En by apply not_elem_of_nil.
  - unfold enabled in En. by rewrite Hti in En.
  - assert (stalled t (see_tab sender s)) as Hst'.
    { exists j. split_and!; try done. simpl.
      destruct sender as [t'|]; [|done].
      destruct (tabs s !! t') eqn:E'; [done|].
      rewrite lookup_insert_ne; [done|]. intros ->. congruence. }
    rewrite (iter_fixed _ (fun y => y = see_tab sender s)); [done| |done].
    intros y ->. unfold workerHandler. simpl. rewrite Ej.
    destruct sender as [t'|]; [|done]. rewrite Etab.
    case_bool_decide as Hd; [|done].
    injection Hd as <-. unfold enabled, tab_alive in En.
    by rewrite Egone in En.
  - assert (t' ≠ t) as Hne.
    { intros ->. unfold enabled in En. by rewrite Egone in En. }
    match goal with |- context [onRemoved t' ?x] =>
      destruct (onRemoved_frame t' x) as (E1 & C1 & T1 & I1 & _ & _);
      rewrite (messages_onRemoved t' x) end.
    split; [|done].
    exists j. rewrite E1, C1, T1, I1. split_and!; try done.
    rewrite tabs_onRemoved. simpl. by rewrite lookup_insert_ne.
  - done.
Qed.

Lemma stalled_run t evs s :
  no_request evs = true → stalled t s →
  job (run evs s) = job s ∧ messages (run evs s) = messages s.
Proof.
  revert s. induction evs as [|e evs IH]; intros s Hn Hst; [done|].
  simpl in Hn. apply andb_true_iff in Hn as [He Hn].
  apply negb_true_iff in He.
  destruct (stalled_handle t e s He Hst) as (Hst' & <- & <-).
  by apply IH.
Qed.

(** *** A page that does not finish loading *)

(** The timer of a target is armed in the callback of [executeScript],
    which [onUpdated] calls when the tab reports that its page is
    complete.  Until then nothing is armed: whatever else happens, and
    however much time passes, the job stays on its target and sends
    nothing. *)
Lemma loading_handle t e s :
  still_loading t e = true → loading t s →
  loading t (handle e s)
  ∧ job (handle e s) = job s ∧ messages (handle e s) = messages s.
Proof.
  intros He Hld. pose proof Hld as (j & Ej & Etab & Hti & Hin & Hc).
  unfold handle. destruct (enabled e s) eqn:En; simpl; [|done].
  destruct e as [| |tab|t' c|t' err|tm|sender msg|t'|ms]; try discriminate He.
  - unfold enabled in En. rewrite Hc in En. by destruct tab.
  - assert (loading t (see_tab (Some t') s)) as Hld' by (by exists j).
    destruct (onUpdatedAdded _); [|done].
    unfold onUpdated. simpl. rewrite Ej, Etab.
    simpl in He. apply negb_true_iff, andb_false_iff in He as [He| ->].
    + apply Nat.eqb_neq in He.
      rewrite bool_decide_eq_false_2 by congruence. done.
    + by rewrite andb_false_r.
  - unfold enabled in En. rewrite Hin in En.
    by rewrite bool_decide_eq_false_2 in En by apply not_elem_of_nil.
  - unfold enabled in En. by rewrite Hti in En.
  - assert (loading t (see_tab sender s)) as Hld' by (by exists j).
    rewrite (iter_fixed _ (fun y => y = see_tab sender s)); [done| |done].
    intros y ->. unfold workerHandler. simpl. rewrite Ej.
    destruct sender as [t'|]; [|done]. rewrite Etab.
    destruct msg as [ok reason|]; [|by case_bool_decide].
    simpl in He. apply negb_true_iff, Nat.eqb_neq in He.
    by rewrite bool_decide_eq_false_2 by congruence.
  - match goal with |- context [onRemoved t' ?x] =>
      destruct (onRemoved_frame t' x) as (E1 & C1 & T1 & I1 & _ & _);
      rewrite (messages_onRemoved t' x) end.
    split; [|done]. exists j. by rewrite E1, C1, T1, I1.
  - split; [|done]. by exists j.
Qed.

Lemma loading_run t evs s :
  forallb (still_loading t) evs = true → loading t s →
  loading t (run evs s)
  ∧ job (run evs s) = job s ∧ messages (run evs s) = messages s.
Proof.
  revert s. induction evs as [|e evs IH]; intros s Hn Hld; [done|].
  simpl in Hn. apply andb_true_iff in Hn as [He Hn].
  destruct (loading_handle t e s He Hld) as (Hld' & <- & <-).
  by apply IH.
Qed.

(** *** Workers that never answer *)

Lemma timer_delay_nonneg d : (0 <= timer_delay d)%Z.
Proof. unfold timer_delay. lia. Qed.

Lemma complete_time_emit e s :
  complete_time s = None →
  complete_time (emit e s)
  = match e with SendMessage (Complete _ _ _) => Some (now s) | _ => None end.
Proof.
  unfold complete_time, emit. simpl. rewrite omap_app. intros Hn.
  destruct (omap _ (log s)); [by destruct e as [[]| | | | | | |]|].
  discriminate Hn.
Qed.

Lemma complete_time_stays e s tm :
  complete_time s = Some tm → complete_time (emit e s) = Some tm.
Proof.
  unfold complete_time, emit. simpl. rewrite omap_app.
  by destruct (omap _ (log s)).
Qed.

Lemma complete_time_messages s :
  Forall (fun m => is_complete m = false) (messages s) →
  complete_time s = None.
Proof.
  unfold complete_time, messages.
  induction (log s) as [|[tm e] l IH]; [done|].
  destruct e as [m| | | | | | |]; simpl; try exact IH.
  intros Hall. apply Forall_cons in Hall as [Hm Hall].
  destruct m; try discriminate Hm; simpl; by apply IH.
Qed.

Lemma complete_time_cleanup s : complete_time (cleanup s) = complete_time s.
Proof.
  unfold cleanup. destruct (job s) as [j|]; [|done].
  unfold complete_time, tabs_remove.
  destruct (tabId j) as [[|t]|]; destruct (debugKeepTab j); simpl;
    rewrite ?omap_app; simpl; by rewrite ?app_nil_r.
Qed.

(** The end of a target that is not the last one, as a state. *)
Lemma finish_target_more note s j u r :
  job s = Some j → queue j = u :: r →
  finish_target note s
  = emit (TabsUpdate (tabId j) u)
      (set_job (Some (with_target r (Some u) (with_progress (S (done j)) None j)))
         (clearTimer (videoTimer j)
            (emit (SendMessage (Progress (S (done j)) (total j)
                                  (url_or_null (currentUrl j)) note)) s))).
Proof.
  intros Ej Eq. unfold finish_target, next, sendProgress. rewrite Ej. simpl.
  by rewrite Eq.
Qed.

(** The end of the last target, as a state. *)
Lemma finish_target_last note s j :
  job s = Some j → queue j = [] →
  finish_target note s
  = cleanup
      (emit (SendMessage (Complete (S (done j)) (total j) "All videos processed."))
         (set_job (Some (with_progress (S (done j)) None j))
            (clearTimer (videoTimer j)
               (emit (SendMessage (Progress (S (done j)) (total j)
                                     (url_or_null (currentUrl j)) note)) s)))).
Proof.
  intros Ej Eq. unfold finish_target, next, sendProgress. rewrite Ej. simpl.
  by rewrite Eq.
Qed.

(** One silent round: the page loads, the timer is armed when the
    script is in, and fires; the target ends as timed out. *)
Lemma silent_round_step p t k load s :
  quiet p t k s → k < length (targets p) → (0 <= load)%Z →
  let D := timer_delay (perVideoTimeoutMs (new_job p)) in
  let s' := run (silent_round D t k load) s in
  all_enabled (silent_round D t k load) s = true
  ∧ now s' = (now s + load + D)%Z
  ∧ (S k < length (targets p) → quiet p t (S k) s')
  ∧ (S k = length (targets p) →
     job s' = None
     ∧ complete_time s' = Some (now s + load + D)%Z
     ∧ messages s'
       = Started (length (targets p)) (mode_of p)
         :: progress_events (targets p) (replicate (S k) "Timeout; skipping.")
         ++ [Complete (length (targets p)) (length (targets p))
               "All videos processed."]).
Proof.
  intros (j & Ej & Etab & Etm & Etot & Edone & Ecur & Eq & Evt & Hup & Hti
          & Hin & Hseq & Halive & Hct & Hm) Hk Hload D s'.
  pose proof (timer_delay_nonneg (perVideoTimeoutMs (new_job p))) as HD.
  fold D in HD.
  (* the page loads *)
  set (s1 := set_now (now s + load) s).
  assert (H1 : handle (Tick load) s = s1).
  { unfold handle, enabled. by rewrite bool_decide_eq_true_2. }
  (* it is complete: the script is requested *)
  set (s2 := emit (ExecuteScript t)
               (set_pending (creating s1) (injecting s1 ++ [t])
                  (see_tab (Some t) s1))).
  assert (H2 : handle (TabUpdated t true) s1 = s2).
  { unfold handle, enabled. change (tab_alive t s1) with (tab_alive t s).
    rewrite Halive. simpl. rewrite Hup. unfold onUpdated. simpl.
    rewrite Ej, Etab, bool_decide_eq_true_2 by done. done. }
  (* the script is in: the timer is armed, the worker is told to run *)
  set (j3 := with_progress (done j) (Some (timerSeq s)) j).
  set (s3 := emit (TabsSendMessage t (run_payload j3))
               (set_job (Some j3)
                  (setTimeout (perVideoTimeoutMs j)
                     (set_pending (creating s2) [] s2)).2)).
  assert (H3 : handle (ScriptInjected t false) s2 = s3).
  { unfold handle, enabled. simpl. rewrite Hin. simpl.
    rewrite !bool_decide_eq_true_2 by (done || apply list_elem_of_here).
    simpl. unfold onInjected. simpl. rewrite Ej. done. }
  (* the worker stays silent until the timer is due *)
  set (s4 := set_now (now s3 + D) s3).
  assert (H4 : handle (Tick D) s3 = s4).
  { unfold handle, enabled. by rewrite bool_decide_eq_true_2. }
  assert (Htimers : timers s4 = [(timerSeq s, (now s + load + D)%Z)]).
  { simpl. rewrite Hti, Etm. done. }
  assert (En5 : enabled (TimerFired (Pos.of_succ_nat k)) s4 = true).
  { unfold enabled. rewrite Htimers, <- Hseq. simpl.
    rewrite Pos.eqb_refl. simpl. rewrite orb_false_r. apply Z.leb_le. lia. }
  set (s5 := finish_target "Timeout; skipping."
               (clearTimeout (Pos.of_succ_nat k) s4)).
  assert (H5 : handle (TimerFired (Pos.of_succ_nat k)) s4 = s5).
  { unfold handle. by rewrite En5. }
  assert (Hrun : s' = s5).
  { subst s'. unfold silent_round, run. simpl. by rewrite H1, H2, H3, H4, H5. }
  split.
  { unfold silent_round, all_enabled.
    rewrite H1, H2, H3, H4, En5. unfold enabled.
    rewrite !bool_decide_eq_true_2 by done.
    change (tab_alive t s1) with (tab_alive t s). rewrite Halive.
    simpl. rewrite Hin. simpl.
    by rewrite !bool_decide_eq_true_2 by (done || apply list_elem_of_here). }
  rewrite Hrun. clear Hrun H1 H2 H3 H4 H5 En5.
  assert (Hmsg : messages s4 = messages s).
  { unfold messages. simpl. rewrite !omap_app. simpl. by rewrite !app_nil_r. }
  assert (Hct4 : complete_time s4 = None).
  { unfold complete_time in *. simpl. rewrite !omap_app. simpl.
    by rewrite !app_nil_r. }
  assert (Halive4 : tab_alive t s4 = true).
  { unfold tab_alive in *. simpl. destruct (tabs s !! t) as [[]|] eqn:E;
      simpl; rewrite ?E, ?lookup_insert_eq; done. }
  destruct (queue j) as [|u r] eqn:Equeue.
  - (* the last target *)
    assert (Hlen : length (targets p) = S k).
    { symmetry in Eq. apply (f_equal length) in Eq.
      rewrite length_drop in Eq. simpl in Eq. lia. }
    subst s5.
    rewrite (finish_target_last _ _ j3) by done.
    match goal with |- context [cleanup ?x] =>
      destruct (cleanup_spec x) as (Ej5 & _ & _ & Hn5 & _);
      pose proof (messages_cleanup x) as Hm5;
      pose proof (complete_time_cleanup x) as Hc5 end.
    rewrite Ej5, Hn5, Hm5, Hc5. clear Ej5 Hn5 Hm5 Hc5.
    split; [done|]. split; [intros; lia|]. intros _.
    split; [done|]. split.
    + rewrite complete_time_emit; [done|].
      unfold complete_time in *. simpl. rewrite !omap_app. simpl.
      by rewrite !app_nil_r.
    + rewrite replicate_S_end, progress_events_snoc, length_replicate.
      rewrite messages_emit. unfold messages at 1. simpl.
      rewrite !omap_app. simpl. rewrite !app_nil_r.
      fold (messages s). rewrite Hm.
      rewrite Etot, Edone, Ecur, Hlen. simpl. by rewrite <- app_assoc.
  - (* there is a next target *)
    assert (Hu : targets p !! S k = Some u).
    { rewrite <- (Nat.add_0_r (S k)), <- lookup_drop, <- Eq. done. }
    subst s5.
    rewrite (finish_target_more _ _ j3 u r) by done.
    split; [done|]. split; [|intros Hlast; apply lookup_lt_Some in Hu; lia].
    intros _.
    exists (with_target r (Some u) (with_progress (S (done j)) None j3)).
    split_and!.
    + done.
    + exact Etab.
    + exact Etm.
    + exact Etot.
    + simpl. by rewrite Edone.
    + simpl. by rewrite Hu.
    + simpl. replace (S (S k)) with (S k + 1) by lia.
      by rewrite <- drop_drop, <- Eq.
    + done.
    + exact Hup.
    + simpl. rewrite Hti, Hseq. simpl.
      rewrite filter_cons, decide_False by (simpl; by intros []).
      done.
    + done.
    + simpl. by rewrite Hseq.
    + exact Halive4.
    + unfold complete_time in *. simpl. rewrite !omap_app. simpl.
      by rewrite !app_nil_r.
    + rewrite replicate_S_end, progress_events_snoc, length_replicate.
      unfold messages. simpl. rewrite !omap_app. simpl.
      rewrite !app_nil_r. fold (messages s). rewrite Hm.
      by rewrite Etot, Edone, Ecur.
Qed.

Lemma run_app evs1 evs2 s : run (evs1 ++ evs2) s = run evs2 (run evs1 s).
Proof. unfold run. apply foldl_app. Qed.

Lemma all_enabled_app evs1 evs2 s :
  all_enabled (evs1 ++ evs2) s
  = all_enabled evs1 s && all_enabled evs2 (run evs1 s).
Proof.
  revert s. induction evs1 as [|e evs1 IH]; intros s; [done|].
  simpl. by rewrite IH, andb_assoc.
Qed.

(** The rest of a silent run, from any target on. *)
Lemma silent_rounds_run p t loads k s :
  quiet p t k s → loads ≠ [] → k + length loads = length (targets p) →
  Forall (fun load => (0 <= load)%Z) loads →
  let D := timer_delay (perVideoTimeoutMs (new_job p)) in
  let s' := run (silent_rounds D t k loads) s in
  all_enabled (silent_rounds D t k loads) s = true
  ∧ job s' = None
  ∧ complete_time s'
    = Some (now s + foldr Z.add 0 loads + Z.of_nat (length loads) * D)%Z
  ∧ messages s'
    = Started (length (targets p)) (mode_of p)
      :: progress_events (targets p)
           (replicate (length (targets p)) "Timeout; skipping.")
      ++ [Complete (length (targets p)) (length (targets p))
            "All videos processed."].
Proof.
  intros Hq Hne Hlen Hpos D. revert k s Hq Hne Hlen.
  induction Hpos as [|load loads Hload Hpos IH]; intros k s Hq Hne Hlen; [done|].
  simpl in Hlen. cbn [silent_rounds]. cbv zeta.
  rewrite run_app, all_enabled_app.
  destruct (silent_round_step p t k load s Hq ltac:(lia) Hload)
    as (Hen & Hnow & Hmore & Hlast).
  fold D in Hen, Hnow, Hmore, Hlast. rewrite Hen. simpl andb.
  destruct loads as [|load' loads'].
  - destruct Hlast as (Ej & Hct & Hm); [simpl in Hlen; lia|].
    simpl in Hlen. cbn [silent_rounds run foldl all_enabled length foldr].
    split_and!; [done|exact Ej| |].
    + rewrite Hct. f_equal. lia.
    + rewrite Hm. by replace (length (targets p)) with (S k) by lia.
  - destruct (IH (S k) (run (silent_round D t k load) s)) as (He' & Ej & Hct & Hm);
      [apply Hmore; simpl in Hlen; lia|done|simpl in *; lia|].
    split_and!; [done..| |done].
    rewrite Hct, Hnow. f_equal.
    cbn [foldr length]. lia.
Qed.

(** What the timer does give.  The timer of a target is armed in the
    callback of a successful injection, for [perVideoTimeoutMs]
    milliseconds (30000 when the request names none).  When every page
    of a job finishes loading and no worker ever answers, each timer
    fires, each target is reported with the note [Timeout; skipping.],
    and the job completes after [total] timeouts: at the time the pages
    took to load plus [total] times the timeout. *)
Theorem silent_workers_time_out p t loads :
  rejected p = false → t ≠ 0 → length loads = length (targets p) →
  Forall (fun load => (0 <= load)%Z) loads →
  let D := timer_delay (default 30000%Z (p_perVideoTimeoutMs p)) in
  let s := run (silent_run p t loads) (start p init) in
  all_enabled (silent_run p t loads) (start p init) = true
  ∧ job s = None
  ∧ messages s
    = Started (length (targets p)) (mode_of p)
      :: progress_events (targets p)
           (replicate (length (targets p)) "Timeout; skipping.")
      ++ [Complete (length (targets p)) (length (targets p))
            "All videos processed."]
  ∧ complete_time s
    = Some (foldr Z.add 0 loads + Z.of_nat (length (targets p)) * D)%Z
  ∧ (∀ s0 j t0, job s0 = Some j → t0 ∈ injecting s0 →
       timers (handle (TabUpdated t0 true) s0) = timers s0
       ∧ timers (handle (ScriptInjected t0 false) s0)
         = timers s0
           ++ [(timerSeq s0, (now s0 + timer_delay (perVideoTimeoutMs j))%Z)]).
Proof.
  intros Hp Ht Hlen Hpos D s.
  destruct (targets_accepted p Hp) as (u & U & HU).
  destruct t as [|t']; [done|].
  set (s0 := handle (TabCreated (Some (S t'))) (start p init)).
  assert (Hen0 : enabled (TabCreated (Some (S t'))) (start p init) = true).
  { rewrite start_accepted by done. unfold enabled. simpl.
    by rewrite lookup_empty. }
  assert (Hq : quiet p (S t') 0 s0).
  { subst s0. unfold handle. rewrite Hen0. cbn [negb].
    rewrite start_accepted by done. unfold onCreated. simpl.
    eexists. split; [reflexivity|].
    split_and!; try done.
    - simpl. by rewrite HU.
    - unfold tab_alive. simpl. by rewrite lookup_empty, lookup_insert_eq. }
  destruct (silent_rounds_run p (S t') loads 0 s0 Hq) as (Hen & Ej & Hct & Hm);
    [intros ->; rewrite HU in Hlen; done|by simpl|done|].
  assert (Hnow0 : now s0 = 0%Z).
  { subst s0. unfold handle. rewrite Hen0. cbn [negb].
    rewrite start_accepted by done. by unfold onCreated. }
  assert (Hs : s = run (silent_rounds
                          (timer_delay (perVideoTimeoutMs (new_job p)))
                          (S t') 0 loads) s0) by done.
  split_and!.
  - unfold silent_run. cbn [all_enabled]. rewrite Hen0. exact Hen.
  - by rewrite Hs.
  - by rewrite Hs.
  - by rewrite Hs, Hct, Hnow0, Hlen.
  - intros s1 j t0 Ej1 Hin. split.
    + unfold handle. destruct (enabled _ s1); simpl; [|done].
      destruct (onUpdatedAdded s1); [|done]. unfold onUpdated. simpl.
      rewrite Ej1. by destruct (_ && _).
    + unfold handle, enabled. rewrite bool_decide_eq_true_2 by done.
      simpl. unfold onInjected. simpl. by rewrite Ej1.
Qed.

(** C3: [start] fails fast.  When the normalized target list is empty,
    or the request is a Set (not [clearAll]) that supplies neither
    playlist ids nor playlist names, [start] leaves no job behind, asks
    for no tab, and sends exactly one progress event, the error, and
    no [Started]; this holds in whatever state the service worker is. *)
Theorem start_fails_fast p s :
  targets p = []
  ∨ (default false (p_clearAll p) = false
     ∧ default [] (p_playlistIds p) = []
     ∧ default [] (p_playlistNames p) = []) →
  job (start p s) = None
  ∧ creating (start p s) = creating s
  ∧ messages (start p s)
    = messages s ++ [Error "Missing videos or playlists."]
  ∧ filter (fun m => Is_true (is_started m)) (messages (start p s))
    = filter (fun m => Is_true (is_started m)) (messages s).
Proof.
  intros Hrej.
  assert (Hr : rejected p = true).
  { unfold rejected, lacks_playlists.
    destruct Hrej as [->|(-> & -> & ->)]; [done|by rewrite orb_true_r]. }
  rewrite start_rejected by done.
  destruct (cleanup_spec s) as (Ej & Hc & _).
  rewrite messages_emit, messages_cleanup. simpl.
  split_and!; [done..|].
  by rewrite filter_app, app_nil_r.
Qed.

(** *** The normal form of a target *)

Lemma stripTrailingSlashes_ends s :
  JsText.ends_with_slash (stripTrailingSlashes s) = false.
Proof.
  induction s as [|c r IH]; [done|]. simpl.
  destruct (Ascii.eqb c "/") eqn:Ec; simpl.
  - destruct (stripTrailingSlashes r) as [|d r'] eqn:Er; [done|].
    simpl. simpl in IH. exact IH.
  - destruct (stripTrailingSlashes r) as [|d r'] eqn:Er; simpl; [done|].
    simpl in IH. exact IH.
Qed.

Lemma stripParams_ends u : JsText.ends_with_slash (stripParams u) = false.
Proof.
  unfold stripParams. destruct (parseURL u None); apply stripTrailingSlashes_ends.
Qed.

(** The normal form of a URL that the parser reads, relative to
    [https://rumble.com] if need be: its serialization without query
    string and fragment, and without trailing slashes. *)
Lemma normal_form_parsed v x y :
  parseURL v (Some "https://rumble.com") = Some x →
  parseURL (toString x) None = Some y →
  stripParams (toAbs v)
  = stripTrailingSlashes
      (toString {| site := site y; pathname := pathname y;
                   search := None; hash := None |}).
Proof. intros Hx Hy. unfold toAbs, stripParams. by rewrite Hx, Hy. Qed.

(** A text that the parser refuses is kept, without trailing slashes. *)
Lemma normal_form_refused v :
  parseURL v (Some "https://rumble.com") = None → parseURL v None = None →
  stripParams (toAbs v) = stripTrailingSlashes v.
Proof. intros Hx Hy. unfold toAbs, stripParams. by rewrite Hx, Hy. Qed.

(** C7: an accepted [start] normalizes every submitted URL with
    [stripParams (toAbs u)], removes duplicates keeping the first
    occurrences, and makes the result the job's queue; [total] is the
    number of distinct normalized targets and is what [Started]
    announces.  Submitting the same URL twice gives [total = 1].  The
    normal form of a URL that the parser reads, relative to
    [https://rumble.com] if need be, is its serialization without query
    string and fragment and without trailing slashes, and a text that
    the parser refuses is kept, without trailing slashes: no target
    ends with a slash, and two URLs that the parser reads as the same
    site and path are one target, whatever their query strings and
    fragments. *)
Theorem start_normalizes_and_dedups p s :
  rejected p = false →
  ∃ j, job (start p s) = Some j
    ∧ queue j = targets p
    ∧ NoDup (queue j)
    ∧ (∀ u, u ∈ queue j
            ↔ ∃ v, v ∈ default [] (p_videoUrls p) ∧ u = stripParams (toAbs v))
    ∧ total j
      = size (list_to_set (C := gset string)
                (stripParams <$> (toAbs <$> default [] (p_videoUrls p))))
    ∧ total j = length (queue j)
    ∧ messages (start p s) = messages s ++ [Started (total j) (mode_of p)]
    ∧ (∀ u, p_videoUrls p = Some [u; u] → total j = 1)
    ∧ (∀ u, u ∈ queue j → JsText.ends_with_slash u = false)
    ∧ (∀ v x y, v ∈ default [] (p_videoUrls p) →
         parseURL v (Some "https://rumble.com") = Some x →
         parseURL (toString x) None = Some y →
         stripTrailingSlashes
           (toString {| site := site y; pathname := pathname y;
                        search := None; hash := None |}) ∈ queue j)
    ∧ (∀ v, v ∈ default [] (p_videoUrls p) →
         parseURL v (Some "https://rumble.com") = None →
         parseURL v None = None →
         stripTrailingSlashes v ∈ queue j)
    ∧ (∀ v w x y x' y', p_videoUrls p = Some [v; w] →
         parseURL v (Some "https://rumble.com") = Some x →
         parseURL (toString x) None = Some y →
         parseURL w (Some "https://rumble.com") = Some x' →
         parseURL (toString x') None = Some y' →
         site y = site y' → pathname y = pathname y' →
         total j = 1).
Proof.
  intros Hp. rewrite start_accepted by done. exists (new_job p).
  assert (Hin : ∀ u, u ∈ targets p
                  ↔ ∃ v, v ∈ default [] (p_videoUrls p)
                         ∧ u = stripParams (toAbs v)).
  { intros u. unfold targets. rewrite elem_of_uniq, <- list_fmap_compose.
    rewrite list_elem_of_fmap. simpl. naive_solver. }
  split; [done|]. simpl. split; [done|].
  split; [apply NoDup_uniq|].
  split; [exact Hin|].
  split; [apply length_uniq|]. split; [done|].
  split.
  { rewrite messages_emit. simpl.
    unfold messages at 1. simpl. rewrite omap_app. simpl.
    rewrite app_nil_r.
    change (omap _ (log (cleanup s))) with (messages (cleanup s)).
    by rewrite messages_cleanup. }
  split.
  { intros u Hu. unfold targets. rewrite Hu. simpl. by rewrite uniq_twice. }
  split.
  { intros u Hu. apply Hin in Hu as (v & _ & ->). apply stripParams_ends. }
  split.
  { intros v x y Hv Hx Hy. apply Hin. exists v. split; [done|].
    symmetry. by apply (normal_form_parsed v x y). }
  split.
  { intros v Hv Hx Hy. apply Hin. exists v. split; [done|].
    symmetry. by apply normal_form_refused. }
  intros v w x y x' y' Hu Hx Hy Hx' Hy' Es Ep.
  unfold targets. rewrite Hu. simpl.
  rewrite (normal_form_parsed v x y), (normal_form_parsed w x' y') by done.
  by rewrite Es, Ep, uniq_twice.
Qed.

End Steps.
End JobFacts.

(** * The job runner on concrete requests *)

Module Scenarios.
Import JsString Background JobInputs JobFacts.

#[local] Existing Instance plain_url.


(** C2 does not hold as stated: when the browser refuses the hidden
    tab the job is over without a single result for its two targets;
    and a URL submitted twice yields one result, not two. *)
Lemma no_result_without_tab :
  let s := run [TabCreated None] (start set2 init) in
  let s' := run ([TabCreated (Some 7)] ++ page_ready ++ [answer_ok])
                (start twice init) in
  all_enabled [TabCreated None] (start set2 init) = true
  ∧ messages s
    = [Started 2 "set"; Complete 0 2 "Failed to create hidden tab."]
  ∧ count_msgs is_progress s = 0
  ∧ one_result_per_submitted set2 s = false
  ∧ messages s'
    = [Started 1 "set"; Progress 1 1 (Some v1) "Updated";
       Complete 1 1 "All videos processed."]
  ∧ one_result_per_submitted twice s' = false.
Proof. split_and!; vm_compute; reflexivity. Qed.

(** C4 does not hold as stated.  A job that the browser refuses the
    tab is over without a progress event, so its [done] values never
    reach [total].  And of two requests in a row, the second made
    before the browser has called back with the tab of the first, the
    second job takes both tabs and registers two listeners: its first
    target is consumed without a progress event, one answer of the
    worker ends two targets, and the job completes with [done] at 2
    of 3. *)
Lemma progress_stops_short_of_total :
  let s := run [TabCreated None] (start set2 init) in
  let s' := run restart_race init in
  all_enabled [TabCreated None] (start set2 init) = true
  ∧ messages s
    = [Started 2 "set"; Complete 0 2 "Failed to create hidden tab."]
  ∧ progress_dones (messages s) = []
  ∧ progress_reaches_total s = false
  ∧ all_enabled restart_race init = true
  ∧ messages s'
    = [Started 2 "set"; Started 3 "clear";
       Progress 1 3 (Some v2) "Cleared";
       Progress 2 3 (Some v3) "Cleared";
       Complete 2 3 "All videos processed."]
  ∧ progress_reaches_total s' = false.
Proof. split_and!; vm_compute; reflexivity. Qed.

(** A page that does load, slowly: the timer is armed only once the
    page has loaded and the script is in, so the job completes at
    6000 ms, after the bound of 1 x 1000 ms. *)
Lemma slow_page_misses_bound :
  let s := run (silent_run slow1 7 [5000%Z]) (start slow1 init) in
  all_enabled (silent_run slow1 7 [5000%Z]) (start slow1 init) = true
  ∧ silent_run slow1 7 [5000%Z]
    = [TabCreated (Some 7); Tick 5000; TabUpdated 7 true;
       ScriptInjected 7 false; Tick 1000; TimerFired 1]
  ∧ messages s
    = [Started 1 "clear"; Progress 1 1 (Some v1) "Timeout; skipping.";
       Complete 1 1 "All videos processed."]
  ∧ complete_time s = Some 6000%Z
  ∧ completes_within_bound slow1 s = false.
Proof. split_and!; vm_compute; reflexivity. Qed.


(** C9 fails on the code: the user closes the hidden tab 7 while the
    first of two targets loads.  The listener of [tabs.onRemoved] does
    not look at the job: no result is produced for the target, the job
    does not move to the next target and is not torn down, it keeps
    pointing at tab 7, and from then on no event but a new request
    gets anything out of it. *)
Theorem closed_tab_stalls_job :
  let s := run [TabCreated (Some 7)] (start set2 init) in
  let s' := handle (TabRemoved 7) s in
  enabled (TabRemoved 7) s = true
  ∧ job s' = job s
  ∧ (∃ j, job s' = Some j ∧ tabId j = Some 7 ∧ currentUrl j = Some v1
        ∧ queue j = [v2] ∧ done j = 0)
  ∧ messages s' = [Started 2 "set"]
  ∧ ∀ evs, no_request evs = true →
      job (run evs s') = job s' ∧ messages (run evs s') = [Started 2 "set"].
Proof.
  intros s s'.
  assert (Hm : messages s' = [Started 2 "set"]) by (vm_compute; reflexivity).
  split_and!; [by vm_compute|by vm_compute| |exact Hm|].
  - eexists. split; [by vm_compute|]. split_and!; by vm_compute.
  - intros evs Hn. rewrite <- Hm. apply (stalled_run 7); [done|].
    eexists. split; [by vm_compute|]. split_and!; by vm_compute.
Qed.

(** C5 fails on the code: the page of the first of three targets of a
    Clear job with a timeout of 1000 ms does not report that it is
    complete.  The timer of a target is armed in the callback of
    [executeScript], after the page has loaded, so nothing is armed
    while it loads: one hour later, long after the bound of
    3 x 1000 ms, the job is still on its first target with the other
    two in the queue, it has sent its start and nothing else, and there
    is no timer that could fire.  From then on, whatever happens short
    of a new request or of the page completing, and however much time
    passes, the job stays where it is. *)
Theorem loading_page_blocks_queue :
  let s := run [TabCreated (Some 7); Tick one_hour] (start clear3 init) in
  all_enabled [TabCreated (Some 7); Tick one_hour] (start clear3 init) = true
  ∧ now s = one_hour
  ∧ (∃ j, job s = Some j ∧ tabId j = Some 7 ∧ perVideoTimeoutMs j = 1000%Z
        ∧ currentUrl j = Some v1 ∧ queue j = [v2; v3] ∧ done j = 0
        ∧ videoTimer j = None)
  ∧ timers s = []
  ∧ messages s = [Started 3 "clear"]
  ∧ completes_within_bound clear3 s = false
  ∧ ∀ evs, forallb (still_loading 7) evs = true →
      job (run evs s) = job s
      ∧ timers (run evs s) = []
      ∧ messages (run evs s) = [Started 3 "clear"]
      ∧ completes_within_bound clear3 (run evs s) = false.
Proof.
  intros s.
  assert (Hm : messages s = [Started 3 "clear"]) by (vm_compute; reflexivity).
  assert (Hld : loading 7 s).
  { eexists. split; [by vm_compute|]. split_and!; by vm_compute. }
  split_and!; [by vm_compute|by vm_compute| |by vm_compute|exact Hm
              |by vm_compute|].
  - eexists. split; [by vm_compute|]. split_and!; by vm_compute.
  - intros evs Hn.
    destruct (loading_run 7 evs s Hn Hld) as ((j & _ & _ & Hti & _) & Ej & Hm').
    split_and!; [done|done|by rewrite Hm'|].
    unfold completes_within_bound.
    rewrite complete_time_messages; [done|].
    rewrite Hm', Hm. by repeat constructor.
Qed.

(** *** The theorems at work *)

Lemma start_fails_fast_witness :
  (targets no_playlists = []
   ∨ (default false (p_clearAll no_playlists) = false
      ∧ default [] (p_playlistIds no_playlists) = []
      ∧ default [] (p_playlistNames no_playlists) = []))
  ∧ job (start no_playlists init) = None
  ∧ messages (start no_playlists init)
    = [Error "Missing videos or playlists."].
Proof.
  assert (Hrej : targets no_playlists = []
                 ∨ (default false (p_clearAll no_playlists) = false
                    ∧ default [] (p_playlistIds no_playlists) = []
                    ∧ default [] (p_playlistNames no_playlists) = []))
    by (right; by vm_compute).
  split; [exact Hrej|].
  destruct (start_fails_fast no_playlists init Hrej) as (Hj & _ & Hm & _).
  split; [exact Hj|exact Hm].
Defined.

Lemma start_normalizes_and_dedups_witness :
  rejected messy = false
  ∧ ∃ j, job (start messy init) = Some j
      ∧ queue j = ["https://x/v1"; "https://rumble.com/v2"]
      ∧ total j = 2
      ∧ ∀ u, u ∈ queue j → JsText.ends_with_slash u = false.
Proof.
  assert (Hacc : rejected messy = false) by (vm_compute; reflexivity).
  split; [exact Hacc|].
  destruct (start_normalizes_and_dedups messy init Hacc)
    as (j & Hj & Hq & _ & _ & _ & Hlen & _ & _ & Hslash & _).
  assert (Hqueue : queue j = ["https://x/v1"; "https://rumble.com/v2"])
    by (rewrite Hq; vm_compute; reflexivity).
  exists j. split; [exact Hj|]. split; [exact Hqueue|].
  split; [|exact Hslash].
  rewrite Hlen, Hqueue. reflexivity.
Defined.

Lemma progress_once_per_target_witness :
  let s0 := run both_answer (start set2 init) in
  let s := run (three_endings 8 4) (start clear3 s0) in
  idle s0 ∧ rejected clear3 = false ∧ no_request (three_endings 8 4) = true
  ∧ all_enabled (three_endings 8 4) (start clear3 s0) = true
  ∧ messages_since s0 s
    = [Started 3 "clear";
       Progress 1 3 (Some v1) "Cleared";
       Progress 2 3 (Some v2) "Timeout; skipping.";
       Progress 3 3 (Some v3) "Inject failed; skipping.";
       Complete 3 3 "All videos processed."]
  ∧ ∃ k, k ≤ 3
      ∧ progress_dones (messages_since s0 s) = seq 1 k
      ∧ count_since is_progress s0 s = k
      ∧ (∀ c n, Complete c n "All videos processed." ∈ messages_since s0 s →
                k = 3).
Proof.
  intros s0 s.
  assert (Hidle : idle s0) by (split_and!; vm_compute; reflexivity).
  assert (Hacc : rejected clear3 = false) by (vm_compute; reflexivity).
  assert (Hno : no_request (three_endings 8 4) = true)
    by (vm_compute; reflexivity).
  split; [exact Hidle|]. split; [exact Hacc|]. split; [exact Hno|].
  split; [vm_compute; reflexivity|]. split; [vm_compute; reflexivity|].
  destruct (progress_once_per_target clear3 s0 (three_endings 8 4)
              Hidle Hacc Hno)
    as (k & Hk & Hd & _ & Hcount & _ & Hall & _).
  exists k. split; [exact Hk|]. split; [exact Hd|].
  split; [exact Hcount|exact Hall].
Defined.


Lemma one_result_per_target_witness :
  let s := run both_answer (start set2 init) in
  idle init ∧ rejected set2 = false ∧ no_request both_answer = true
  ∧ all_enabled both_answer (start set2 init) = true
  ∧ messages_since init s
    = [Started 2 "set";
       Progress 1 2 (Some v1) "Updated";
       Progress 2 2 (Some v2) "Updated";
       Complete 2 2 "All videos processed."]
  ∧ count_since is_progress init s ≤ 2
  ∧ count_since is_progress init s = 2
  ∧ progress_urls (messages_since init s) = [Some v1; Some v2].
Proof.
  intros s.
  assert (Hidle : idle init) by (split_and!; vm_compute; reflexivity).
  assert (Hacc : rejected set2 = false) by (vm_compute; reflexivity).
  assert (Hno : no_request both_answer = true) by (vm_compute; reflexivity).
  assert (Hmsgs : messages_since init s
                  = [Started 2 "set";
                     Progress 1 2 (Some v1) "Updated";
                     Progress 2 2 (Some v2) "Updated";
                     Complete 2 2 "All videos processed."])
    by (vm_compute; reflexivity).
  split; [exact Hidle|]. split; [exact Hacc|]. split; [exact Hno|].
  split; [vm_compute; reflexivity|]. split; [exact Hmsgs|].
  destruct (one_result_per_target set2 init both_answer Hidle Hacc Hno)
    as (Hle & _ & Hall & _).
  split; [exact Hle|].
  assert (Hc : ∃ c n, Complete c n "All videos processed." ∈ messages_since init s)
    by (exists 2, 2; rewrite Hmsgs; repeat constructor).
  destruct (Hall Hc) as (Hcount & Hurls & _).
  split; [exact Hcount|exact Hurls].
Defined.

Lemma silent_workers_time_out_witness :
  rejected slow1 = false ∧ 7 ≠ 0 ∧ length [5000%Z] = length (targets slow1)
  ∧ Forall (fun load => (0 <= load)%Z) [5000%Z]
  ∧ job (run (silent_run slow1 7 [5000%Z]) (start slow1 init)) = None.
Proof.
  assert (Hacc : rejected slow1 = false) by (vm_compute; reflexivity).
  assert (Hlen : length [5000%Z] = length (targets slow1))
    by (vm_compute; reflexivity).
  assert (Hpos : Forall (fun load => (0 <= load)%Z) [5000%Z])
    by (repeat constructor; lia).
  assert (Htab : 7 ≠ 0) by lia.
  split; [exact Hacc|]. split; [exact Htab|]. split; [exact Hlen|].
  split; [exact Hpos|].
  exact (proj1 (proj2 (silent_workers_time_out slow1 7 [5000%Z]
                         Hacc Htab Hlen Hpos))).
Defined.


End Scenarios.

(** * Further facts about insertion-ordered sets *)

Section UniqOrder.
Context {A : Type} `{EqDecision A}.

Lemma foldl_set_add_filter (n : nat) (l seen : list A) :
  length l ≤ n →
  foldl set_add seen l = seen ++ uniq (filter (fun y => y ∉ seen) l).
Proof.
  revert l seen. induction n as [|n IH]; intros l seen Hl.
  { destruct l; [|simpl in Hl; lia]. simpl. by rewrite app_nil_r. }
  destruct l as [|x l]; [simpl; by rewrite app_nil_r|].
  simpl in Hl. simpl. unfold set_add at 2.
  destruct (decide (x ∈ seen)) as [Hin|Hin].
  - rewrite filter_cons_False by (intros Hn; by apply Hn).
    apply IH. lia.
  - rewrite filter_cons_True by done.
    rewrite (IH l) by lia.
    unfold uniq at 2. simpl. unfold set_add at 2.
    rewrite decide_False by apply not_elem_of_nil. simpl.
    rewrite (IH (filter (fun y => y ∉ seen) l) [x])
      by (pose proof (length_filter (fun y => y ∉ seen) l); lia).
    rewrite list_filter_filter, <- app_assoc. do 3 f_equal.
    apply list_filter_iff. intros y.
    rewrite elem_of_app, list_elem_of_singleton. tauto.
Qed.

Lemma uniq_cons (x : A) (l : list A) :
  uniq (x :: l) = x :: uniq (filter (fun y => y ≠ x) l).
Proof.
  unfold uniq at 1. simpl. unfold set_add at 2.
  rewrite decide_False by apply not_elem_of_nil. simpl.
  rewrite (foldl_set_add_filter (length l)) by done. simpl. f_equal. f_equal.
  apply list_filter_iff. intros z. by rewrite list_elem_of_singleton.
Qed.

Lemma uniq_NoDup (l : list A) : NoDup l → uniq l = l.
Proof.
  induction l as [|y m IH]; [done|].
  intros Hn. apply NoDup_cons in Hn as [Hy Hm].
  rewrite uniq_cons. f_equal.
  assert (filter (fun z => z ≠ y) m = m) as ->; [|by apply IH].
  clear IH Hm. induction m as [|z m IH]; [done|].
  apply not_elem_of_cons in Hy as [Hzy Hy].
  rewrite filter_cons_True by done. f_equal. by apply IH.
Qed.

(** [Array.from(new Set(arr))] keeps the first occurrence of every
    value, in the order of the array: the head stays where it is, and
    the rest is the same operation on the tail without the head's
    copies.  An array without duplicates is left as it is, so the
    operation changes nothing when done a second time. *)
Theorem uniq_keeps_first_occurrences (x : A) (l : list A) :
  uniq (x :: l) = x :: uniq (filter (fun y => y ≠ x) l)
  ∧ (NoDup (x :: l) → uniq (x :: l) = x :: l)
  ∧ uniq (uniq (x :: l)) = uniq (x :: l).
Proof.
  split; [apply uniq_cons|]. split; [apply uniq_NoDup|].
  apply uniq_NoDup, NoDup_uniq.
Qed.

End UniqOrder.

(** * Facts about the patterns *)

Module TextFacts.
Import JsString JsText.

Lemma app_cons c a b : String c a +:+ b = String c (a +:+ b).
Proof. reflexivity. Qed.

Lemma app_empty_l b : "" +:+ b = b.
Proof. reflexivity. Qed.

Lemma prefix_app a b : String.prefix a (a +:+ b) = true.
Proof.
  induction a as [|c a IH]; [by destruct b|].
  rewrite app_cons. simpl. destruct (ascii_dec c c); [done|congruence].
Qed.

Lemma prefix_refl a : String.prefix a a = true.
Proof.
  induction a as [|c a IH]; [done|]. simpl.
  destruct (ascii_dec c c); [done|congruence].
Qed.

Lemma drop_chars_app a b : drop_chars (String.length a) (a +:+ b) = b.
Proof. induction a as [|c a IH]; [done|]. rewrite app_cons. exact IH. Qed.

Lemma prefix_split a s :
  String.prefix a s = true → s = a +:+ drop_chars (String.length a) s.
Proof.
  revert s. induction a as [|c a IH]; intros s Hp; [done|].
  destruct s as [|d s]; [done|]. simpl in Hp.
  destruct (ascii_dec c d) as [->|]; [|done].
  rewrite app_cons. simpl. f_equal. by apply IH.
Qed.

Lemma app_assoc_string a b c : (a +:+ b) +:+ c = a +:+ (b +:+ c).
Proof.
  induction a as [|x a IH]; [done|]. rewrite !app_cons. by rewrite IH.
Qed.

Lemma app_empty_r a : a +:+ "" = a.
Proof. induction a as [|x a IH]; [done|]. rewrite app_cons. by rewrite IH. Qed.

Lemma contains_unfold a s :
  contains a s
  = String.prefix a s
    || match s with EmptyString => false | String _ r => contains a r end.
Proof. by destruct s. Qed.

Lemma contains_prefix a s : String.prefix a s = true → contains a s = true.
Proof. intros Hp. by rewrite contains_unfold, Hp. Qed.

Lemma contains_cons a c s : contains a s = true → contains a (String c s) = true.
Proof. intros Hc. rewrite contains_unfold, Hc. apply orb_true_r. Qed.

Lemma contains_app a b s : contains a s = true → contains a (b +:+ s) = true.
Proof.
  intros Hc. induction b as [|c b IH]; [done|].
  rewrite app_cons. by apply contains_cons.
Qed.

Lemma span_spec p s a b :
  span p s = (a, b) →
  all_chars p a = true ∧ s = a +:+ b
  ∧ match b with EmptyString => True | String c _ => p c = false end.
Proof.
  revert a b. induction s as [|c s IH]; intros a b Hs; simpl in Hs.
  { by injection Hs as <- <-. }
  destruct (p c) eqn:Ec.
  - destruct (span p s) as [a' b'] eqn:E. injection Hs as <- <-.
    destruct (IH a' b' eq_refl) as (Ha & -> & Hb).
    rewrite app_cons. simpl. by rewrite Ec, Ha.
  - injection Hs as <- <-. rewrite app_empty_l. by rewrite Ec.
Qed.

Lemma span_app p a b :
  all_chars p a = true →
  match b with EmptyString => True | String c _ => p c = false end →
  span p (a +:+ b) = (a, b).
Proof.
  intros Ha Hb. induction a as [|c a IH].
  - rewrite app_empty_l. destruct b as [|d b]; [done|]. simpl. by rewrite Hb.
  - simpl in Ha. apply andb_true_iff in Ha as [Hc Ha].
    rewrite app_cons. simpl. by rewrite Hc, IH.
Qed.

Lemma toLowerCase_app a b : toLowerCase (a +:+ b) = toLowerCase a +:+ toLowerCase b.
Proof.
  induction a as [|c a IH]; [done|].
  rewrite app_cons. simpl. by rewrite IH, app_cons.
Qed.

Lemma trimStart_ws w s : all_ws w = true → trimStart (w +:+ s) = trimStart s.
Proof.
  intros Hw. induction w as [|c w IH]; [done|].
  simpl in Hw. apply andb_true_iff in Hw as [Hc Hw].
  rewrite app_cons. simpl. rewrite Hc. by apply IH.
Qed.

Lemma trimEnd_all_ws w : all_ws w = true → trimEnd w = "".
Proof.
  intros Hw. induction w as [|c w IH]; [done|].
  simpl in Hw. apply andb_true_iff in Hw as [Hc Hw]. simpl.
  by rewrite IH, Hc.
Qed.

Lemma trimEnd_ws s w : all_ws w = true → trimEnd (s +:+ w) = trimEnd s.
Proof.
  intros Hw. induction s as [|c s IH].
  - rewrite app_empty_l. by apply trimEnd_all_ws.
  - rewrite app_cons. simpl. by rewrite IH.
Qed.

Lemma trimStart_fixed_app a b : a ≠ "" → trimStart a = a → trimStart (a +:+ b) = a +:+ b.
Proof.
  intros Hne Ha. destruct a as [|c a]; [done|]. rewrite app_cons. simpl in *.
  destruct (is_ws c) eqn:Ec; [|done]. exfalso.
  assert (Hlen : ∀ x, String.length (trimStart x) ≤ String.length x).
  { induction x as [|d x IH]; simpl; [lia|]. destruct (is_ws d); simpl; lia. }
  pose proof (Hlen a) as Hl. rewrite Ha in Hl. simpl in Hl. lia.
Qed.

End TextFacts.

(** * Further facts about the page worker *)

Module WorkerFacts.
Import JsString Automator.

(** *** Clicking a check box *)

Lemma ensureChecked_from_iff (c : Checkbox) should a n :
  ensureChecked_from c should a n = true
  ↔ 0 < a ∧ ∃ k, n ≤ k ≤ n + a ∧ c k = should.
Proof.
  revert n. induction a as [|a IH]; intros n; simpl.
  - split; [done|]. intros [? _]; lia.
  - destruct (Bool.eqb (c n) should) eqn:E1.
    { apply Bool.eqb_prop in E1. split; [|done]. intros _.
      split; [lia|]. exists n. split; [lia|done]. }
    destruct (Bool.eqb (c (S n)) should) eqn:E2.
    { apply Bool.eqb_prop in E2. split; [|done]. intros _.
      split; [lia|]. exists (S n). split; [lia|done]. }
    apply Bool.eqb_false_iff in E1, E2. rewrite IH. split.
    + intros [Ha (k & Hk & Hc)]. split; [lia|]. exists k. split; [lia|done].
    + intros [_ (k & Hk & Hc)].
      assert (k ≠ n) by (intros ->; done).
      assert (k ≠ S n) by (intros ->; done).
      split; [lia|]. exists k. split; [lia|done].
Qed.

(** [ensureChecked(el, should, {attempts})] succeeds exactly when there
    is at least one attempt and the box shows the wanted state after at
    most [attempts] clicks; with no attempt it fails even on a box that
    is already in that state. *)
Theorem ensureChecked_iff (c : Checkbox) should attempts :
  ensureChecked c should attempts = true
  ↔ 0 < attempts ∧ ∃ k, k ≤ attempts ∧ c k = should.
Proof.
  unfold ensureChecked. rewrite ensureChecked_from_iff. split.
  - intros [Ha (k & Hk & Hc)]. split; [done|]. exists k. split; [lia|done].
  - intros [Ha (k & Hk & Hc)]. split; [done|]. exists k. split; [lia|done].
Qed.

(** *** Resolving names through the stored playlists *)

Lemma js_map_from pairs (acc : gmap string string) k v :
  foldl (fun m kv => <[kv.1 := kv.2]> m) acc pairs !! k = Some v →
  acc !! k = Some v ∨ (k, v) ∈ pairs.
Proof.
  revert acc. induction pairs as [|[k' v'] pairs IH]; intros acc Hm; [by left|].
  simpl in Hm. apply IH in Hm as [Hm|Hm]; [|right; by right].
  destruct (decide (k' = k)) as [->|Hne].
  - rewrite lookup_insert_eq in Hm. injection Hm as ->. right. by left.
  - rewrite lookup_insert_ne in Hm by done. by left.
Qed.

Lemma js_map_lookup pairs k v : js_map pairs !! k = Some v → (k, v) ∈ pairs.
Proof.
  intros Hm. apply js_map_from in Hm as [Hm|Hm]; [|done].
  by rewrite lookup_empty in Hm.
Qed.

Lemma js_map_keeps pairs (acc : gmap string string) k :
  (∀ kv, kv ∈ pairs → kv.1 ≠ k) →
  foldl (fun m kv => <[kv.1 := kv.2]> m) acc pairs !! k = acc !! k.
Proof.
  revert acc. induction pairs as [|kv pairs IH]; intros acc Hne; [done|].
  simpl. rewrite IH by (intros x Hx; apply Hne; by right).
  apply lookup_insert_ne. apply Hne. by left.
Qed.

(** In [new Map(pairs)] the last pair with a key gives its value. *)
Lemma js_map_last ps1 ps2 k v :
  (∀ kv, kv ∈ ps2 → kv.1 ≠ k) →
  js_map (ps1 ++ (k, v) :: ps2) !! k = Some v.
Proof.
  intros Hne. unfold js_map. rewrite foldl_app. simpl.
  rewrite js_map_keeps by done. apply lookup_insert_eq.
Qed.

Lemma elem_of_name_keys nameList k :
  k ∈ name_keys nameList
  ↔ k ≠ "" ∧ ∃ n, n ∈ nameList ∧ k = toLowerCase (trim n).
Proof.
  unfold name_keys. rewrite elem_of_uniq, list_elem_of_filter, list_elem_of_fmap.
  unfold truthy. destruct k; simpl; naive_solver.
Qed.

Lemma elem_of_id_keys idList k :
  k ∈ id_keys idList ↔ k ≠ "" ∧ ∃ i, i ∈ idList ∧ k = trim i.
Proof.
  unfold id_keys. rewrite elem_of_uniq, list_elem_of_filter, list_elem_of_fmap.
  unfold truthy. destruct k; simpl; naive_solver.
Qed.

Lemma resolveIdsFromNames_spec stored nameList :
  NoDup (resolveIdsFromNames stored nameList)
  ∧ ∀ i, i ∈ resolveIdsFromNames stored nameList →
      i ≠ ""
      ∧ ∃ ps p n, stored = Some ps ∧ p ∈ ps ∧ n ∈ nameList
          ∧ toLowerCase (trim n) = playlist_title_key p
          ∧ playlist_key p = i.
Proof.
  unfold resolveIdsFromNames.
  destruct (name_keys nameList) as [|k0 ks] eqn:Ek.
  { split; [apply NoDup_nil_2|]. intros i Hi. by apply not_elem_of_nil in Hi. }
  rewrite <- Ek. clear Ek k0 ks. split; [apply NoDup_uniq|].
  intros i Hi. apply elem_of_uniq, list_elem_of_filter in Hi as [Ht Hi].
  split; [by destruct i|].
  apply list_elem_of_omap in Hi as (k & Hk & Hm).
  apply elem_of_name_keys in Hk as [_ (n & Hn & ->)].
  apply js_map_lookup, list_elem_of_fmap in Hm as (p & Hp & Hin).
  injection Hp as Hp1 Hp2.
  destruct stored as [ps|]; [|by apply not_elem_of_nil in Hin].
  exists ps, p, n. by split_and!.
Qed.

(** [resolveIdsFromNames] never invents an id: what it returns has no
    duplicate and no empty id, and every id is the id of a stored
    playlist whose title is, case and surrounding white space apart,
    one of the requested names.  Without stored playlists it returns
    nothing. *)
Theorem resolved_ids_come_from_storage stored nameList :
  NoDup (resolveIdsFromNames stored nameList)
  ∧ (∀ i, i ∈ resolveIdsFromNames stored nameList →
       i ≠ ""
       ∧ ∃ ps p n, stored = Some ps ∧ p ∈ ps ∧ n ∈ nameList
           ∧ toLowerCase (trim n) = playlist_title_key p
           ∧ playlist_key p = i)
  ∧ resolveIdsFromNames None nameList = []
  ∧ resolveIdsFromNames (Some []) nameList = [].
Proof.
  destruct (resolveIdsFromNames_spec stored nameList) as [Hnd Hin].
  split; [done|]. split; [done|].
  split.
  - destruct (resolveIdsFromNames None nameList) as [|i l] eqn:E; [done|].
    destruct (proj2 (resolveIdsFromNames_spec None nameList) i)
      as (_ & ps & p & n & Hs & _); [rewrite E; by left|done].
  - destruct (resolveIdsFromNames (Some []) nameList) as [|i l] eqn:E; [done|].
    destruct (proj2 (resolveIdsFromNames_spec (Some []) nameList) i)
      as (_ & ps & p & n & Hs & Hp & _); [rewrite E; by left|].
    injection Hs as <-. by apply not_elem_of_nil in Hp.
Qed.

(** When several stored playlists have the same title, the last of
    them gives the id of that name, as [new Map] keeps the last pair of
    a key: a name resolves to the id of the last stored playlist with
    that title, and to nothing when that playlist has no id, whatever
    ids the earlier ones have. *)
Theorem last_stored_title_wins ps1 p ps2 n :
  (∀ q, q ∈ ps2 → playlist_title_key q ≠ playlist_title_key p) →
  toLowerCase (trim n) = playlist_title_key p →
  playlist_title_key p ≠ "" →
  resolveIdsFromNames (Some (ps1 ++ p :: ps2)) [n]
  = if truthy (playlist_key p) then [playlist_key p] else [].
Proof.
  intros Hlast Hn Hne.
  assert (Hk : name_keys [n] = [playlist_title_key p]).
  { unfold name_keys. simpl. rewrite Hn.
    rewrite filter_cons_True by (unfold truthy; by destruct (playlist_title_key p)).
    by vm_compute. }
  unfold resolveIdsFromNames. rewrite Hk. simpl.
  rewrite fmap_app, fmap_cons, js_map_last.
  - simpl. destruct (truthy (playlist_key p)) eqn:Et.
    + rewrite filter_cons_True by (by rewrite Et). by vm_compute.
    + rewrite filter_cons_False by (rewrite Et; intros []). by vm_compute.
  - intros kv Hkv. apply list_elem_of_fmap in Hkv as (q & -> & Hq).
    simpl. by apply Hlast.
Qed.

(** *** Clearing *)

Lemma length_filter_split {A} (P : A → Prop) `{∀ x, Decision (P x)} (l : list A) :
  length (filter P l) + length (filter (fun x => ¬ P x) l) = length l.
Proof.
  induction l as [|x l IH]; [done|].
  destruct (decide (P x)).
  - rewrite filter_cons_True, (filter_cons_False (fun x => ¬ P x)) by tauto.
    simpl. lia.
  - rewrite filter_cons_False, (filter_cons_True (fun x => ¬ P x)) by tauto.
    simpl. lia.
Qed.

Lemma filter_iff_in {A} (P Q : A → Prop) `{∀ x, Decision (P x)}
    `{∀ x, Decision (Q x)} (l : list A) :
  (∀ x, x ∈ l → (P x ↔ Q x)) → filter P l = filter Q l.
Proof.
  induction l as [|x l IH]; intros Hpq; [done|].
  assert (Hx : P x ↔ Q x) by (apply Hpq; by left).
  assert (Hl : filter P l = filter Q l) by (apply IH; intros y Hy; apply Hpq; by right).
  destruct (decide (P x)).
  - rewrite !filter_cons_True by tauto. by f_equal.
  - by rewrite !filter_cons_False by tauto.
Qed.

Lemma NoDup_of_submseteq {A} (l k : list A) : l ⊆+ k → NoDup k → NoDup l.
Proof.
  intros Hs Hk. apply submseteq_sublist_l in Hs as (m & Hsub & Hp).
  eapply sublist_NoDup; [|exact Hsub]. by rewrite Hp.
Qed.

Lemma clear_fold (cs : list Checkbox) (acc : Cleared) :
  let r :=
    foldl (fun acc c =>
             if isChecked c then
               if ensureChecked c false 20
               then {| unchecked := S (unchecked acc); hadNone := hadNone acc |}
               else acc
             else {| unchecked := unchecked acc; hadNone := S (hadNone acc) |})
          acc cs in
  hadNone r
  = hadNone acc + length (filter (fun b => ¬ isChecked b = true) cs)
  ∧ unchecked r
    ≤ unchecked acc + length (filter (fun b => isChecked b = true) cs)
  ∧ ((∀ b, b ∈ cs → isChecked b = true → ∃ k, k ≤ 20 ∧ b k = false) →
     unchecked r
     = unchecked acc + length (filter (fun b => isChecked b = true) cs)).
Proof.
  revert acc. induction cs as [|c cs IH]; intros acc; simpl.
  { split_and!; [lia|lia|intros; lia]. }
  destruct (isChecked c) eqn:Ec.
  - rewrite (filter_cons_True (fun b => isChecked b = true)),
      (filter_cons_False (fun b => ¬ isChecked b = true))
      by (cbv beta; intuition congruence).
    destruct (ensureChecked c false 20) eqn:Ee.
    + destruct (IH {| unchecked := S (unchecked acc); hadNone := hadNone acc |})
        as (Hh & Hu & Hall). simpl in *.
      split_and!; [lia|lia|]. intros Hresp. rewrite Hall; [lia|].
      intros b Hb. apply Hresp. by right.
    + destruct (IH acc) as (Hh & Hu & Hall). simpl in *.
      split_and!; [lia|lia|]. intros Hresp. exfalso.
      destruct (Hresp c) as (k & Hk & Hc); [by left|done|].
      assert (ensureChecked c false 20 = true); [|congruence].
      unfold ensureChecked. apply ensureChecked_from_iff.
      split; [lia|]. exists k. split; [lia|done].
  - rewrite (filter_cons_False (fun b => isChecked b = true)),
      (filter_cons_True (fun b => ¬ isChecked b = true))
      by (cbv beta; intuition congruence).
    destruct (IH {| unchecked := unchecked acc; hadNone := S (hadNone acc) |})
      as (Hh & Hu & Hall). simpl in *.
    split_and!; [lia|lia|]. intros Hresp. rewrite Hall; [lia|].
    intros b Hb. apply Hresp. by right.
Qed.

(** [ensureAllPlaylistsUnchecked] looks at every check box of the list
    once: [hadNone] is the number of boxes that were not checked, and
    [unchecked] is at most the number of boxes that were, so the two
    never add up to more than the boxes there are.  When every checked
    box gives way within twenty clicks, [unchecked] is exactly the
    number of boxes that were checked and the two add up to all the
    boxes. *)
Theorem clear_counts_every_box ov c :
  container ov = Some c →
  let r := ensureAllPlaylistsUnchecked ov in
  hadNone r = length (filter (fun b => ¬ isChecked b = true) (checks c))
  ∧ unchecked r ≤ length (filter (fun b => isChecked b = true) (checks c))
  ∧ unchecked r + hadNone r ≤ length (checks c)
  ∧ ((∀ b, b ∈ checks c → isChecked b = true → ∃ k, k ≤ 20 ∧ b k = false) →
     unchecked r = length (filter (fun b => isChecked b = true) (checks c))
     ∧ unchecked r + hadNone r = length (checks c)).
Proof.
  intros Hc r. subst r. unfold ensureAllPlaylistsUnchecked. rewrite Hc.
  destruct (clear_fold (checks c) {| unchecked := 0; hadNone := 0 |})
    as (Hh & Hu & Hall). simpl in *.
  pose proof (length_filter_split (fun b => isChecked b = true) (checks c)) as Hs.
  split_and!; [lia|lia|lia|].
  intros Hresp. specialize (Hall Hresp). lia.
Qed.

(** *** Checking the playlists of a request *)

Lemma snapshot_byId_keeps (its : list Item) (acc : gmap string Item) i :
  is_Some (acc !! i) →
  is_Some (foldl (fun m it => if truthy (item_id it) then <[item_id it := it]> m else m)
             acc its !! i).
Proof.
  revert acc. induction its as [|it its IH]; intros acc Hs; [done|].
  simpl. apply IH. destruct (truthy (item_id it)); [|done].
  destruct (decide (item_id it = i)) as [->|Hne].
  - rewrite lookup_insert_eq. by eexists.
  - by rewrite lookup_insert_ne.
Qed.

Lemma snapshot_byId_finds (its : list Item) (acc : gmap string Item) it i :
  it ∈ its → item_id it = i → truthy i = true →
  is_Some (foldl (fun m it => if truthy (item_id it) then <[item_id it := it]> m else m)
             acc its !! i).
Proof.
  revert acc. induction its as [|x its IH]; intros acc Hin Hi Ht.
  { by apply not_elem_of_nil in Hin. }
  simpl. apply elem_of_cons in Hin as [<-|Hin]; [|by apply IH].
  apply snapshot_byId_keeps. rewrite Hi, Ht, lookup_insert_eq. by eexists.
Qed.

(** A sought id has a row in the snapshot exactly when some row of the
    overlay has that id. *)
Lemma snapshot_byId_None its i :
  truthy i = true →
  snapshot_byId its !! i = None ↔ Forall (fun it => item_id it ≠ i) its.
Proof.
  intros Ht. rewrite Forall_forall. split.
  - intros Hn it Hin Hi.
    destruct (snapshot_byId_finds its ∅ it i Hin Hi Ht) as [m Hm].
    unfold snapshot_byId in Hn. congruence.
  - intros Hall. destruct (snapshot_byId its !! i) as [m|] eqn:E; [|done].
    apply AutomatorFacts.snapshot_byId_Some in E as [Hin Hi]. by destruct (Hall m Hin).
Qed.

Lemma check_by_id_fold byId ids acc :
  let r := foldl (check_by_id byId) acc ids in
  missing r
  = missing acc
    ++ ((fun i => {| e_id := Some i; e_name := None |})
          <$> filter (fun i => byId !! i = None) ids)
  ∧ (∀ e, e ∈ skipped r →
       e ∈ skipped acc
       ∨ ∃ m i, i ∈ ids ∧ byId !! i = Some m
           ∧ e = {| e_id := Some i; e_name := Some (nameRaw m) |}
           ∧ isChecked (cb m) = true)
  ∧ (∀ e, e ∈ checked r →
       e ∈ checked acc
       ∨ ∃ m i, i ∈ ids ∧ byId !! i = Some m
           ∧ e = {| e_id := Some i; e_name := Some (nameRaw m) |}
           ∧ isChecked (cb m) = false
           ∧ ensureChecked (cb m) true 20 = true)
  ∧ e_id <$> (checked r ++ skipped r ++ missing r)
    ⊆+ (e_id <$> (checked acc ++ skipped acc ++ missing acc)) ++ (Some <$> ids).
Proof.
  revert acc. induction ids as [|i ids IH]; intros acc; simpl.
  { split_and!; [by rewrite app_nil_r|by left|by left|by rewrite app_nil_r]. }
  destruct (IH (check_by_id byId acc i)) as (Hm & Hs & Hc & Hsub).
  assert (Hstep : e_id <$> (checked (check_by_id byId acc i)
                            ++ skipped (check_by_id byId acc i)
                            ++ missing (check_by_id byId acc i))
                  ⊆+ (e_id <$> (checked acc ++ skipped acc ++ missing acc))
                     ++ [Some i]).
  { unfold check_by_id. destruct (byId !! i) as [m|]; simpl.
    - destruct (isChecked (cb m)); simpl.
      + apply Permutation_submseteq. rewrite !fmap_app. simpl.
        rewrite <- !app_assoc. do 2 f_equiv. apply Permutation_app_comm.
      + destruct (ensureChecked (cb m) true 20); simpl.
        * apply Permutation_submseteq. rewrite !fmap_app. simpl.
          rewrite <- !app_assoc. f_equiv.
          rewrite (app_assoc (e_id <$> skipped acc)).
          apply Permutation_app_comm.
        * by apply submseteq_inserts_r.
    - rewrite !fmap_app. simpl. by rewrite !app_assoc. }
  split_and!.
  - rewrite Hm. unfold check_by_id. destruct (byId !! i) as [m|] eqn:E; simpl.
    + rewrite filter_cons_False by (rewrite E; done).
      by destruct (isChecked (cb m)), (ensureChecked (cb m) true 20).
    + rewrite filter_cons_True by done. simpl. by rewrite <- app_assoc.
  - intros e He. apply Hs in He as [He|(m & k & Hk & Hb & -> & Hch)].
    + unfold check_by_id in He. destruct (byId !! i) as [m|] eqn:E; simpl in He.
      * destruct (isChecked (cb m)) eqn:Ec; simpl in He.
        -- apply elem_of_app in He as [He|He]; [by left|].
           apply list_elem_of_singleton in He as ->.
           right. exists m, i. split_and!; [by left|done..].
        -- left. by destruct (ensureChecked (cb m) true 20).
      * by left.
    + right. exists m, k. split_and!; [by right|done..].
  - intros e He. apply Hc in He as [He|(m & k & Hk & Hb & -> & Hch & Hen)].
    + unfold check_by_id in He. destruct (byId !! i) as [m|] eqn:E; simpl in He.
      * destruct (isChecked (cb m)) eqn:Ec; simpl in He; [by left|].
        destruct (ensureChecked (cb m) true 20) eqn:Ee; simpl in He; [|by left].
        apply elem_of_app in He as [He|He]; [by left|].
        apply list_elem_of_singleton in He as ->.
        right. exists m, i. split_and!; [by left|done..].
      * by left.
    + right. exists m, k. split_and!; [by right|done..].
  - etrans; [exact Hsub|].
    rewrite cons_middle, (app_assoc _ [Some i]).
    apply submseteq_app; [exact Hstep|done].
Qed.

Lemma sought_ids stored pids pnames :
  NoDup (fst (sought stored pids pnames))
  ∧ ∀ i, i ∈ fst (sought stored pids pnames) → truthy i = true.
Proof.
  unfold sought. simpl.
  destruct (is_nil (id_keys pids) && negb (is_nil (name_keys pnames))).
  - destruct (resolveIdsFromNames_spec stored (name_keys pnames)) as [Hn Hi].
    split; [done|]. intros i Hin. destruct (Hi i Hin) as [Hne _].
    by destruct i.
  - split; [apply NoDup_uniq|]. intros i Hin.
    apply elem_of_id_keys in Hin as [Hne _]. by destruct i.
Qed.

(** A Set request that has ids (its own, or the ids its names resolve
    to) is worked off id by id, and every id ends in at most one of the
    three lists: [missing] holds exactly the ids that no row of the
    overlay has, in the order of the request; an entry of [skipped] is
    a row with a sought id that was already checked; an entry of
    [checked] is a row with a sought id that was not checked and gave
    way to the clicks.  An id whose box does not give way is in no
    list. *)
Theorem ensure_by_id_partitions stored ov c pids pnames :
  container ov = Some c →
  fst (sought stored pids pnames) ≠ [] →
  let ids := fst (sought stored pids pnames) in
  let r := ensurePlaylistsChecked stored ov pids pnames in
  missing r
  = (fun i => {| e_id := Some i; e_name := None |})
      <$> filter (fun i => Forall (fun it => item_id it ≠ i) (items c)) ids
  ∧ (∀ e, e ∈ skipped r →
       ∃ it, it ∈ items c ∧ item_id it ∈ ids
         ∧ e = {| e_id := Some (item_id it); e_name := Some (nameRaw it) |}
         ∧ isChecked (cb it) = true)
  ∧ (∀ e, e ∈ checked r →
       ∃ it, it ∈ items c ∧ item_id it ∈ ids
         ∧ e = {| e_id := Some (item_id it); e_name := Some (nameRaw it) |}
         ∧ isChecked (cb it) = false
         ∧ ∃ k, k ≤ 20 ∧ cb it k = true)
  ∧ NoDup (e_id <$> (checked r ++ skipped r ++ missing r))
  ∧ length (checked r) + length (skipped r) + length (missing r) ≤ length ids.
Proof.
  intros Hc Hne ids r. subst r. unfold ensurePlaylistsChecked. rewrite Hc.
  destruct (sought_ids stored pids pnames) as [Hnd Htr]. fold ids in Hnd, Htr, Hne.
  destruct (sought stored pids pnames) as [I N] eqn:Es. simpl in ids. subst ids.
  destruct I as [|i0 I0]; [done|]. simpl negb. cbv iota.
  pose proof (check_by_id_fold (snapshot_byId (items c)) (i0 :: I0) no_entries)
    as Hfold. cbv zeta in Hfold.
  set (r := foldl (check_by_id (snapshot_byId (items c))) no_entries (i0 :: I0)) in *.
  destruct Hfold as (Hm & Hs & Hch & Hsub).
  assert (Hsubm : e_id <$> (checked r ++ skipped r ++ missing r)
                  ⊆+ Some <$> (i0 :: I0)) by exact Hsub.
  split_and!.
  - rewrite Hm. change (missing no_entries) with (@nil Entry).
    rewrite app_nil_l. f_equal. apply filter_iff_in. intros i Hi.
    apply snapshot_byId_None. by apply Htr.
  - intros e He. apply Hs in He as [He|(m & k & Hk & Hb & -> & Hck)].
    { by apply not_elem_of_nil in He. }
    apply AutomatorFacts.snapshot_byId_Some in Hb as [Hin <-].
    exists m. by split_and!.
  - intros e He. apply Hch in He as [He|(m & k & Hk & Hb & -> & Hck & Hen)].
    { by apply not_elem_of_nil in He. }
    apply AutomatorFacts.snapshot_byId_Some in Hb as [Hin <-].
    exists m. split_and!; [done..|].
    unfold ensureChecked in Hen.
    apply ensureChecked_from_iff in Hen as [_ (k' & Hk' & Hc')].
    exists k'. split; [lia|done].
  - eapply NoDup_of_submseteq; [exact Hsubm|].
    apply (NoDup_fmap_2 Some). exact Hnd.
  - apply submseteq_length in Hsubm.
    rewrite !length_fmap, !length_app in Hsubm. lia.
Qed.

(** *** Verifying a Set request *)

Lemma wanted_rows_sublist (f : Item → bool) (its : list Item) :
  (∀ it, f it = true → truthy (item_id it) = true) →
  item_id <$> filter (fun it => Is_true (f it)) its
  `sublist_of` filter (fun i => Is_true (truthy i)) (item_id <$> its).
Proof.
  intros Hf. induction its as [|it its IH]; [done|].
  rewrite fmap_cons. destruct (f it) eqn:E.
  - rewrite filter_cons_True by (by rewrite E).
    rewrite filter_cons_True by (by rewrite Hf).
    rewrite fmap_cons. by apply sublist_skip.
  - rewrite filter_cons_False by (rewrite E; intros []).
    destruct (truthy (item_id it)) eqn:Et.
    + rewrite filter_cons_True by (by rewrite Et). by apply sublist_cons.
    + rewrite filter_cons_False by (rewrite Et; intros []). done.
Qed.

(** When the rows of the reopened overlay have distinct ids, a Set
    request by ids is verified only if every sought id has a checked
    row.  (Rows that share an id are counted one by one, so without
    that condition the count can reach the expected number while a
    sought playlist is not checked.) *)
Theorem verified_set_has_all_checked pg ov2 c pids pnames :
  reopened pg = Some (inr ov2) →
  container ov2 = Some c →
  id_keys pids ≠ [] →
  NoDup (filter (fun i => Is_true (truthy i)) (item_id <$> items c)) →
  verifyVideoOverlayState pg ModeSet pids pnames = Some true →
  ∀ i, i ∈ id_keys pids →
    ∃ it, it ∈ items c ∧ item_id it = i ∧ isChecked (cb it) = true.
Proof.
  intros Hre Hc Hne Hnd Hv i Hi.
  unfold verifyVideoOverlayState in Hv. rewrite Hre in Hv.
  unfold countWantedCheckedInOverlay in Hv. rewrite Hc in Hv.
  assert (negb (is_nil (id_keys pids)) = true) as Hnil
    by (by destruct (id_keys pids)).
  rewrite Hnil in Hv. injection Hv as Hv. apply andb_true_iff in Hv as [Hv _].
  apply Nat.leb_le in Hv.
  set (f := fun it => truthy (item_id it) && bool_decide (item_id it ∈ id_keys pids)
                      && isChecked (cb it)) in *.
  set (L := item_id <$> filter (fun it => Is_true (f it)) (items c)).
  assert (HL : NoDup L).
  { eapply sublist_NoDup; [exact Hnd|]. apply wanted_rows_sublist.
    intros it Hf. unfold f in Hf. apply andb_true_iff in Hf as [Hf _].
    by apply andb_true_iff in Hf as [Hf _]. }
  assert (Hsub : L ⊆+ id_keys pids).
  { apply NoDup_submseteq; [done|]. intros x Hx.
    apply list_elem_of_fmap in Hx as (it & -> & Hit).
    apply list_elem_of_filter in Hit as [Hf _]. unfold f in Hf.
    apply Is_true_true in Hf.
    apply andb_true_iff in Hf as [Hf _]. apply andb_true_iff in Hf as [_ Hf].
    by apply bool_decide_eq_true in Hf. }
  assert (Hp : L ≡ₚ id_keys pids).
  { apply submseteq_length_Permutation; [done|]. unfold L. by rewrite length_fmap. }
  rewrite <- Hp in Hi. apply list_elem_of_fmap in Hi as (it & -> & Hit).
  apply list_elem_of_filter in Hit as [Hf Hin]. exists it.
  split_and!; [done..|]. unfold f in Hf. apply Is_true_true in Hf.
  by apply andb_true_iff in Hf as [_ Hf].
Qed.

(** *** Normalizing twice *)

Lemma fmap_fixed {A} (f : A → A) (l : list A) :
  (∀ x, x ∈ l → f x = x) → f <$> l = l.
Proof.
  induction l as [|x l IH]; intros Hf; [done|].
  rewrite fmap_cons, Hf by (by left). f_equal. apply IH.
  intros y Hy. apply Hf. by right.
Qed.

Lemma filter_all {A} (P : A → Prop) `{∀ x, Decision (P x)} (l : list A) :
  (∀ x, x ∈ l → P x) → filter P l = l.
Proof.
  induction l as [|x l IH]; intros Hp; [done|].
  rewrite filter_cons_True by (apply Hp; by left). f_equal. apply IH.
  intros y Hy. apply Hp. by right.
Qed.

(** Ids that are trimmed, not empty and distinct are left as they are
    by the normalization of ids. *)
Lemma id_keys_fixed (l : list string) :
  NoDup l → (∀ x, x ∈ l → trim x = x ∧ x ≠ "") → id_keys l = l.
Proof.
  intros Hn Hl. unfold id_keys.
  rewrite fmap_fixed by (intros x Hx; by apply Hl).
  rewrite filter_all; [by apply uniq_NoDup|].
  intros x Hx. destruct (Hl x Hx) as [_ Hne]. by destruct x.
Qed.

Lemma id_keys_idem pids : id_keys (id_keys pids) = id_keys pids.
Proof.
  apply id_keys_fixed; [apply NoDup_uniq|].
  intros x Hx. apply elem_of_id_keys in Hx as [Hne (i & _ & ->)].
  split; [apply AutomatorFacts.trim_idem|done].
Qed.

(** *** The result of a run *)

(** A [videoWorkerResult] is [ok] exactly when it carries no reason,
    and it comes without details exactly when the overlay could not be
    opened, in which case its reason is the one the opening gave. *)
Theorem result_is_ok_or_has_reason pg payload :
  let r := videoWorkerRun pg payload in
  (ok r = true ↔ reason r = None)
  ∧ (details r = None ↔ ∃ why, opened pg = inl why)
  ∧ (∀ why, opened pg = inl why → ok r = false ∧ reason r = Some why).
Proof.
  intros r. subst r. unfold videoWorkerRun.
  destruct (opened pg) as [why|ov].
  { simpl. split_and!; [done|naive_solver|]. by intros w [= <-]. }
  set (cf := confirmAndCloseOverlay _ _ _ _). clearbody cf.
  destruct (clearAll payload).
  - cbn. destruct cf; naive_solver.
  - set (e := ensurePlaylistsChecked _ _ _ _). clearbody e. cbn.
    match goal with |- context [?a || ?b] => destruct (a || b) end;
      destruct cf; naive_solver.
Qed.

(** Playlist ids shadow playlist names: with at least one id that is
    not blank, the names of a request play no part in what is checked,
    in what the verification counts, or in the result of the run, and
    the stored playlists are not consulted. *)
Theorem ids_shadow_names pg ov stored1 stored2 pids names1 names2 :
  id_keys pids ≠ [] →
  ensurePlaylistsChecked stored1 ov pids names1
  = ensurePlaylistsChecked stored2 ov pids names2
  ∧ countWantedCheckedInOverlay ov pids names1
    = countWantedCheckedInOverlay ov pids names2
  ∧ videoWorkerRun pg {| playlistIds := pids; playlistNames := names1;
                         clearAll := false |}
    = videoWorkerRun pg {| playlistIds := pids; playlistNames := names2;
                           clearAll := false |}.
Proof.
  intros Hne. split_and!.
  - unfold ensurePlaylistsChecked, sought.
    destruct (container ov) as [c|]; [|done].
    by destruct (id_keys pids).
  - unfold countWantedCheckedInOverlay.
    destruct (container ov) as [c|]; [|done].
    by destruct (id_keys pids).
  - unfold videoWorkerRun, run_ids. simpl.
    destruct (id_keys pids) as [|i0 I0] eqn:Ei; [done|]. simpl.
    by destruct (opened pg).
Qed.

(** A Set request in which every id and every name is blank finds
    nothing to check and nothing to verify: whenever the overlay opens
    and the page lets the worker look at it again, the result is not
    [ok], with the failed confirmation as its reason. *)
Theorem blank_set_request_is_not_confirmed pg payload ov again :
  clearAll payload = false →
  id_keys (playlistIds payload) = [] → run_namesRaw payload = [] →
  opened pg = inr ov → reopened pg = Some again →
  ok (videoWorkerRun pg payload) = false
  ∧ reason (videoWorkerRun pg payload)
    = Some "overlay did not confirm/close in time or post-verify failed"
  ∧ details (videoWorkerRun pg payload)
    = Some (DetailsEnsured no_entries false).
Proof.
  intros Hclear Hids Hnames Hov Hre.
  assert (He : ensurePlaylistsChecked (stored pg) ov [] [] = no_entries).
  { unfold ensurePlaylistsChecked. by destruct (container ov). }
  assert (Hcf : confirmAndCloseOverlay pg (Some ModeSet) [] [] = false).
  { unfold confirmAndCloseOverlay, verifyVideoOverlayState. rewrite Hre.
    destruct again as [why|ov2]; [by rewrite andb_false_r|].
    unfold countWantedCheckedInOverlay.
    destruct (container ov2); simpl; by rewrite andb_false_r. }
  unfold videoWorkerRun, run_ids. rewrite Hclear, Hids, Hnames, Hov.
  cbn -[confirmAndCloseOverlay ensurePlaylistsChecked].
  by rewrite He, Hcf.
Qed.

End WorkerFacts.

(** * Further facts about the job runner *)

Module RunnerFacts.
Import JsString JsText Background JobFacts JobReading.

Section Runner.
Context `{UrlApi}.

(** *** The queue *)

Lemma length_uniq_le {A} `{EqDecision A} (l : list A) : length (uniq l) ≤ length l.
Proof.
  apply submseteq_length, NoDup_submseteq; [apply NoDup_uniq|].
  intros x. by rewrite elem_of_uniq.
Qed.

Lemma job_start_accepted p s :
  rejected p = false → job (start p s) = Some (new_job p).
Proof. intros Hp. by rewrite start_accepted. Qed.

(** The queue of a job holds the submitted URLs, normalized, in the
    order in which they were submitted: the first submitted URL is the
    first target and the one the hidden tab is created with, and when
    the normalized URLs are all different the queue is exactly their
    list.  No target ends with a slash, whatever the URL parser makes
    of the submitted text. *)
Theorem queue_keeps_submission_order p s :
  rejected p = false →
  let urls := default [] (p_videoUrls p) in
  ∃ j, job (start p s) = Some j
    ∧ (∀ u, u ∈ queue j → ends_with_slash u = false)
    ∧ head (queue j) = (fun u => stripParams (toAbs u)) <$> head urls
    ∧ (NoDup (stripParams <$> (toAbs <$> urls)) →
       queue j = stripParams <$> (toAbs <$> urls))
    ∧ last (snd <$> log (start p s))
      = (fun u => TabsCreate (stripParams (toAbs u))) <$> head urls.
Proof.
  intros Hp urls. exists (new_job p).
  split; [by apply job_start_accepted|]. simpl.
  assert (Hhead : head (targets p) = (fun u => stripParams (toAbs u)) <$> head urls).
  { unfold targets. fold urls. destruct urls as [|u urls']; [done|].
    rewrite !fmap_cons, uniq_cons. done. }
  split_and!.
  - intros u Hu. unfold targets in Hu. rewrite elem_of_uniq in Hu.
    apply list_elem_of_fmap in Hu as (v & -> & _). apply stripParams_ends.
  - exact Hhead.
  - intros Hn. unfold targets. fold urls. by apply uniq_NoDup.
  - rewrite start_accepted by done. unfold emit at 1. simpl.
    rewrite fmap_app. cbn [fmap list_fmap snd]. rewrite last_snoc.
    destruct (targets_accepted p Hp) as (u & U & Ht).
    rewrite Ht in Hhead. simpl in Hhead. rewrite Ht. simpl.
    destruct (head urls); simpl in *; congruence.
Qed.

(** *** A request while a job is on *)

Lemma timers_start p s : timers (start p s) = timers (cleanup s).
Proof.
  destruct (rejected p) eqn:Hp.
  - by rewrite start_rejected.
  - by rewrite start_accepted.
Qed.

Lemma lifecycle_start p s :
  lifecycle (start p s)
  = lifecycle s ++ removal s
    ++ (if rejected p
        then [SendMessage (Error "Missing videos or playlists.")]
        else opening p).
Proof.
  destruct (cleanup_spec s) as (_ & _ & _ & _ & Hl).
  destruct (rejected p) eqn:Hp.
  - rewrite start_rejected by done. rewrite lifecycle_emit, Hl. simpl.
    by rewrite <- app_assoc.
  - rewrite start_accepted by done. rewrite lifecycle_emit. simpl.
    change (lifecycle (set_pending ?c ?i ?s)) with (lifecycle s).
    rewrite lifecycle_emit. simpl.
    change (lifecycle (set_job ?j ?s)) with (lifecycle s).
    rewrite Hl, <- !app_assoc. done.
Qed.

(** A request that arrives while a job is on ends that job on the
    spot, whether or not the new request is accepted: the old job's tab
    is removed (unless it has none yet, or [debugKeepTab]), its timer
    is disarmed and its listener is taken off, and no completion event
    is sent for it.  What follows is the error event of a rejected
    request or the opening of the new job. *)
Theorem request_cancels_running_job p s j :
  job s = Some j →
  let s' := start p s in
  job s' = (if rejected p then None else Some (new_job p))
  ∧ lifecycle s'
    = lifecycle s ++ removal s
      ++ (if rejected p
          then [SendMessage (Error "Missing videos or playlists.")]
          else opening p)
  ∧ filter (fun m => Is_true (is_complete m)) (messages s')
    = filter (fun m => Is_true (is_complete m)) (messages s)
  ∧ (∀ tm, videoTimer j = Some tm → tm ∉ (timers s').*1)
  ∧ onUpdatedAdded s' = false.
Proof.
  intros Hj s'. subst s'. split_and!.
  - destruct (rejected p) eqn:Hp.
    + rewrite start_rejected by done. simpl. unfold cleanup. by rewrite Hj.
    + by apply job_start_accepted.
  - apply lifecycle_start.
  - destruct (rejected p) eqn:Hp.
    + rewrite start_rejected by done.
      rewrite messages_emit, messages_cleanup, filter_app. simpl.
      by rewrite app_nil_r.
    + rewrite start_accepted by done. rewrite messages_emit. simpl.
      rewrite app_nil_r.
      change (messages (set_pending ?c ?i ?s)) with (messages s).
      rewrite messages_emit.
      change (messages (set_job ?j ?s)) with (messages s).
      rewrite messages_cleanup, filter_app. simpl. by rewrite app_nil_r.
  - intros tm Htm. rewrite timers_start. unfold cleanup. rewrite Hj, Htm. simpl.
    intros Hin. apply list_elem_of_fmap in Hin as ([a b] & -> & Hin).
    apply list_elem_of_filter in Hin as [Hne _]. by apply Hne.
  - destruct (rejected p) eqn:Hp.
    + rewrite start_rejected by done. simpl. unfold cleanup. by rewrite Hj.
    + rewrite start_accepted by done. simpl. unfold cleanup. by rewrite Hj.
Qed.

(** *** Messages that are not the worker's *)

(** While a job is on, a message that does not come from the job's tab,
    or that is not a [videoWorkerResult], changes nothing: the job, the
    timers and the log stay as they are. *)
Theorem foreign_messages_are_ignored s j sender msg :
  job s = Some j →
  sender = None ∨ tabId j ≠ sender ∨ msg = OtherMessage →
  let s' := handle (WorkerMessage sender msg) s in
  job s' = job s ∧ log s' = log s ∧ timers s' = timers s.
Proof.
  intros Hj Hf s'. subst s'. unfold handle.
  destruct (negb (enabled (WorkerMessage sender msg) s)); [done|].
  assert (Hfix : ∀ y, job y = Some j → workerHandler sender msg y = y).
  { intros y Hy. unfold workerHandler. rewrite Hy.
    destruct sender as [t|]; [|done].
    case_bool_decide as Ht; [|done].
    destruct Hf as [?|[Hne| ->]]; [done|by destruct Hne|done]. }
  rewrite (iter_fixed _ (fun y => job y = Some j)); [done|exact Hfix|].
  by destruct sender.
Qed.

(** *** Clear requests *)

(** A [clearPlaylistsFromVideos] message with at least one URL always
    starts a job: a Clear job with no playlist, a timeout of 30000 ms
    and at least one target, announced in mode "clear".  Without URLs
    it is rejected like any request with nothing to do. *)
Theorem clear_request_always_starts urls s :
  urls ≠ [] →
  let s' := handle (ClearPlaylistsFromVideos (Some urls)) s in
  (∃ j, job s' = Some j ∧ clearAll j = true ∧ perVideoTimeoutMs j = 30000%Z
     ∧ playlistIds j = [] ∧ playlistNames j = [] ∧ debugKeepTab j = false
     ∧ 0 < total j ≤ length urls
     ∧ messages s' = messages (cleanup s) ++ [Started (total j) "clear"])
  ∧ job (handle (ClearPlaylistsFromVideos None) s) = None
  ∧ messages (handle (ClearPlaylistsFromVideos None) s)
    = messages s ++ [Error "Missing videos or playlists."].
Proof.
  intros Hne s'. subst s'. unfold handle. simpl.
  set (p := {| p_playlistIds := None; p_playlistNames := None;
               p_videoUrls := Some urls; p_debugKeepTab := None;
               p_clearAll := Some true; p_perVideoTimeoutMs := Some 30000%Z |}).
  assert (Ht : targets p ≠ []).
  { unfold targets. simpl. destruct urls as [|u urls']; [done|].
    rewrite !fmap_cons, uniq_cons. done. }
  assert (Hp : rejected p = false).
  { unfold rejected, lacks_playlists. simpl. rewrite orb_false_r.
    by destruct (targets p). }
  split.
  - exists (new_job p). rewrite start_accepted by done.
    split_and!; try done.
    + simpl. destruct (targets p); [done|simpl; lia].
    + simpl. unfold targets. simpl.
      etrans; [apply length_uniq_le|]. by rewrite !length_fmap.
    + rewrite messages_emit. simpl. rewrite app_nil_r.
      change (messages (set_pending ?c ?i ?s)) with (messages s).
      rewrite messages_emit.
      change (messages (set_job ?j ?s)) with (messages s). done.
  - set (q := {| p_playlistIds := None; p_playlistNames := None;
                 p_videoUrls := Some []; p_debugKeepTab := None;
                 p_clearAll := Some true; p_perVideoTimeoutMs := Some 30000%Z |}).
    assert (Hq : rejected q = true) by done.
    rewrite start_rejected by done. split.
    + simpl. by destruct (cleanup_spec s) as [-> _].
    + by rewrite messages_emit, messages_cleanup.
Qed.

(** *** The tab at the end of a job *)

Lemma rounds_finished U t keep notes note :
  S (length notes) = length U →
  rounds U t keep (notes ++ [note])
  = rounds U t keep notes
    ++ SendMessage (Progress (S (length notes)) (length U)
                      (url_or_null (U !! length notes)) note)
    :: SendMessage (Complete (S (length notes)) (length U) "All videos processed.")
    :: (if keep then [] else [TabsRemove t]).
Proof.
  intros Hl. rewrite rounds_snoc. f_equal. unfold round.
  by rewrite (lookup_ge_None_2 U (S (length notes))) by lia.
Qed.

(** A job removes its tab once, as the last thing it does, after the
    completion event; it removes no tab when it was asked to keep it
    ([debugKeepTab]) or when the browser gave it none. *)
Theorem tab_is_removed_last_or_kept p s0 evs :
  idle s0 → rejected p = false → no_request evs = true →
  let s := run evs (start p s0) in
  let removals :=
    filter (fun e => Is_true (is_remove e)) (lifecycle_since s0 s) in
  (default false (p_debugKeepTab p) = true → removals = [])
  ∧ (is_Some (job s) → removals = [])
  ∧ (default false (p_debugKeepTab p) = false → job s = None →
     (removals = []
      ∧ last (lifecycle_since s0 s)
        = Some (SendMessage (Complete 0 (length (targets p))
                               "Failed to create hidden tab.")))
     ∨ (∃ t, t ≠ 0 ∧ removals = [TabsRemove t]
          ∧ last (lifecycle_since s0 s) = Some (TabsRemove t)
          ∧ SendMessage (Complete (length (targets p)) (length (targets p))
                           "All videos processed.")
            ∈ lifecycle_since s0 s)).
Proof.
  intros Hi Hp Hn s removals. subst s removals.
  destruct (targets_accepted p Hp) as (u & U & Ht).
  destruct (single_job_inv p s0 evs Hi Hp Hn) as [Ha|[Hr|Hf]].
  - destruct Ha as (Ej & _ & _ & _ & _ & Hl).
    rewrite (lifecycle_since_app _ _ _ Hl), Ej. split_and!; done.
  - destruct Hr as (t & notes & j & Ej & _ & _ & _ & _ & _ & _ & Hlt & _ & _ & Hl).
    rewrite <- app_assoc in Hl. rewrite (lifecycle_since_app _ _ _ Hl), Ej.
    rewrite filter_app, filter_rounds_remove by done.
    split_and!; done.
  - destruct Hf as (Ej & _ & [(t & notes & Ht0 & Hlen & Hl)|Hl]);
      rewrite <- app_assoc in Hl; rewrite (lifecycle_since_app _ _ _ Hl), Ej.
    + destruct notes as [|note notes _] using rev_ind.
      { rewrite Ht in Hlen. done. }
      rewrite length_app in Hlen. simpl in Hlen.
      rewrite rounds_finished by lia.
      rewrite !filter_app, filter_rounds_remove by lia.
      change (debugKeepTab (new_job p)) with (default false (p_debugKeepTab p)).
      assert (Hdone : S (length notes) = length (targets p)) by lia.
      split_and!.
      * intros ->. done.
      * by intros [].
      * intros -> _. right. exists t. split_and!; [done|done| |].
        -- by rewrite !last_app.
        -- rewrite Hdone. apply elem_of_app. right. apply elem_of_app. right.
           right. by left.
    + split_and!; [done|by intros []|].
      intros _ _. left. split; [done|]. by rewrite last_app_cons.
Qed.

(** *** The vocabulary of the events *)

Lemma known_nil : forallb known_message [] = true.
Proof. done. Qed.

Lemma adds_known_refl s s' : messages s' = messages s → adds_known s s'.
Proof. intros Hm. exists []. by rewrite app_nil_r. Qed.

Lemma adds_known_trans s1 s2 s3 :
  adds_known s1 s2 → adds_known s2 s3 → adds_known s1 s3.
Proof.
  intros (e1 & H1 & K1) (e2 & H2 & K2). exists (e1 ++ e2).
  rewrite H2, H1, <- app_assoc. split; [done|].
  by rewrite forallb_app, K1, K2.
Qed.

Lemma adds_known_emit e s :
  match e with SendMessage m => known_message m = true | _ => True end →
  adds_known s (emit e s).
Proof.
  intros Hk. eexists. split; [apply messages_emit|].
  destruct e; try done. simpl. by rewrite Hk.
Qed.

Lemma adds_known_cleanup s : adds_known s (cleanup s).
Proof. apply adds_known_refl, messages_cleanup. Qed.

(** Peel the outermost update off the state on the right. *)
Ltac known_step :=
  lazymatch goal with
  | |- adds_known ?s ?s => by apply adds_known_refl
  | |- adds_known _ (emit _ ?x) =>
      apply (adds_known_trans _ x); [|apply adds_known_emit]
  | |- adds_known _ (cleanup ?x) =>
      apply (adds_known_trans _ x); [|apply adds_known_cleanup]
  | |- adds_known _ (set_job _ ?x) =>
      apply (adds_known_trans _ x); [|by apply adds_known_refl]
  | |- adds_known _ (set_pending _ _ ?x) =>
      apply (adds_known_trans _ x); [|by apply adds_known_refl]
  | |- adds_known _ (set_timers _ _ ?x) =>
      apply (adds_known_trans _ x); [|by apply adds_known_refl]
  | |- adds_known _ (set_listeners _ _ ?x) =>
      apply (adds_known_trans _ x); [|by apply adds_known_refl]
  | |- adds_known _ (set_tabs _ ?x) =>
      apply (adds_known_trans _ x); [|by apply adds_known_refl]
  | |- adds_known _ (set_now _ ?x) =>
      apply (adds_known_trans _ x); [|by apply adds_known_refl]
  | |- adds_known _ (clearTimer _ ?x) =>
      apply (adds_known_trans _ x); [|by apply adds_known_refl]
  | |- adds_known _ (clearTimeout _ ?x) =>
      apply (adds_known_trans _ x); [|by apply adds_known_refl]
  | |- adds_known _ (see_tab _ ?x) =>
      apply (adds_known_trans _ x); [|by apply adds_known_refl]
  end.

Lemma adds_known_next s : adds_known s (next s).
Proof.
  unfold next. destruct (job s) as [j|]; [|known_step].
  cbv zeta. destruct (queue (with_progress (done j) None j)) as [|u r];
    repeat known_step; done.
Qed.

Lemma adds_known_finish_target note s :
  known_note note = true → adds_known s (finish_target note s).
Proof.
  intros Hk. unfold finish_target.
  destruct (job s) as [j|]; [|known_step]. cbv zeta.
  eapply adds_known_trans; [|apply adds_known_next].
  unfold sendProgress. repeat known_step; done.
Qed.

Lemma known_result_note j ok reason :
  known_note (result_note j ok reason) = true.
Proof.
  unfold result_note. destruct ok.
  - by destruct (clearAll j).
  - unfold known_note.
    rewrite TextFacts.prefix_app. by rewrite !orb_true_r.
Qed.

Lemma adds_known_workerHandler sender msg s :
  adds_known s (workerHandler sender msg s).
Proof.
  unfold workerHandler. destruct (job s) as [j|]; [|known_step].
  destruct sender as [t|]; [|known_step].
  case_bool_decide; [|known_step].
  destruct msg as [ok reason|]; [|known_step]. cbv zeta.
  eapply adds_known_trans; [|apply adds_known_finish_target, known_result_note].
  repeat known_step.
Qed.

Lemma adds_known_iter n sender msg s :
  adds_known s (Nat.iter n (workerHandler sender msg) s).
Proof.
  induction n as [|n IH]; [by apply adds_known_refl|].
  simpl. eapply adds_known_trans; [exact IH|apply adds_known_workerHandler].
Qed.

Lemma adds_known_start p s : adds_known s (start p s).
Proof.
  destruct (rejected p) eqn:Hp.
  - rewrite start_rejected by done. repeat known_step; done.
  - rewrite start_accepted by done. repeat known_step; [|done].
    unfold mode_of. simpl. by destruct (default false (p_clearAll p)).
Qed.

Lemma adds_known_handle e s : adds_known s (handle e s).
Proof.
  unfold handle. destruct (negb (enabled e s)); [known_step|].
  destruct e as [p|urls|tab|t complete|t lastError|tm|sender msg|t|ms].
  - apply adds_known_start.
  - apply adds_known_start.
  - set (s1 := see_tab tab _).
    assert (H1 : adds_known s s1) by (subst s1; repeat known_step).
    eapply adds_known_trans; [exact H1|]. clearbody s1.
    unfold onCreated.
    destruct tab as [[|n]|]; destruct (job s1) as [j|] eqn:Ej;
      cbv zeta; repeat known_step; done.
  - cbv zeta. set (s1 := see_tab (Some t) s).
    assert (H1 : adds_known s s1) by (subst s1; repeat known_step).
    eapply adds_known_trans; [exact H1|]. clearbody s1.
    destruct (onUpdatedAdded s1); [|known_step].
    unfold onUpdated. destruct (job s1) as [j|]; [|known_step].
    destruct (bool_decide (tabId j = Some t) && complete);
      repeat known_step; done.
  - set (s1 := set_pending _ _ s).
    assert (H1 : adds_known s s1) by (subst s1; repeat known_step).
    eapply adds_known_trans; [exact H1|]. clearbody s1.
    unfold onInjected.
    destruct lastError; [by apply adds_known_finish_target|].
    destruct (job s1) as [j|]; [|known_step].
    unfold setTimeout. repeat known_step; done.
  - unfold onTimeout.
    eapply adds_known_trans; [|by apply adds_known_finish_target].
    repeat known_step.
  - cbv zeta. set (s1 := see_tab sender s).
    assert (H1 : adds_known s s1) by (subst s1; repeat known_step).
    eapply adds_known_trans; [exact H1|apply adds_known_iter].
  - apply adds_known_refl. by rewrite messages_onRemoved.
  - repeat known_step.
Qed.

Lemma adds_known_run evs s : adds_known s (run evs s).
Proof.
  revert s. induction evs as [|e evs IH]; intros s; [by apply adds_known_refl|].
  simpl. eapply adds_known_trans; [apply adds_known_handle|apply IH].
Qed.

(** Whatever happens to the service worker, requests included, the
    events it sends are of a fixed vocabulary: a start in mode "clear"
    or "set", the one error message, the two completion notes, and
    progress notes that read "Inject failed; skipping.", "Timeout;
    skipping.", "Cleared", "Updated" or begin with "Skipped: ". *)
Theorem events_have_known_notes evs s :
  forallb known_message (messages_since s (run evs s)) = true.
Proof.
  destruct (adds_known_run evs s) as (extra & Hm & Hk).
  unfold messages_since. by rewrite Hm, drop_app_length.
Qed.

End Runner.
End RunnerFacts.

(** * Further facts about the [tabs.onRemoved] listener *)

Module ListenerFacts.
Import JsString Background.

Lemma registry_cleanup_none t (obj : list (string * option nat)) :
  Forall (fun kv => kv.2 ≠ Some t) obj → registry_cleanup t obj = obj.
Proof.
  intros Hall. unfold registry_cleanup.
  assert (list_find (fun kv : string * option nat => kv.2 = Some t) obj = None)
    as ->; [|done].
  by apply list_find_None.
Qed.

Lemma registry_cleanup_first t (l1 : list (string * option nat)) k l2 :
  Forall (fun kv => kv.2 ≠ Some t) l1 →
  registry_cleanup t (l1 ++ (k, Some t) :: l2)
  = if truthy k then l1 ++ l2 else l1 ++ (k, Some t) :: l2.
Proof.
  intros Hall. unfold registry_cleanup.
  rewrite list_find_app_r by (by apply list_find_None).
  simpl. rewrite decide_True by done. simpl.
  destruct (truthy k); [|done].
  apply delete_middle.
Qed.

Lemma registry_split t (obj : list (string * option nat)) :
  Forall (fun kv => kv.2 ≠ Some t) obj
  ∨ ∃ l1 k l2, obj = l1 ++ (k, Some t) :: l2
      ∧ Forall (fun kv => kv.2 ≠ Some t) l1.
Proof.
  induction obj as [|[k v] obj IH]; [by left|].
  destruct (decide (v = Some t)) as [->|Hne].
  - right. by exists [], k, obj.
  - destruct IH as [IH|(l1 & k' & l2 & -> & Hl1)].
    + left. by constructor.
    + right. exists ((k, v) :: l1), k', l2. split; [done|]. by constructor.
Qed.

(** The clean-up of a registry of pending tasks on the closure of a
    tab takes out one task at most: the first one that holds the tab,
    and only if its key is not the empty string.  Tasks of other tabs,
    and any further task of the same tab, stay; a registry with no task
    for the tab is left as it is. *)
Theorem registry_cleanup_drops_first_task t (obj : list (string * option nat)) :
  (Forall (fun kv => kv.2 ≠ Some t) obj → registry_cleanup t obj = obj)
  ∧ (∀ l1 k l2, obj = l1 ++ (k, Some t) :: l2 →
       Forall (fun kv => kv.2 ≠ Some t) l1 →
       registry_cleanup t obj = if truthy k then l1 ++ l2 else obj)
  ∧ filter (fun kv => kv.2 ≠ Some t) (registry_cleanup t obj)
    = filter (fun kv => kv.2 ≠ Some t) obj
  ∧ length obj - 1 ≤ length (registry_cleanup t obj) ≤ length obj.
Proof.
  split; [apply registry_cleanup_none|].
  split.
  { intros l1 k l2 -> Hl1. by apply registry_cleanup_first. }
  destruct (registry_split t obj) as [Hall|(l1 & k & l2 & -> & Hl1)].
  { rewrite registry_cleanup_none by done. split; [done|lia]. }
  rewrite registry_cleanup_first by done.
  destruct (truthy k); [|split; [done|lia]].
  split.
  - rewrite !filter_app. f_equal. by rewrite filter_cons_False by (simpl; tauto).
  - rewrite !length_app. simpl. lia.
Qed.

(** When a tab is closed, each resolver that waits on it is answered
    once, with the empty list, and is then forgotten together with the
    tab's last-applied states; the resolvers of other tabs stay.  A
    second closure of the same tab answers nobody. *)
Theorem closed_tab_resolvers_answer_once t s :
  let r := registries s in
  let s1 := onRemoved t s in
  snd <$> log s1
  = (snd <$> log s)
    ++ (if bool_decide (t ∈ playlistScrapeResolvers r)
        then [ResolvePlaylistScrape t] else [])
    ++ (if bool_decide (t ∈ raidTargetResolvers r)
        then [ResolveRaidTargets t] else [])
  ∧ (t ∉ playlistScrapeResolvers (registries s1))
  ∧ (t ∉ raidTargetResolvers (registries s1))
  ∧ (t ∉ lastAppliedStreamer (registries s1))
  ∧ (t ∉ lastAppliedGamify (registries s1))
  ∧ (∀ t', t' ≠ t →
       (t' ∈ playlistScrapeResolvers (registries s1)
        ↔ t' ∈ playlistScrapeResolvers r)
       ∧ (t' ∈ raidTargetResolvers (registries s1)
          ↔ t' ∈ raidTargetResolvers r))
  ∧ log (onRemoved t s1) = log s1.
Proof.
  intros r s1. subst r s1.
  assert (Hnot : ∀ l : list nat, t ∉ filter (fun x => x ≠ t) l).
  { intros l Hin. apply list_elem_of_filter in Hin as [Hne _]. by apply Hne. }
  split_and!.
  - unfold onRemoved. simpl.
    destruct (bool_decide (t ∈ playlistScrapeResolvers (registries s)));
      destruct (bool_decide (t ∈ raidTargetResolvers (registries s)));
      simpl; rewrite ?fmap_app, ?app_nil_r, <- ?app_assoc; done.
  - apply Hnot.
  - apply Hnot.
  - apply Hnot.
  - apply Hnot.
  - intros t' Hne. unfold onRemoved. simpl.
    rewrite !list_elem_of_filter. tauto.
  - unfold onRemoved at 1. simpl.
    rewrite !bool_decide_eq_false_2 by apply Hnot. done.
Qed.

End ListenerFacts.


(** * Facts about the ownership check *)

Module OwnershipFacts.
Import JsString JsText Ownership TextFacts.

Lemma trim_written before h after :
  plain h → all_ws before = true → all_ws after = true →
  ∀ at_sign, trim (written before at_sign h after)
             = (if at_sign then "@" else "") +:+ h.
Proof.
  intros (Hne & Hs & He & Hat) Hb Ha at_sign. unfold trim, written.
  rewrite trimStart_ws by done.
  assert (Hcore : ∀ x, x ≠ "" → trimStart x = x → trimEnd x = x →
                       trimEnd (trimStart (x +:+ after)) = x).
  { intros x Hx Hxs Hxe. rewrite trimStart_fixed_app by done.
    by rewrite trimEnd_ws. }
  destruct at_sign.
  - rewrite <- app_assoc_string. apply Hcore; [done|done|].
    rewrite app_cons, app_empty_l. simpl. rewrite He. by destruct h.
  - rewrite app_empty_l. by apply Hcore.
Qed.

Lemma normalize_written before at_sign h after :
  plain h → all_ws before = true → all_ws after = true →
  toLowerCase (strip_prefix "@" (trim (written before at_sign h after)))
  = toLowerCase h.
Proof.
  intros Hp Hb Ha. rewrite trim_written by done.
  destruct Hp as (Hne & Hs & He & Hat).
  destruct at_sign; rewrite ?app_cons, !app_empty_l.
  - unfold strip_prefix. simpl. by destruct h.
  - unfold strip_prefix. by rewrite Hat.
Qed.

Lemma written_truthy before at_sign h after :
  h ≠ "" → truthy (written before at_sign h after) = true.
Proof.
  intros Hne. unfold written, truthy.
  destruct before; simpl; [|done]. destruct at_sign; simpl; [done|].
  by destruct h.
Qed.

Lemma toLowerCase_truthy h : h ≠ "" → truthy (toLowerCase h) = true.
Proof. by destruct h. Qed.

Lemma or_default_truthy x : truthy x = true → or_default (Some x) "" = x.
Proof. by destruct x. Qed.

Lemma me_written before at_sign h after answer :
  plain h → all_ws before = true → all_ws after = true →
  fst (getOwnUsername {| rumbleUsername := Some (written before at_sign h after);
                         api := answer |})
  = Some (toLowerCase h).
Proof.
  intros Hp Hb Ha. assert (Hne : h ≠ "") by apply Hp.
  unfold getOwnUsername. cbn [rumbleUsername].
  rewrite or_default_truthy by (by apply written_truthy).
  rewrite written_truthy by done. cbn [fst]. unfold normalizeHandle.
  rewrite or_default_truthy by (by apply written_truthy).
  by rewrite normalize_written.
Qed.

Lemma owner_written before at_sign h after :
  plain h → all_ws before = true → all_ws after = true →
  detectStreamOwnerInTab (Some [Some (written before at_sign h after)])
  = Some (toLowerCase h).
Proof.
  intros Hp Hb Ha. assert (Hne : h ≠ "") by apply Hp.
  unfold detectStreamOwnerInTab. cbn [owner_text].
  rewrite !written_truthy by done. unfold norm.
  rewrite ?or_default_truthy by (by apply written_truthy).
  by rewrite normalize_written.
Qed.

(** The ownership check of a raid ignores case, the white space around
    a name and an [@] in front of it: when the stored user name and the
    channel name on the page are two ways of writing plain handles, the
    tab is the user's exactly when the two handles are equal up to
    case. *)
Theorem ownership_ignores_case_space_and_at
    (h h' b1 a1 b2 a2 : string) (at1 at2 : bool) (answer : option (option string)) :
  plain h → plain h' →
  all_ws b1 = true → all_ws a1 = true → all_ws b2 = true → all_ws a2 = true →
  isTabOwnedByUser
    {| rumbleUsername := Some (written b1 at1 h a1); api := answer |}
    (Some [Some (written b2 at2 h' a2)])
  = bool_decide (toLowerCase h' = toLowerCase h).
Proof.
  intros Hp Hp' Hb1 Ha1 Hb2 Ha2.
  assert (Hne : h ≠ "") by apply Hp. assert (Hne' : h' ≠ "") by apply Hp'.
  unfold isTabOwnedByUser.
  rewrite me_written, owner_written by done.
  rewrite !toLowerCase_truthy by done. simpl.
  destruct (String.eqb_spec (toLowerCase h') (toLowerCase h)) as [E|E].
  - by rewrite bool_decide_eq_true_2.
  - by rewrite bool_decide_eq_false_2.
Qed.

Lemma getOwnUsername_stored st later :
  truthy st = true →
  getOwnUsername {| rumbleUsername := Some st; api := later |}
  = (Some (normalizeHandle (Some st)), Some st).
Proof.
  intros Ht. unfold getOwnUsername. cbn [rumbleUsername].
  by rewrite (or_default_truthy st Ht), Ht.
Qed.

Lemma getOwnUsername_found a me :
  fst (getOwnUsername a) = Some me →
  ∃ st, truthy st = true
    ∧ getOwnUsername a = (Some (normalizeHandle (Some st)), Some st)
    ∧ me = normalizeHandle (Some st).
Proof.
  destruct a as [[st|] answer].
  - destruct (truthy st) eqn:Et.
    + rewrite getOwnUsername_stored by done. intros [= <-]. by exists st.
    + unfold getOwnUsername. cbn [rumbleUsername api].
      assert (or_default (Some st) "" = "") as -> by (by destruct st).
      cbn [truthy is_empty negb].
      destruct answer as [username|]; [|done].
      destruct (truthy (trim (strip_prefix "@" (or_default username "")))) eqn:Ed;
        [|done].
      intros [= <-]. by eexists.
  - unfold getOwnUsername. cbn [rumbleUsername api or_default truthy is_empty negb].
    destruct answer as [username|]; [|done].
    destruct (truthy (trim (strip_prefix "@" (or_default username "")))) eqn:Ed;
      [|done].
    intros [= <-]. by eexists.
Qed.

(** Once [getOwnUsername] has found a name it keeps finding the same
    one: the name it derives from the API is stored, and the stored
    name gives the same answer whatever the API says later.  A stored
    name that normalizes to nothing, such as a lone [@], makes the user
    the owner of no tab. *)
Theorem own_username_is_kept a later page :
  (∀ me, fst (getOwnUsername a) = Some me →
     getOwnUsername {| rumbleUsername := snd (getOwnUsername a); api := later |}
     = (Some me, snd (getOwnUsername a)))
  ∧ (fst (getOwnUsername a) = Some "" → isTabOwnedByUser a page = false)
  ∧ (fst (getOwnUsername a) = None → isTabOwnedByUser a page = false).
Proof.
  split_and!.
  - intros me Hme.
    destruct (getOwnUsername_found a me Hme) as (st & Ht & -> & ->).
    cbn [snd]. by apply getOwnUsername_stored.
  - unfold isTabOwnedByUser. by intros ->.
  - unfold isTabOwnedByUser. by intros ->.
Qed.

End OwnershipFacts.

(** * Facts about the link of a livestream *)

Module LivestreamFacts.
Import JsString JsText Livestream TextFacts.

Lemma length_take_chars n s :
  String.length (take_chars n s) = Nat.min n (String.length s).
Proof.
  revert s. induction n as [|n IH]; intros s; [done|].
  destruct s as [|c s]; [done|]. simpl. by rewrite IH.
Qed.

Lemma all_chars_take p n s :
  all_chars p s = true → all_chars p (take_chars n s) = true.
Proof.
  revert s. induction n as [|n IH]; intros s Hs; [done|].
  destruct s as [|c s]; [done|]. simpl in *.
  apply andb_true_iff in Hs as [Hc Hs]. by rewrite Hc, IH.
Qed.

Lemma match_video_id_unfold c r :
  match_video_id (String c r)
  = (let '(run, rest) := span is_alnum (drop_chars 2 (String c r)) in
     if String.prefix "/v" (String c r) && negb (is_empty run)
        && (is_empty rest || String.prefix "-" rest)
     then Some run
     else match_video_id r).
Proof. reflexivity. Qed.

Lemma match_video_id_skip c r :
  String.prefix "/v" (String c r) = false →
  match_video_id (String c r) = match_video_id r.
Proof.
  intros Hp. rewrite match_video_id_unfold.
  destruct (span is_alnum (drop_chars 2 (String c r))). by rewrite Hp.
Qed.

Lemma match_video_id_here code tail :
  all_chars is_alnum code = true → code ≠ "" →
  tail = "" ∨ String.prefix "-" tail = true →
  match_video_id ("/v" +:+ code +:+ tail) = Some code.
Proof.
  intros Hc Hne Ht. rewrite !app_cons, app_empty_l, match_video_id_unfold.
  cbn [drop_chars].
  rewrite span_app; [| done |].
  - destruct code; [done|]. cbn [is_empty negb String.prefix].
    destruct (ascii_dec "/" "/"); [|done]. destruct (ascii_dec "v" "v"); [|done].
    destruct Ht as [->|Ht]; [done|]. rewrite Ht. by rewrite orb_true_r.
  - destruct Ht as [->|Ht]; [done|]. destruct tail as [|d tail]; [done|].
    unfold String.prefix in Ht. by destruct (ascii_dec "-" d) as [<-|].
Qed.

Lemma match_video_id_spec u c :
  match_video_id u = Some c →
  c ≠ "" ∧ all_chars is_alnum c = true ∧ contains ("/v" +:+ c) u = true.
Proof.
  induction u as [|d r IH]; [done|]. rewrite match_video_id_unfold.
  destruct (span is_alnum (drop_chars 2 (String d r))) as [run rest] eqn:Es.
  destruct (String.prefix "/v" (String d r) && negb (is_empty run)
            && (is_empty rest || String.prefix "-" rest)) eqn:Ec.
  - intros [= <-].
    apply andb_true_iff in Ec as [Ec _]. apply andb_true_iff in Ec as [Hp Hr].
    apply span_spec in Es as (Ha & Hd & _).
    split; [by destruct run|]. split; [done|].
    apply contains_prefix. apply prefix_split in Hp. simpl String.length in Hp.
    rewrite Hp, Hd, <- app_assoc_string. apply prefix_app.
  - intros Hm. destruct (IH Hm) as (? & ? & ?).
    split_and!; [done..|]. by apply contains_cons.
Qed.

Lemma match_code_unfold d r :
  match_code (String d r)
  = (let '(run, _) := span is_alnum (String d r) in
     if Nat.leb 5 (String.length run) then Some (take_chars 12 run)
     else match_code r).
Proof. reflexivity. Qed.

Lemma match_code_spec s c :
  match_code s = Some c →
  5 ≤ String.length c ≤ 12 ∧ all_chars is_alnum c = true.
Proof.
  induction s as [|d r IH]; [done|]. rewrite match_code_unfold.
  destruct (span is_alnum (String d r)) as [run rest] eqn:Es.
  destruct (Nat.leb 5 (String.length run)) eqn:El; [|exact IH].
  intros Hm. apply (inj Some) in Hm. rewrite <- Hm. apply Nat.leb_le in El.
  apply span_spec in Es as (Ha & _ & _).
  rewrite length_take_chars. split; [lia|]. by apply all_chars_take.
Qed.

Lemma first_http_spec cands u :
  first_http cands = Some u → is_http u = true ∧ Str u ∈ cands.
Proof.
  induction cands as [|[v|b] cands IH]; [done| |].
  - simpl. destruct (is_http v) eqn:E.
    + intros [= <-]. split; [done|by left].
    + intros Hf. destruct (IH Hf). split; [done|by right].
  - simpl. intros Hf. destruct (IH Hf). split; [done|by right].
Qed.

Lemma is_http_rumble c : is_http ("https://rumble.com/v" +:+ c) = true.
Proof. unfold is_http. rewrite toLowerCase_app. by vm_compute. Qed.

Lemma derive_from_url ls u :
  url ls = Str u → is_http u = true →
  deriveLivestreamLink ls = (Some u, match_video_id u).
Proof.
  intros Hu Hh. unfold deriveLivestreamLink. rewrite Hu. simpl. by rewrite Hh.
Qed.

Lemma match_video_id_rumble X :
  match_video_id ("https://rumble.com" +:+ X) = match_video_id X.
Proof.
  rewrite !app_cons, app_empty_l.
  by rewrite !match_video_id_skip by reflexivity.
Qed.

Lemma derive_from_video_url ls code tail :
  all_chars is_alnum code = true → code ≠ "" →
  tail = "" ∨ String.prefix "-" tail = true →
  url ls = Str ("https://rumble.com/v" +:+ code +:+ tail) →
  deriveLivestreamLink ls
  = (Some ("https://rumble.com/v" +:+ code +:+ tail), Some code).
Proof.
  intros Hc Hne Ht Hu.
  assert (Hsplit : "https://rumble.com/v" +:+ code +:+ tail
                   = "https://rumble.com" +:+ ("/v" +:+ code +:+ tail))
    by reflexivity.
  rewrite (derive_from_url ls _ Hu) by apply is_http_rumble.
  f_equal. rewrite Hsplit, match_video_id_rumble. by apply match_video_id_here.
Qed.

(** What [deriveLivestreamLink] returns is well formed: a stream URL
    is always an [http(s)] URL; a stream id is never empty, is made of
    letters and digits, comes with a URL and stands in that URL right
    after [/v]; and when the link is derived from a short code because
    no field holds a URL, the id has 5 to 12 characters and the URL is
    [https://rumble.com/v] followed by the id. *)
Theorem derived_link_is_well_formed ls :
  let r := deriveLivestreamLink ls in
  (∀ x, fst r = Some x → is_http x = true)
  ∧ (∀ c, snd r = Some c →
       c ≠ "" ∧ all_chars is_alnum c = true
       ∧ ∃ x, fst r = Some x ∧ contains ("/v" +:+ c) x = true)
  ∧ (first_http [url ls; short_url ls; share_url ls; permalink ls] = None →
     ∀ c, snd r = Some c →
       fst r = Some ("https://rumble.com/v" +:+ c)
       ∧ 5 ≤ String.length c ≤ 12).
Proof.
  intros r. subst r. unfold deriveLivestreamLink.
  destruct (first_http [url ls; short_url ls; share_url ls; permalink ls])
    as [u|] eqn:Ef.
  - apply first_http_spec in Ef as [Hh _]. cbn [fst snd].
    split_and!; [by intros x [= <-]| |done].
    intros c Hc. apply match_video_id_spec in Hc as (? & ? & ?).
    split_and!; [done..|]. by exists u.
  - set (idish := js_or _ _). destruct idish as [s|b].
    + destruct (match_code s) as [code|] eqn:Em; cbn [fst snd].
      * apply match_code_spec in Em as [Hlen Ha].
        split_and!.
        -- intros x [= <-]. apply is_http_rumble.
        -- intros c [= <-]. split_and!; [intros ->; simpl in Hlen; lia|done|].
           eexists. split; [done|].
           change ("https://rumble.com/v" +:+ code)
             with ("https://rumble.com" +:+ ("/v" +:+ code)).
           apply contains_app, contains_prefix, prefix_refl.
        -- intros _ c [= <-]. done.
      * split_and!; [done|done|by intros _ c].
    + cbn [fst snd]. split_and!; [done|done|by intros _ c].
Qed.

(** The link derived from a short code reads back as itself: given as
    the [url] of a livestream, the derived URL yields the same URL and
    the same id.  More generally a video URL
    [https://rumble.com/v<id>], alone or followed by a hyphen and a
    title, yields itself and that id, whatever the other fields hold. *)
Theorem derived_link_round_trips ls ls' c :
  first_http [url ls; short_url ls; share_url ls; permalink ls] = None →
  snd (deriveLivestreamLink ls) = Some c →
  (url ls' = Str ("https://rumble.com/v" +:+ c) →
   deriveLivestreamLink ls' = deriveLivestreamLink ls)
  ∧ (∀ title, url ls' = Str ("https://rumble.com/v" +:+ c +:+ "-" +:+ title) →
       deriveLivestreamLink ls'
       = (Some ("https://rumble.com/v" +:+ c +:+ "-" +:+ title), Some c)).
Proof.
  intros Hf Hc.
  assert (Hshape : deriveLivestreamLink ls
                   = (Some ("https://rumble.com/v" +:+ c), Some c)
                   ∧ all_chars is_alnum c = true ∧ c ≠ "").
  { unfold deriveLivestreamLink in *. rewrite Hf in *.
    set (idish := js_or _ _) in *. destruct idish as [s|b]; [|done].
    destruct (match_code s) as [code|] eqn:Em; [|done].
    cbn [snd] in Hc. injection Hc as ->.
    apply match_code_spec in Em as [Hlen Ha].
    split_and!; [done|done|]. intros ->. simpl in Hlen. lia. }
  destruct Hshape as (Hd & Ha & Hne). split.
  - intros Hu. rewrite Hd.
    rewrite <- (app_empty_r c) in Hu at 1.
    rewrite (derive_from_video_url ls' c "" Ha Hne (or_introl eq_refl) Hu).
    by rewrite app_empty_r.
  - intros title Hu.
    apply (derive_from_video_url ls' c ("-" +:+ title) Ha Hne); [|done].
    right. apply prefix_app.
Qed.

End LivestreamFacts.

(** * Facts about debouncing *)

Module DebounceFacts.
Import JsString Debounce.

Section Facts.
Context {F : Type}.
Implicit Types (s : State F) (tm : Timer F) (evs : list (Event F)).

Lemma NoDup_fmap_eq {A B} (f : A → B) (l : list A) x y :
  NoDup (f <$> l) → x ∈ l → y ∈ l → f x = f y → x = y.
Proof.
  intros Hn Hx Hy Hf.
  apply list_elem_of_lookup in Hx as [i Hi]. apply list_elem_of_lookup in Hy as [j Hj].
  assert (i = j) as ->; [|congruence].
  apply (NoDup_lookup (f <$> l) i j (f x)); [done| |].
  - by rewrite list_lookup_fmap, Hi.
  - by rewrite list_lookup_fmap, Hj, Hf.
Qed.

Lemma NoDup_fmap_filter {A B} (f : A → B) (P : A → Prop) `{∀ x, Decision (P x)}
    (l : list A) :
  NoDup (f <$> l) → NoDup (f <$> filter P l).
Proof.
  intros Hn. eapply sublist_NoDup; [exact Hn|].
  apply fmap_sublist, sublist_filter.
Qed.

(** The timers that a call leaves armed beside its own are the timers
    of the other keys. *)
Lemma live_timers s key :
  consistent s →
  match table s !! key with
  | Some t => filter (fun tm => t_id tm ≠ t) (armed s)
  | None => armed s
  end
  = filter (fun tm => t_key tm ≠ key) (armed s).
Proof.
  intros (Hlt & Hid & Hkey & Htab).
  destruct (table s !! key) as [t|] eqn:Et.
  - apply WorkerFacts.filter_iff_in. intros tm Hin. split.
    + intros Hne Hk. apply Hne.
      assert (table s !! key = Some (t_id tm)) as Ht by (apply Htab; by exists tm).
      congruence.
    + intros Hne Ht. apply Hne.
      apply Htab in Et as (tm' & Hin' & Hid' & Hk').
      assert (tm = tm') as -> by (apply (NoDup_fmap_eq t_id (armed s)); congruence).
      done.
  - symmetry. apply WorkerFacts.filter_all. intros tm Hin Hk.
    assert (table s !! key = Some (t_id tm)) as Ht by (apply Htab; by exists tm).
    congruence.
Qed.

Lemma consistent_init : consistent (@init F).
Proof.
  split_and!; simpl; [by intros tm Hin; apply not_elem_of_nil in Hin
                     |apply NoDup_nil_2|apply NoDup_nil_2|].
  intros k id. rewrite lookup_empty. split; [done|].
  intros (tm & Hin & _). by apply not_elem_of_nil in Hin.
Qed.

Lemma consistent_debounce key fn ms s :
  consistent s → consistent (debouncePerTab key fn ms s).
Proof.
  intros Hc. pose proof (live_timers s key Hc) as Hlive.
  destruct Hc as (Hlt & Hid & Hkey & Htab).
  unfold debouncePerTab. rewrite Hlive.
  split_and!; simpl.
  - intros tm Hin. apply elem_of_app in Hin as [Hin|Hin].
    + apply list_elem_of_filter in Hin as [_ Hin]. specialize (Hlt tm Hin). lia.
    + apply list_elem_of_singleton in Hin as ->. simpl. lia.
  - rewrite fmap_app. apply NoDup_app. split_and!.
    + by apply NoDup_fmap_filter.
    + intros x Hx Hx'. apply list_elem_of_singleton in Hx' as ->.
      apply list_elem_of_fmap in Hx as (tm & Hid' & Hin).
      apply list_elem_of_filter in Hin as [_ Hin]. specialize (Hlt tm Hin).
      simpl in Hid'. lia.
    + apply NoDup_singleton.
  - rewrite fmap_app. apply NoDup_app. split_and!.
    + by apply NoDup_fmap_filter.
    + intros x Hx Hx'. apply list_elem_of_singleton in Hx' as ->.
      apply list_elem_of_fmap in Hx as (tm & Hk & Hin).
      apply list_elem_of_filter in Hin as [Hne _]. simpl in Hk. by apply Hne.
    + apply NoDup_singleton.
  - intros k id. destruct (decide (key = k)) as [<-|Hne].
    + rewrite lookup_insert_eq. split.
      * intros [= <-]. eexists. split; [apply elem_of_app; right; by left|done].
      * intros (tm & Hin & <- & Hk). apply elem_of_app in Hin as [Hin|Hin].
        -- apply list_elem_of_filter in Hin as [Hne _]. by destruct Hne.
        -- by apply list_elem_of_singleton in Hin as ->.
    + rewrite lookup_insert_ne by done. rewrite Htab. split.
      * intros (tm & Hin & <- & <-). exists tm. split; [|done].
        apply elem_of_app. left. apply list_elem_of_filter. split; [|done].
        simpl. congruence.
      * intros (tm & Hin & <- & <-). apply elem_of_app in Hin as [Hin|Hin].
        -- apply list_elem_of_filter in Hin as [_ Hin]. by exists tm.
        -- apply list_elem_of_singleton in Hin as ->. simpl in Hne. done.
Qed.

Lemma consistent_fire id s : consistent s → consistent (fire id s).
Proof.
  intros (Hlt & Hid & Hkey & Htab). unfold fire.
  destruct (list_find (fun tm => t_id tm = id) (armed s)) as [[i tm]|] eqn:Ef;
    [|done].
  destruct (Z.leb (t_due tm) (clock s)); [|done].
  apply list_find_Some in Ef as (Hi & Hidtm & _).
  assert (Hin : tm ∈ armed s) by (apply list_elem_of_lookup; by exists i).
  split_and!; simpl.
  - intros x Hx. apply list_elem_of_filter in Hx as [_ Hx]. by apply Hlt.
  - by apply NoDup_fmap_filter.
  - by apply NoDup_fmap_filter.
  - intros k id'. destruct (decide (t_key tm = k)) as [<-|Hne].
    + rewrite lookup_delete_eq. split; [done|].
      intros (x & Hx & _ & Hk). apply list_elem_of_filter in Hx as [Hxid Hx].
      assert (x = tm) as -> by (by apply (NoDup_fmap_eq t_key (armed s))).
      done.
    + rewrite lookup_delete_ne by done. rewrite Htab. split.
      * intros (x & Hx & <- & <-). exists x. split; [|done].
        apply list_elem_of_filter. split; [|done].
        intros Hxid. apply Hne. f_equal.
        apply (NoDup_fmap_eq t_id (armed s)); congruence.
      * intros (x & Hx & <- & <-). apply list_elem_of_filter in Hx as [_ Hx].
        by exists x.
Qed.

Lemma consistent_run evs s : consistent s → consistent (run evs s).
Proof.
  revert s. induction evs as [|e evs IH]; intros s Hc; [done|].
  simpl. apply IH. destruct e as [key fn ms|id|ms]; simpl.
  - by apply consistent_debounce.
  - by apply consistent_fire.
  - by destruct (Z.leb 0 ms).
Qed.

Lemma run_snoc evs e s : run (evs ++ [e]) s = handle e (run evs s).
Proof. unfold run. by rewrite foldl_app. Qed.

Lemma ran_or_armed_were_called evs :
  ran (run evs init) ++ (t_fn <$> armed (run evs init)) ⊆+ called evs.
Proof.
  induction evs as [|e evs IH] using rev_ind; [done|].
  rewrite run_snoc. unfold called in *. rewrite omap_app.
  set (s := run evs init) in *.
  destruct e as [key fn ms|id|ms]; simpl.
  - rewrite fmap_app, app_assoc. simpl. apply submseteq_app; [|done].
    etrans; [|exact IH]. apply submseteq_app; [done|].
    apply sublist_submseteq, fmap_sublist.
    destruct (table s !! key); [apply sublist_filter|done].
  - rewrite app_nil_r. unfold fire.
    destruct (list_find (fun tm => t_id tm = id) (armed s)) as [[i tm]|] eqn:Ef;
      [|done].
    destruct (Z.leb (t_due tm) (clock s)); [|done]. simpl.
    etrans; [|exact IH]. rewrite <- app_assoc. apply submseteq_app; [done|].
    apply list_find_Some in Ef as (Hi & Hidtm & _).
    rewrite <- (take_drop_middle _ _ _ Hi).
    rewrite filter_app, filter_cons_False by (simpl; tauto).
    rewrite !fmap_app, fmap_cons. simpl.
    etrans; [|apply Permutation_submseteq, Permutation_middle].
    apply submseteq_skip, submseteq_app;
      apply sublist_submseteq, fmap_sublist, sublist_filter.
  - rewrite app_nil_r. by destruct (Z.leb 0 ms).
Qed.

(** Debouncing keeps, for every key, the last call only.  At any time
    no two armed timers have the same key, and the table holds exactly
    the armed timers; a call leaves for its key one timer, its own, due
    after its delay (450 ms unless it says otherwise), so what an
    earlier call for that key was waiting to run is dropped; the
    timers of other keys and what has run stay as they are. *)
Theorem debounce_keeps_last_call evs key fn ms :
  let s := run evs init in
  let s' := debouncePerTab key fn ms s in
  NoDup (t_key <$> armed s)
  ∧ (∀ k id, table s !! k = Some id
             ↔ ∃ tm, tm ∈ armed s ∧ t_id tm = id ∧ t_key tm = k)
  ∧ filter (fun tm => t_key tm = key) (armed s')
    = [ {| t_id := next_id s; t_key := key; t_fn := fn;
           t_due := (clock s + Background.timer_delay (default 450%Z ms))%Z |} ]
  ∧ filter (fun tm => t_key tm ≠ key) (armed s')
    = filter (fun tm => t_key tm ≠ key) (armed s)
  ∧ ran s' = ran s.
Proof.
  intros s s'. subst s'.
  assert (Hc : consistent s) by apply consistent_run, consistent_init.
  pose proof (live_timers s key Hc) as Hlive.
  destruct Hc as (Hlt & Hid & Hkey & Htab).
  split; [done|]. split; [done|].
  unfold debouncePerTab. simpl. rewrite Hlive. split_and!; [| |done].
  - rewrite filter_app, list_filter_filter.
    rewrite (WorkerFacts.filter_iff_in _ (fun _ => False))
      by (intros tm _; tauto).
    assert (∀ l : list (Timer F), filter (fun _ => False) l = []) as ->.
    { induction l as [|x l IH]; [done|]. rewrite filter_cons_False; [done|tauto]. }
    by rewrite filter_cons_True.
  - rewrite filter_app, list_filter_filter.
    rewrite (filter_cons_False (fun tm => t_key tm ≠ key)) by (simpl; tauto).
    rewrite filter_nil, app_nil_r.
    apply list_filter_iff. tauto.
Qed.

(** A debounced function runs at most once per call: the functions
    that have run, together with those that wait on an armed timer, are
    among the functions passed to the calls, each counted as often as
    it was passed.  So there are never more runs than calls. *)
Theorem debounced_runs_come_from_calls evs :
  let s := run evs init in
  ran s ++ (t_fn <$> armed s) ⊆+ called evs
  ∧ length (ran s) + length (armed s) ≤ length (called evs)
  ∧ (∀ f, f ∈ ran s → f ∈ called evs).
Proof.
  intros s. subst s. pose proof (ran_or_armed_were_called evs) as Hsub.
  split; [done|]. split.
  - apply submseteq_length in Hsub. by rewrite length_app, length_fmap in Hsub.
  - intros f Hf. eapply elem_of_submseteq; [|exact Hsub].
    apply elem_of_app. by left.
Qed.

End Facts.
End DebounceFacts.

(** * Facts about the choice of the save button *)

Module SaveButtonFacts.
Import JsString JsText SaveButton.

Lemma head_insert_desc x l :
  head (insert_desc x l)
  = match head l with
    | None => Some x
    | Some y => if Z.leb (score y) (score x) then Some x else Some y
    end.
Proof. destruct l as [|y l]; [done|]. simpl. by destruct (Z.leb (score y) (score x)). Qed.

(** The head of the sorted list is the first of the buttons with the
    highest score. *)
Lemma head_sort_desc l :
  match head (sort_desc l) with
  | None => l = []
  | Some b =>
      ∃ l1 l2, l = l1 ++ b :: l2
        ∧ (∀ b', b' ∈ l1 → (score b' < score b)%Z)
        ∧ (∀ b', b' ∈ l2 → (score b' <= score b)%Z)
  end.
Proof.
  induction l as [|x l IH]; [done|].
  change (sort_desc (x :: l)) with (insert_desc x (sort_desc l)).
  rewrite head_insert_desc.
  destruct (head (sort_desc l)) as [y|].
  - destruct IH as (l1 & l2 & -> & H1 & H2).
    destruct (Z.leb (score y) (score x)) eqn:E.
    + apply Z.leb_le in E. exists [], (l1 ++ y :: l2).
      split_and!; [done|by intros b' Hb'; apply not_elem_of_nil in Hb'|].
      intros b' Hb'. apply elem_of_app in Hb' as [Hb'|Hb'].
      * specialize (H1 b' Hb'). lia.
      * apply elem_of_cons in Hb' as [->|Hb']; [done|]. specialize (H2 b' Hb'). lia.
    + apply Z.leb_gt in E. exists (x :: l1), l2.
      split_and!; [done| |done].
      intros b' Hb'. apply elem_of_cons in Hb' as [->|Hb']; [done|by apply H1].
  - subst l. exists [], []. split_and!; [done|..];
      by intros b' Hb'; apply not_elem_of_nil in Hb'.
Qed.

Lemma filter_split_inv {A} (P : A → Prop) `{∀ x, Decision (P x)} (l l1 l2 : list A) b :
  filter P l = l1 ++ b :: l2 →
  ∃ m1 m2, l = m1 ++ b :: m2 ∧ filter P m1 = l1 ∧ filter P m2 = l2.
Proof.
  revert l1. induction l as [|x l IH]; intros l1 Hf.
  { by destruct l1. }
  destruct (decide (P x)) as [Hx|Hx].
  - rewrite filter_cons_True in Hf by done.
    destruct l1 as [|y l1]; simpl in Hf; injection Hf as -> Hf.
    + exists [], l. by rewrite Hf.
    + destruct (IH l1 Hf) as (m1 & m2 & -> & <- & <-).
      exists (y :: m1), m2. split_and!; [done| |done].
      by rewrite filter_cons_True.
  - rewrite filter_cons_False in Hf by done.
    destruct (IH l1 Hf) as (m1 & m2 & -> & <- & <-).
    exists (x :: m1), m2. split_and!; [done| |done].
    by rewrite filter_cons_False.
Qed.

Lemma picked_button_spec btns :
  match pickSaveButtonForList (Some btns) with
  | None => ∀ b, b ∈ btns → (score b <= 0)%Z
  | Some b =>
      (0 < score b)%Z
      ∧ ∃ l1 l2, btns = l1 ++ b :: l2
          ∧ (∀ b', b' ∈ l1 → (score b' < score b)%Z)
          ∧ (∀ b', b' ∈ l2 → (score b' <= score b)%Z)
  end.
Proof.
  unfold pickSaveButtonForList.
  pose proof (head_sort_desc (filter (fun b => (0 < score b)%Z) btns)) as Hs.
  destruct (head (sort_desc (filter (fun b => (0 < score b)%Z) btns))) as [b|].
  - destruct Hs as (l1 & l2 & Hf & H1 & H2).
    assert (Hb : (0 < score b)%Z).
    { assert (b ∈ filter (fun b => (0 < score b)%Z) btns) as Hin
        by (rewrite Hf; apply elem_of_app; right; by left).
      by apply list_elem_of_filter in Hin as [? _]. }
    split; [done|].
    apply filter_split_inv in Hf as (m1 & m2 & -> & <- & <-).
    exists m1, m2. split_and!; [done|..]; intros b' Hb'.
    + destruct (decide (0 < score b')%Z) as [Hpos|Hneg]; [|lia].
      apply H1. by apply list_elem_of_filter.
    + destruct (decide (0 < score b')%Z) as [Hpos|Hneg]; [|lia].
      apply H2. by apply list_elem_of_filter.
  - intros b Hb.
    destruct (decide (0 < score b)%Z) as [Hpos|Hneg]; [|lia].
    assert (b ∈ filter (fun b => (0 < score b)%Z) btns) as Hin
      by (by apply list_elem_of_filter).
    rewrite Hs in Hin. by apply not_elem_of_nil in Hin.
Qed.

Lemma picked_button_positive btns b :
  pickSaveButtonForList (Some btns) = Some b → (0 < score b)%Z ∧ b ∈ btns.
Proof.
  intros Hp. pose proof (picked_button_spec btns) as Hs. rewrite Hp in Hs.
  destruct Hs as (Hpos & l1 & l2 & -> & _). split; [done|].
  apply elem_of_app. right. by left.
Qed.

(** [pickSaveButtonForList] returns the first, in document order, of
    the buttons with the highest score, provided that score is
    positive; it returns nothing exactly when no button of the scope
    scores above zero. *)
Theorem picked_button_is_first_best btns :
  (pickSaveButtonForList (Some btns) = None
   ↔ ∀ b, b ∈ btns → (score b <= 0)%Z)
  ∧ (∀ b, pickSaveButtonForList (Some btns) = Some b →
       (0 < score b)%Z
       ∧ ∃ l1 l2, btns = l1 ++ b :: l2
           ∧ (∀ b', b' ∈ l1 → (score b' < score b)%Z)
           ∧ (∀ b', b' ∈ l2 → (score b' <= score b)%Z)).
Proof.
  pose proof (picked_button_spec btns) as Hs.
  destruct (pickSaveButtonForList (Some btns)) as [b|].
  - destruct Hs as (Hpos & l1 & l2 & -> & H1 & H2). split.
    + split; [done|]. intros Hall. exfalso.
      assert (score b <= 0)%Z; [|lia].
      apply Hall, elem_of_app. right. by left.
    + intros b0 [= <-]. split; [done|]. by exists l1, l2.
  - split; [|done]. by split.
Qed.

Lemma confirm_word_has_no_create t :
  is_confirm_word t = true → contains "create" t = false.
Proof.
  unfold is_confirm_word. intros Hw.
  repeat (apply orb_true_iff in Hw as [Hw|Hw]);
    apply String.eqb_eq in Hw; subst t; reflexivity.
Qed.

(** A button whose text contains "create" is never taken for the save
    button unless its [data-js] attribute names [save_to_playlist]: its
    score is negative whatever else it says. *)
Theorem create_button_is_never_picked b :
  contains "create" (button_text b) = true →
  contains "save_to_playlist" (button_ds b) = false →
  (score b < 0)%Z ∧ ∀ btns, pickSaveButtonForList (Some btns) ≠ Some b.
Proof.
  intros Hc Hs.
  assert (Hneg : (score b < 0)%Z).
  { unfold score. rewrite Hc, Hs.
    destruct (is_confirm_word (button_text b)) eqn:Ew.
    { apply confirm_word_has_no_create in Ew. congruence. }
    destruct (playlist_then_save (button_ds b)), (has_word_save (button_text b));
      match goal with |- context [if ?c then 2%Z else 0%Z] => destruct c end; lia. }
  split; [done|]. intros btns Hp.
  destruct (picked_button_positive btns b Hp). lia.
Qed.

End SaveButtonFacts.

(** * Facts about finding the tile of a video *)

Module ListingFacts.
Import JsString JsText Listing TextFacts.

Section Facts.
Context `{Background.UrlApi}.
Variable origin : string.

Lemma length_append a b : String.length (a +:+ b) = String.length a + String.length b.
Proof. induction a as [|c a IH]; [done|]. rewrite app_cons. simpl. by rewrite IH. Qed.

Lemma strip_suffix_unfold pat s :
  strip_suffix pat s
  = if String.eqb s pat then EmptyString
    else match s with
         | EmptyString => EmptyString
         | String c r => String c (strip_suffix pat r)
         end.
Proof. by destruct s. Qed.

Lemma strip_suffix_app pat a : strip_suffix pat (a +:+ pat) = a.
Proof.
  induction a as [|c a IH].
  - rewrite app_empty_l, strip_suffix_unfold. by rewrite String.eqb_refl.
  - rewrite app_cons, strip_suffix_unfold.
    destruct (String.eqb_spec (String c (a +:+ pat)) pat) as [E|E].
    + apply (f_equal String.length) in E. simpl in E.
      rewrite length_append in E. lia.
    + by rewrite IH.
Qed.

(** The id of a video URL is what stands between [/v] and [.html] in
    its path; a path with nothing there gives no id. *)
Theorem video_id_of_video_path u x vid :
  Background.parseURL u (Some origin) = Some x →
  Background.pathname x = "/v" +:+ vid +:+ ".html" →
  getVideoIdFromUrl origin u = (if truthy vid then Some vid else None).
Proof.
  intros Hx Hp. unfold getVideoIdFromUrl. rewrite Hx, Hp.
  unfold strip_prefix. rewrite prefix_app.
  change (String.length "/v") with 2. rewrite !app_cons, app_empty_l.
  cbn [drop_chars]. by rewrite strip_suffix_app.
Qed.

Lemma index_anchors_snoc key hrefs h :
  index_anchors key (hrefs ++ [h])
  = match key h with
    | Some k => <[k := length hrefs]> (index_anchors key hrefs)
    | None => index_anchors key hrefs
    end.
Proof.
  unfold index_anchors. rewrite imap_app, foldl_app. simpl.
  by rewrite Nat.add_0_r.
Qed.

(** What an index holds for a key: the last anchor with that key, or
    nothing when no anchor has it. *)
Lemma index_anchors_spec key hrefs k :
  match index_anchors key hrefs !! k with
  | Some i =>
      (∃ h, hrefs !! i = Some h ∧ key h = Some k)
      ∧ ∀ j h', i < j → hrefs !! j = Some h' → key h' ≠ Some k
  | None => ∀ h, h ∈ hrefs → key h ≠ Some k
  end.
Proof.
  induction hrefs as [|h hrefs IH] using rev_ind.
  { unfold index_anchors. simpl. rewrite lookup_empty.
    intros h Hh. by apply not_elem_of_nil in Hh. }
  rewrite index_anchors_snoc.
  assert (Hkeep : key h ≠ Some k →
    match index_anchors key hrefs !! k with
    | Some i =>
        (∃ h0, (hrefs ++ [h]) !! i = Some h0 ∧ key h0 = Some k)
        ∧ ∀ j h', i < j → (hrefs ++ [h]) !! j = Some h' → key h' ≠ Some k
    | None => ∀ h0, h0 ∈ hrefs ++ [h] → key h0 ≠ Some k
    end).
  { intros Hne. destruct (index_anchors key hrefs !! k) as [i|].
    - destruct IH as [(h0 & Hi & Hk) Hlast]. split.
      + exists h0. split; [|done]. by apply lookup_app_l_Some.
      + intros j h' Hj Hl. apply lookup_app_Some in Hl as [Hl|[Hge Hl]].
        * by apply (Hlast j).
        * apply list_lookup_singleton_Some in Hl as [_ <-]. done.
    - intros h0 Hin. apply elem_of_app in Hin as [Hin|Hin]; [by apply IH|].
      by apply list_elem_of_singleton in Hin as ->. }
  destruct (key h) as [k'|] eqn:Ek; [|by apply Hkeep].
  destruct (decide (k' = k)) as [->|Hne].
  - rewrite lookup_insert_eq. split.
    + exists h. split; [|done]. by rewrite lookup_app_r, Nat.sub_diag.
    + intros j h' Hj Hl. apply lookup_lt_Some in Hl.
      rewrite length_app in Hl. simpl in Hl. lia.
  - rewrite lookup_insert_ne by done. apply Hkeep. congruence.
Qed.

Lemma first_indexed_spec (index : gmap string nat) wanted :
  match first_indexed index wanted with
  | Some (u, a) => u ∈ wanted ∧ index !! u = Some a
  | None => ∀ u, u ∈ wanted → index !! u = None
  end.
Proof.
  induction wanted as [|u wanted IH]; simpl.
  { intros u Hu. by apply not_elem_of_nil in Hu. }
  destruct (index !! u) as [a|] eqn:E.
  - split; [by left|done].
  - destruct (first_indexed index wanted) as [[v a]|].
    + destruct IH. split; [by right|done].
    + intros v Hv. apply elem_of_cons in Hv as [->|Hv]; [done|by apply IH].
Qed.

Lemma not_indexed key hrefs wanted :
  first_indexed (index_anchors key hrefs) wanted = None →
  ∀ u h, u ∈ wanted → h ∈ hrefs → key h ≠ Some u.
Proof.
  intros Hf u h Hu Hh.
  pose proof (first_indexed_spec (index_anchors key hrefs) wanted) as Hs.
  rewrite Hf in Hs. specialize (Hs u Hu).
  pose proof (index_anchors_spec key hrefs u) as Hi. rewrite Hs in Hi.
  by apply Hi.
Qed.

Lemma indexed key hrefs wanted u a :
  first_indexed (index_anchors key hrefs) wanted = Some (u, a) →
  u ∈ wanted
  ∧ (∃ h, hrefs !! a = Some h ∧ key h = Some u)
  ∧ ∀ j h', a < j → hrefs !! j = Some h' → key h' ≠ Some u.
Proof.
  intros Hf.
  pose proof (first_indexed_spec (index_anchors key hrefs) wanted) as Hs.
  rewrite Hf in Hs. destruct Hs as [Hu Ha].
  pose proof (index_anchors_spec key hrefs u) as Hi. rewrite Ha in Hi.
  by destruct Hi.
Qed.

(** [resolveTargetTile] finds a tile exactly when some anchor of the
    page has a wanted URL, id or path.  What it returns is an anchor of
    the page whose URL (or id, or path) is the match, which is one of
    the wanted ones, and it is the last such anchor of the page.  URLs
    go before ids and ids before paths: a match by id means that no
    anchor has a wanted URL, and a match by path that none has a wanted
    URL or id. *)
Theorem resolveTargetTile_spec hrefs wantedAbs wantedIds wantedPaths :
  match resolveTargetTile origin hrefs wantedAbs wantedIds wantedPaths with
  | Some f =>
      let key :=
        match strategy f with
        | ByAbs => abs_key origin
        | ById => id_key origin
        | ByPath => path_key origin
        end in
      let wanted :=
        match strategy f with
        | ByAbs => wantedAbs
        | ById => wantedIds
        | ByPath => wantedPaths
        end in
      matched f ∈ wanted
      ∧ (∃ h, hrefs !! anchor f = Some h ∧ key h = Some (matched f))
      ∧ (∀ j h', anchor f < j → hrefs !! j = Some h' →
           key h' ≠ Some (matched f))
      ∧ (strategy f ≠ ByAbs →
         ∀ u h, u ∈ wantedAbs → h ∈ hrefs → toAbs origin h ≠ u)
      ∧ (strategy f = ByPath →
         ∀ i h, i ∈ wantedIds → h ∈ hrefs → id_key origin h ≠ Some i)
  | None =>
      (∀ u h, u ∈ wantedAbs → h ∈ hrefs → toAbs origin h ≠ u)
      ∧ (∀ i h, i ∈ wantedIds → h ∈ hrefs → id_key origin h ≠ Some i)
      ∧ (∀ p h, p ∈ wantedPaths → h ∈ hrefs → path_key origin h ≠ Some p)
  end.
Proof.
  assert (Habs : first_indexed (index_anchors (abs_key origin) hrefs) wantedAbs = None →
                 ∀ u h, u ∈ wantedAbs → h ∈ hrefs → toAbs origin h ≠ u).
  { intros Hf u h Hu Hh E. apply (not_indexed _ _ _ Hf u h Hu Hh).
    unfold abs_key. by rewrite E. }
  unfold resolveTargetTile.
  destruct (first_indexed (index_anchors (abs_key origin) hrefs) wantedAbs)
    as [[u a]|] eqn:E1.
  { destruct (indexed _ _ _ _ _ E1) as (Hu & Hh & Hlast). simpl.
    split_and!; done. }
  destruct (first_indexed (index_anchors (id_key origin) hrefs) wantedIds)
    as [[i a]|] eqn:E2.
  { destruct (indexed _ _ _ _ _ E2) as (Hu & Hh & Hlast). simpl.
    split_and!; [done|done|done|intros _; by apply Habs|done]. }
  destruct (first_indexed (index_anchors (path_key origin) hrefs) wantedPaths)
    as [[p a]|] eqn:E3.
  { destruct (indexed _ _ _ _ _ E3) as (Hu & Hh & Hlast). simpl.
    split_and!; [done|done|done|intros _; by apply Habs|].
    intros _. by apply not_indexed. }
  split_and!; [by apply Habs|by apply not_indexed|by apply not_indexed].
Qed.

End Facts.
End ListingFacts.

(** * Facts about the worker in a tab of its own *)

Module NewTabWorkerFacts.
Import JsString NewTabWorker.

Lemma timeoutMs_handle e s : timeoutMs (handle e s) = timeoutMs s.
Proof.
  unfold handle. destruct (negb (enabled e s)); [done|].
  destruct e as [created|tabId complete|lastError| |sender msg|ms]; simpl.
  - unfold onCreated. by destruct created as [[|n]|].
  - destruct (onUpdated s); [|done]. unfold onTabUpdated.
    destruct (tab s); [|done]. by destruct (bool_decide _ && complete).
  - unfold onInjected, cleanup. simpl. destruct lastError.
    + by destruct (tab s).
    + by destruct (tab s).
  - unfold onTimeout, cleanup. by destruct (tab s).
  - destruct (onMessage s); [|done]. unfold onWorkerMessage, cleanup.
    destruct sender as [t'|]; [|done]. destruct (tab s) as [t|] eqn:Et; [|done].
    case_bool_decide; [|done]. by destruct msg.
  - done.
Qed.

Lemma settle r t created s :
  waiting t created s → r ≠ CreateFailed →
  settled t (resolve r (cleanup s)) ∧ resolved (resolve r (cleanup s)) = Some r.
Proof.
  intros (Ht & Hc & Hr & Hm & Htm & Hlog) Hne.
  unfold cleanup. rewrite Ht. unfold settled, resolve. simpl. rewrite Hr.
  split_and!; try done.
  - by exists r.
  - apply elem_of_app. right. by left.
Qed.

Lemma settled_again r t s :
  settled t s →
  settled t (resolve r (cleanup s))
  ∧ resolved (resolve r (cleanup s)) = resolved s.
Proof.
  intros (Ht & Hc & Hm & Htm & (r0 & Hr & Hne) & Hlog).
  unfold cleanup. rewrite Ht. unfold settled, resolve. simpl. rewrite Hr.
  split_and!; try done.
  - by exists r0.
  - apply elem_of_app. by left.
Qed.

Lemma waiting_handle t created e s :
  waiting t created s →
  waiting t created (handle e s) ∨ settled t (handle e s).
Proof.
  intros Hw. pose proof Hw as (Ht & Hc & Hr & Hm & Htm & Hlog).
  unfold handle. destruct (negb (enabled e s)) eqn:En; [by left|].
  destruct e as [created'|tabId complete|lastError| |sender msg|ms]; simpl.
  - simpl in En. by rewrite Hc in En.
  - destruct (onUpdated s); [|by left]. unfold onTabUpdated. rewrite Ht.
    destruct (bool_decide (tabId = t) && complete); [|by left].
    left. unfold waiting, emit. simpl.
    rewrite filter_app, Hlog. split_and!; done.
  - unfold onInjected. destruct lastError.
    + right. apply (settle InjectFailed t created); [|done].
      unfold waiting. simpl. by split_and!.
    + simpl. rewrite Ht. left. unfold waiting, emit. simpl.
      rewrite filter_app, Hlog. split_and!; done.
  - right. by apply (settle TimedOut t created).
  - rewrite Hm. unfold onWorkerMessage. rewrite Ht.
    destruct sender as [t'|]; [|by left].
    case_bool_decide; [|by left]. destruct msg as [ok reason|]; [|by left].
    right. by apply (settle (Answered ok reason) t created).
  - left. unfold waiting. simpl. by split_and!.
Qed.

Lemma settled_handle t e s :
  settled t s → settled t (handle e s) ∧ resolved (handle e s) = resolved s.
Proof.
  intros Hs. pose proof Hs as (Ht & Hc & Hm & Htm & (r0 & Hr & Hne) & Hlog).
  unfold handle. destruct (negb (enabled e s)) eqn:En; [done|].
  destruct e as [created'|tabId complete|lastError| |sender msg|ms]; simpl.
  - simpl in En. by rewrite Hc in En.
  - destruct (onUpdated s); [|done]. unfold onTabUpdated. rewrite Ht.
    destruct (bool_decide (tabId = t) && complete); [|done].
    split; [|done]. unfold settled, emit. simpl. split_and!; try done.
    + by exists r0.
    + apply elem_of_app. by left.
  - unfold onInjected. destruct lastError.
    + match goal with
      | |- settled _ (resolve _ (cleanup ?x)) ∧ _ =>
          destruct (settled_again InjectFailed t x) as [H1 H2]
      end.
      { unfold settled. simpl. split_and!; try done. by exists r0. }
      split; [exact H1|exact H2].
    + simpl. rewrite Ht. split; [|done]. unfold settled, emit. simpl.
      split_and!; try done.
      * by exists r0.
      * apply elem_of_app. by left.
  - simpl in En. by rewrite Htm in En.
  - by rewrite Hm.
  - split; [|done]. unfold settled. simpl. split_and!; try done. by exists r0.
Qed.

Lemma waiting_run t created evs s :
  waiting t created s →
  waiting t created (run evs s) ∨ settled t (run evs s).
Proof.
  revert s. induction evs as [|e evs IH]; intros s Hw; [by left|].
  simpl. destruct (waiting_handle t created e s Hw) as [Hw'|Hs'].
  - by apply IH.
  - right. clear IH Hw. revert Hs'. generalize (handle e s). clear s.
    induction evs as [|e' evs IH]; intros s Hs; [done|].
    simpl. apply IH. by apply settled_handle.
Qed.

Lemma settled_run t evs s :
  settled t s → settled t (run evs s) ∧ resolved (run evs s) = resolved s.
Proof.
  revert s. induction evs as [|e evs IH]; intros s Hs; [done|].
  simpl. destruct (settled_handle t e s Hs) as [Hs' Hr].
  destruct (IH _ Hs') as [? ?]. split; [done|congruence].
Qed.

Lemma timeoutMs_run evs s : timeoutMs (run evs s) = timeoutMs s.
Proof.
  revert s. induction evs as [|e evs IH]; intros s; [done|].
  simpl. by rewrite IH, timeoutMs_handle.
Qed.

(** A worker run in a tab of its own has a deadline from the moment
    the tab exists, whatever the page does: as long as the promise is
    not resolved the timer is armed, due [timeoutMs] (30000 unless
    given) after the creation of the tab, and the message listener is
    on, so the timer's callback can run once the deadline has passed
    and it resolves the promise as a timeout; once the promise is
    resolved the timer is disarmed, the listener is off, the removal of
    the tab has been asked for, and the resolution never changes.  When
    the browser gives no tab the promise is resolved at once, with
    nothing armed. *)
Theorem worker_in_new_tab_has_a_deadline url p timeout t0 t evs :
  let s := run evs (handle (TabCreated (Some (S t)))
                      (runWorkerInNewTab url p timeout t0)) in
  let due := (t0 + Background.timer_delay (default 30000%Z timeout))%Z in
  match resolved s with
  | None =>
      timer s = Some due ∧ onMessage s = true
      ∧ filter (fun e => Is_true (is_removal e)) (log s) = []
      ∧ ((due <= now s)%Z →
         enabled TimerFired s = true
         ∧ resolved (handle TimerFired s) = Some TimedOut)
  | Some r =>
      r ≠ CreateFailed ∧ timer s = None ∧ onMessage s = false
      ∧ TabsRemove (S t) ∈ log s
      ∧ ∀ later, resolved (run later s) = Some r
  end
  ∧ ∀ created, match created with Some (S _) => False | _ => True end →
      let s' := handle (TabCreated created) (runWorkerInNewTab url p timeout t0) in
      resolved s' = Some CreateFailed ∧ timer s' = None ∧ onMessage s' = false
      ∧ log s' = [TabsCreate url].
Proof.
  intros s due. split.
  - assert (Hw0 : waiting (S t) t0
                    (handle (TabCreated (Some (S t)))
                       (runWorkerInNewTab url p timeout t0))).
    { unfold waiting. simpl. by split_and!. }
    assert (Htm : timeoutMs s = default 30000%Z timeout)
      by (subst s; by rewrite timeoutMs_run).
    destruct (waiting_run (S t) t0 evs _ Hw0) as [Hw|Hs]; fold s in Hw || fold s in Hs.
    + pose proof Hw as (Ht & Hc & Hr & Hm & Htmr & Hlog).
      rewrite Hr. rewrite Htm in Htmr. split_and!; [done..|].
      intros Hdue.
      assert (En : enabled TimerFired s = true).
      { simpl. rewrite Htmr. by apply Z.leb_le. }
      split; [done|]. unfold handle. rewrite En.
      change (resolved (onTimeout s) = Some TimedOut). unfold onTimeout.
      by destruct (settle TimedOut (S t) t0 s Hw) as [_ ->].
    + pose proof Hs as (Ht & Hc & Hm & Htmr & (r & Hr & Hne) & Hlog).
      rewrite Hr. split_and!; [done..|].
      intros later. destruct (settled_run (S t) later s Hs) as [_ ->]. done.
  - intros created Hc s'. subst s'.
    destruct created as [[|n]|]; [|done|]; by vm_compute.
Qed.

End NewTabWorkerFacts.

(** * The further facts at work *)

Module WorkerIllustrations.
Import JsString Automator WorkerInputs WorkerFacts.

Lemma last_stored_title_wins_witness :
  let old := {| title := Some "My Favorites"; id := Some "pl_1";
                playlist_id := None; slug := None |} in
  let new := {| title := Some " my favorites"; id := None;
                playlist_id := Some "pl_2"; slug := None |} in
  (∀ q, q ∈ [] → playlist_title_key q ≠ playlist_title_key new)
  ∧ toLowerCase (trim "MY FAVORITES ") = playlist_title_key new
  ∧ playlist_title_key new ≠ ""
  ∧ resolveIdsFromNames (Some [old; new]) ["MY FAVORITES "] = ["pl_2"].
Proof.
  intros old new.
  assert (H1 : ∀ q, q ∈ [] → playlist_title_key q ≠ playlist_title_key new)
    by (intros q Hq; by apply not_elem_of_nil in Hq).
  assert (H2 : toLowerCase (trim "MY FAVORITES ") = playlist_title_key new)
    by reflexivity.
  assert (H3 : playlist_title_key new ≠ "") by discriminate.
  split; [exact H1|]. split; [exact H2|]. split; [exact H3|].
  exact (last_stored_title_wins [old] new [] "MY FAVORITES " H1 H2 H3).
Defined.

Lemma clear_counts_every_box_witness :
  let c := {| items := []; checks := [fun _ => false; fun k => Nat.eqb k 0] |} in
  let ov := {| container := Some c; anyOn := true |} in
  container ov = Some c
  ∧ hadNone (ensureAllPlaylistsUnchecked ov) = 1
  ∧ unchecked (ensureAllPlaylistsUnchecked ov) ≤ 1.
Proof.
  intros c ov.
  assert (Hc : container ov = Some c) by reflexivity.
  split; [exact Hc|].
  destruct (clear_counts_every_box ov c Hc) as (Hh & Hu & _).
  split; [exact Hh|exact Hu].
Defined.

Lemma ensure_by_id_partitions_witness :
  let c := {| items := [ {| item_id := "pl_1"; nameRaw := "My Favorites";
                            cb := fun _ => false |} ];
              checks := [fun _ => false] |} in
  container one_unchecked = Some c
  ∧ fst (sought None ["pl_1"; " pl_9 "] []) ≠ []
  ∧ missing (ensurePlaylistsChecked None one_unchecked ["pl_1"; " pl_9 "] [])
    = [ {| e_id := Some "pl_9"; e_name := None |} ].
Proof.
  intros c.
  assert (Hc : container one_unchecked = Some c) by reflexivity.
  assert (Hne : fst (sought None ["pl_1"; " pl_9 "] []) ≠ []) by discriminate.
  split; [exact Hc|]. split; [exact Hne|].
  exact (proj1 (ensure_by_id_partitions None one_unchecked c
                  ["pl_1"; " pl_9 "] [] Hc Hne)).
Defined.

Lemma verified_set_has_all_checked_witness :
  let c := {| items := [ {| item_id := "pl_1"; nameRaw := "My Favorites";
                            cb := fun _ => true |} ];
              checks := [fun _ => true] |} in
  let ov := {| container := Some c; anyOn := true |} in
  let pg := {| stored := None; opened := inr ov; closed := true;
               reopened := Some (inr ov) |} in
  reopened pg = Some (inr ov)
  ∧ container ov = Some c
  ∧ id_keys ["pl_1"] ≠ []
  ∧ NoDup (filter (fun i => Is_true (truthy i)) (item_id <$> items c))
  ∧ verifyVideoOverlayState pg ModeSet ["pl_1"] [] = Some true
  ∧ ∀ i, i ∈ id_keys ["pl_1"] →
      ∃ it, it ∈ items c ∧ item_id it = i ∧ isChecked (cb it) = true.
Proof.
  intros c ov pg.
  assert (H1 : reopened pg = Some (inr ov)) by reflexivity.
  assert (H2 : container ov = Some c) by reflexivity.
  assert (H3 : id_keys ["pl_1"] ≠ []) by discriminate.
  assert (H4 : NoDup (filter (fun i => Is_true (truthy i)) (item_id <$> items c)))
    by (apply NoDup_singleton).
  assert (H5 : verifyVideoOverlayState pg ModeSet ["pl_1"] [] = Some true)
    by reflexivity.
  split; [exact H1|]. split; [exact H2|]. split; [exact H3|].
  split; [exact H4|]. split; [exact H5|].
  exact (verified_set_has_all_checked pg ov c ["pl_1"] [] H1 H2 H3 H4 H5).
Defined.

Lemma ids_shadow_names_witness :
  id_keys ["pl_1"] ≠ []
  ∧ videoWorkerRun page_confirmed
      {| playlistIds := ["pl_1"]; playlistNames := ["Other"]; clearAll := false |}
    = videoWorkerRun page_confirmed
        {| playlistIds := ["pl_1"]; playlistNames := []; clearAll := false |}.
Proof.
  assert (H1 : id_keys ["pl_1"] ≠ []) by discriminate.
  split; [exact H1|].
  exact (proj2 (proj2 (ids_shadow_names page_confirmed one_unchecked None None
                         ["pl_1"] ["Other"] [] H1))).
Defined.

Lemma blank_set_request_is_not_confirmed_witness :
  let blank := {| playlistIds := [" "]; playlistNames := [""; "  "];
                  clearAll := false |} in
  clearAll blank = false
  ∧ id_keys (playlistIds blank) = [] ∧ run_namesRaw blank = []
  ∧ opened page_confirmed = inr one_unchecked
  ∧ reopened page_confirmed = Some (inr one_unchecked)
  ∧ ok (videoWorkerRun page_confirmed blank) = false.
Proof.
  intros blank.
  assert (H1 : clearAll blank = false) by reflexivity.
  assert (H2 : id_keys (playlistIds blank) = []) by reflexivity.
  assert (H3 : run_namesRaw blank = []) by reflexivity.
  assert (H4 : opened page_confirmed = inr one_unchecked) by reflexivity.
  assert (H5 : reopened page_confirmed = Some (inr one_unchecked)) by reflexivity.
  split; [exact H1|]. split; [exact H2|]. split; [exact H3|].
  split; [exact H4|]. split; [exact H5|].
  exact (proj1 (blank_set_request_is_not_confirmed page_confirmed blank
                  one_unchecked (inr one_unchecked) H1 H2 H3 H4 H5)).
Defined.

End WorkerIllustrations.

Module RunnerIllustrations.
Import JsString JsText Background JobInputs JobFacts RunnerFacts.

#[local] Existing Instance plain_url.

Lemma queue_keeps_submission_order_witness :
  rejected set2 = false
  ∧ ∃ j, job (start set2 init) = Some j
      ∧ head (queue j) = Some v1
      ∧ ∀ u, u ∈ queue j → ends_with_slash u = false.
Proof.
  assert (Hp : rejected set2 = false) by (vm_compute; reflexivity).
  split; [exact Hp|].
  destruct (queue_keeps_submission_order set2 init Hp)
    as (j & Hj & Hslash & Hhead & _).
  exists j. split; [exact Hj|]. split; [exact Hhead|exact Hslash].
Defined.

Lemma request_cancels_running_job_witness :
  let s := run [TabCreated (Some 7)] (start set2 init) in
  ∃ j, job s = Some j
    ∧ job (start no_playlists s) = None
    ∧ lifecycle (start no_playlists s)
      = lifecycle s ++ [TabsRemove 7]
        ++ [SendMessage (Error "Missing videos or playlists.")].
Proof.
  intros s.
  assert (Hj : ∃ j, job s = Some j) by (eexists; vm_compute; reflexivity).
  destruct Hj as [j Hj]. exists j. split; [exact Hj|].
  destruct (request_cancels_running_job no_playlists s j Hj) as (H1 & H2 & _).
  split; [exact H1|]. rewrite H2. f_equal.
Defined.

Lemma foreign_messages_are_ignored_witness :
  let s := run [TabCreated (Some 7)] (start set2 init) in
  ∃ j, job s = Some j
    ∧ (Some 8 = None ∨ tabId j ≠ Some 8
       ∨ VideoWorkerResult true None = OtherMessage)
    ∧ log (handle (WorkerMessage (Some 8) (VideoWorkerResult true None)) s)
      = log s.
Proof.
  intros s.
  assert (Hj : ∃ j, job s = Some j ∧ tabId j = Some 7).
  { eexists. split; vm_compute; reflexivity. }
  destruct Hj as (j & Hj & Ht). exists j. split; [exact Hj|].
  assert (Hf : Some 8 = None ∨ tabId j ≠ Some 8
               ∨ VideoWorkerResult true None = OtherMessage).
  { right. left. rewrite Ht. discriminate. }
  split; [exact Hf|].
  exact (proj1 (proj2 (foreign_messages_are_ignored s j (Some 8)
                         (VideoWorkerResult true None) Hj Hf))).
Defined.

Lemma clear_request_always_starts_witness :
  [v1; v1] ≠ []
  ∧ ∃ j, job (handle (ClearPlaylistsFromVideos (Some [v1; v1])) init) = Some j
      ∧ clearAll j = true ∧ perVideoTimeoutMs j = 30000%Z.
Proof.
  assert (Hne : [v1; v1] ≠ []) by discriminate.
  split; [exact Hne|].
  destruct (clear_request_always_starts [v1; v1] init Hne)
    as [(j & Hj & Hc & Ht & _) _].
  exists j. split; [exact Hj|]. split; [exact Hc|exact Ht].
Defined.

Lemma tab_is_removed_last_or_kept_witness :
  idle init ∧ rejected set2 = false ∧ no_request both_answer = true
  ∧ (is_Some (job (run both_answer (start set2 init))) →
     filter (fun e => Is_true (is_remove e))
       (lifecycle_since init (run both_answer (start set2 init))) = []).
Proof.
  assert (Hi : idle init) by (split_and!; vm_compute; reflexivity).
  assert (Hp : rejected set2 = false) by (vm_compute; reflexivity).
  assert (Hn : no_request both_answer = true) by (vm_compute; reflexivity).
  split; [exact Hi|]. split; [exact Hp|]. split; [exact Hn|].
  exact (proj1 (proj2 (tab_is_removed_last_or_kept set2 init both_answer
                         Hi Hp Hn))).
Defined.

End RunnerIllustrations.

Module OtherIllustrations.
Import JsString JsText.

Lemma ownership_ignores_case_space_and_at_witness :
  Ownership.plain "Tombi" ∧ Ownership.plain "tombi"
  ∧ all_ws " " = true ∧ all_ws "" = true
  ∧ Ownership.isTabOwnedByUser
      {| Ownership.rumbleUsername := Some (Ownership.written " " true "Tombi" "");
         Ownership.api := None |}
      (Some [Some (Ownership.written "" false "tombi" " ")])
    = bool_decide (toLowerCase "tombi" = toLowerCase "Tombi").
Proof.
  assert (H1 : Ownership.plain "Tombi") by (split_and!; [discriminate|reflexivity..]).
  assert (H2 : Ownership.plain "tombi") by (split_and!; [discriminate|reflexivity..]).
  assert (H3 : all_ws " " = true) by reflexivity.
  assert (H4 : all_ws "" = true) by reflexivity.
  split; [exact H1|]. split; [exact H2|]. split; [exact H3|]. split; [exact H4|].
  exact (OwnershipFacts.ownership_ignores_case_space_and_at
           "Tombi" "tombi" " " "" "" " " true false None H1 H2 H3 H4 H4 H3).
Defined.

Lemma derived_link_round_trips_witness :
  let none := Livestream.Other false in
  let ls := {| Livestream.url := none; Livestream.short_url := none;
               Livestream.share_url := none; Livestream.permalink := none;
               Livestream.shortcode := Livestream.Str "v6abcde";
               Livestream.hash := none; Livestream.slug := none;
               Livestream.id := none; Livestream.video_id := none |} in
  let ls' := {| Livestream.url := Livestream.Str "https://rumble.com/vv6abcde";
                Livestream.short_url := none;
                Livestream.share_url := none; Livestream.permalink := none;
                Livestream.shortcode := none;
                Livestream.hash := none; Livestream.slug := none;
                Livestream.id := none; Livestream.video_id := none |} in
  Livestream.first_http
    [Livestream.url ls; Livestream.short_url ls; Livestream.share_url ls;
     Livestream.permalink ls] = None
  ∧ snd (Livestream.deriveLivestreamLink ls) = Some "v6abcde"
  ∧ (Livestream.url ls' = Livestream.Str ("https://rumble.com/v" +:+ "v6abcde") →
     Livestream.deriveLivestreamLink ls' = Livestream.deriveLivestreamLink ls).
Proof.
  intros none ls ls'.
  assert (H1 : Livestream.first_http
                 [Livestream.url ls; Livestream.short_url ls;
                  Livestream.share_url ls; Livestream.permalink ls] = None)
    by reflexivity.
  assert (H2 : snd (Livestream.deriveLivestreamLink ls) = Some "v6abcde")
    by reflexivity.
  split; [exact H1|]. split; [exact H2|].
  exact (proj1 (LivestreamFacts.derived_link_round_trips ls ls' "v6abcde" H1 H2)).
Defined.

Lemma create_button_is_never_picked_witness :
  let b := {| SaveButton.textContent := " Create new playlist & save ";
              SaveButton.value := None;
              SaveButton.data_js := Some "playlist_create_and_save";
              SaveButton.disabled := false;
              SaveButton.aria_disabled := None |} in
  contains "create" (SaveButton.button_text b) = true
  ∧ contains "save_to_playlist" (SaveButton.button_ds b) = false
  ∧ (SaveButton.score b < 0)%Z.
Proof.
  intros b.
  assert (H1 : contains "create" (SaveButton.button_text b) = true) by reflexivity.
  assert (H2 : contains "save_to_playlist" (SaveButton.button_ds b) = false)
    by reflexivity.
  split; [exact H1|]. split; [exact H2|].
  exact (proj1 (SaveButtonFacts.create_button_is_never_picked b H1 H2)).
Defined.

Lemma video_id_of_video_path_witness :
  let x := {| Background.site := "https://rumble.com";
              Background.pathname := "/v6abcde-my-video.html";
              Background.search := None; Background.hash := None |} in
  Background.parseURL (UrlApi := Background.plain_url)
    "/v6abcde-my-video.html" (Some "https://rumble.com") = Some x
  ∧ Background.pathname x = "/v" +:+ "6abcde-my-video" +:+ ".html"
  ∧ Listing.getVideoIdFromUrl (H := Background.plain_url) "https://rumble.com"
      "/v6abcde-my-video.html"
    = Some "6abcde-my-video".
Proof.
  intros x.
  assert (H1 : Background.parseURL (UrlApi := Background.plain_url)
                 "/v6abcde-my-video.html" (Some "https://rumble.com") = Some x)
    by reflexivity.
  assert (H2 : Background.pathname x = "/v" +:+ "6abcde-my-video" +:+ ".html")
    by reflexivity.
  split; [exact H1|]. split; [exact H2|].
  exact (ListingFacts.video_id_of_video_path (H := Background.plain_url)
           "https://rumble.com" "/v6abcde-my-video.html" x "6abcde-my-video"
           H1 H2).
Defined.

End OtherIllustrations.
